(** * League protocol core (ex7): scheduler, standings ledger, registry,
      referee match flow, game rule and transport client.

    Shallow embedding of the Python sources
      - [agents/league_manager/scheduler.py], [state.py], [handlers.py]
      - [agents/referee/game_logic.py], [state.py], [handlers.py]
      - [SHARED/league_sdk/http_client.py]
    Python [int] is [Z]; [str] is [string]; a [dict] is an insertion-ordered
    association list ([Dict]), because iteration order is observable
    ([players.keys()] feeds the scheduler, [standings.values()] feeds the
    stable sort); [dict[str, Any]] message bodies are [json] values.
    Randomness, the clock, and the network are explicit inputs. *)

From Stdlib Require Import ZArith List String Ascii Bool Lia Arith.
From Stdlib Require Import Permutation Sorted QArith.
From Stdlib Require Import DecimalString DecimalZ.
Import ListNotations.

Local Open Scope string_scope.
Local Open Scope Z_scope.

(* ------------------------------------------------------------------ *)
(** ** Number formatting used by the f-strings *)

Module Fmt.

(** [str(n)] / [f"{n}"] for an [int]. *)
Definition str (n : Z) : string := NilEmpty.string_of_int (Z.to_int n).

(** [f"{n:02d}"]: decimal, zero-padded to width two (the sign counts
    towards the width, so only 0..9 are padded). *)
Definition fmt_02d (n : Z) : string :=
  if (0 <=? n) && (n <? 10) then "0" ++ str n else str n.

(** Reads a (possibly zero-padded) decimal back; used only in proofs. *)
Definition parse (s : string) : option Z :=
  option_map Z.of_int (NilEmpty.int_of_string s).

(** Whether the character [c] occurs in [s]; used only in proofs. *)
Fixpoint occurs (c : ascii) (s : string) : bool :=
  match s with
  | EmptyString => false
  | String c' rest => Ascii.eqb c' c || occurs c rest
  end.

End Fmt.

(* ------------------------------------------------------------------ *)
(** ** Python dictionaries (insertion ordered) *)

Module Dict.
Section Ops.
Context {V : Type}.

Definition t := list (string * V).

(** [d.get(k)] *)
Fixpoint get (d : list (string * V)) (k : string) : option V :=
  match d with
  | [] => None
  | (k', v) :: rest => if String.eqb k' k then Some v else get rest k
  end.

(** [d[k] = v]: overwrite in place, or append a new last entry. *)
Fixpoint set (d : list (string * V)) (k : string) (v : V) : list (string * V) :=
  match d with
  | [] => [(k, v)]
  | (k', v') :: rest =>
      if String.eqb k' k then (k', v) :: rest else (k', v') :: set rest k v
  end.

(** [del d[k]] guarded by [k in d]. *)
Fixpoint remove (d : list (string * V)) (k : string) : list (string * V) :=
  match d with
  | [] => []
  | (k', v') :: rest =>
      if String.eqb k' k then rest else (k', v') :: remove rest k
  end.

(** [k in d] *)
Definition mem (d : list (string * V)) (k : string) : bool :=
  match get d k with Some _ => true | None => false end.

Definition keys (d : list (string * V)) : list string := map fst d.
Definition values (d : list (string * V)) : list V := map snd d.

End Ops.
Arguments t : clear implicits.
End Dict.

(* ------------------------------------------------------------------ *)
(** ** Calls that may raise *)

Inductive outcome (A : Type) : Type :=
| Returned (a : A)
| Raised (exn : string).
Arguments Returned {A} a.
Arguments Raised {A} exn.

(* ------------------------------------------------------------------ *)
(** ** JSON values: the [dict[str, Any]] bodies exchanged on the wire *)

#[local] Set Warnings "-register-all".

Inductive json : Type :=
| JNull
| JBool (b : bool)
| JInt (n : Z)
| JStr (s : string)
| JList (l : list json)
| JObj (d : list (string * json)).

Module Json.

(** [obj.get(k)], [None] when the key is missing (or maps to null). *)
Definition get (j : json) (k : string) : json :=
  match j with
  | JObj d => match Dict.get d k with Some v => v | None => JNull end
  | _ => JNull
  end.

(** [obj.get(k, {})] *)
Definition get_or_empty (j : json) (k : string) : json :=
  match j with
  | JObj d => match Dict.get d k with Some v => v | None => JObj [] end
  | _ => JObj []
  end.

(** [k in obj] *)
Definition has (j : json) (k : string) : bool :=
  match j with
  | JObj d => Dict.mem d k
  | _ => false
  end.

(** Python truthiness of a decoded JSON value. *)
Definition truthy (j : json) : bool :=
  match j with
  | JNull => false
  | JBool b => b
  | JInt n => negb (n =? 0)
  | JStr s => negb (String.eqb s "")
  | JList l => match l with [] => false | _ => true end
  | JObj d => match d with [] => false | _ => true end
  end.

(** [value == s] for a [str] [s]. *)
Definition eq_str (j : json) (s : string) : bool :=
  match j with
  | JStr t => String.eqb t s
  | _ => false
  end.

(** [value is None] *)
Definition is_none (j : json) : bool :=
  match j with JNull => true | _ => false end.

(** [isinstance(value, dict)] *)
Definition is_obj (j : json) : bool :=
  match j with JObj _ => true | _ => false end.

Definition of_opt_str (o : option string) : json :=
  match o with Some s => JStr s | None => JNull end.

End Json.

(* ------------------------------------------------------------------ *)
(** ** Scheduler ([agents/league_manager/scheduler.py]) *)

(** [state.Match]; [winner] and [result] default to [None]. *)
Record Match : Type := mkMatch {
  match_id : string;
  round_id : Z;
  player_a_id : string;
  player_b_id : string;
  status : string;
  winner : json;
  result : json
}.

Module Scheduler.

(** [itertools.combinations(l, 2)]: position pairs [i < j] in
    lexicographic order. *)
Fixpoint combinations2 {A : Type} (l : list A) : list (A * A) :=
  match l with
  | [] => []
  | x :: xs => map (pair x) xs ++ combinations2 xs
  end.

(** One pass of the [for] loop body, with [match_num] and the
    accumulated [matches] threaded through. *)
Definition new_match (match_num : Z) (p : string * string) : Match :=
  let round_id := (match_num - 1) / 2 + 1 in
  mkMatch ("R" ++ Fmt.str round_id ++ "M" ++ Fmt.str match_num)
          round_id (fst p) (snd p) "PENDING" JNull JNull.

Fixpoint schedule_loop (pairs : list (string * string)) (match_num : Z)
         (matches : list Match) : list Match :=
  match pairs with
  | [] => matches
  | p :: rest =>
      schedule_loop rest (match_num + 1) (matches ++ [new_match match_num p])
  end.

Definition create_round_robin_schedule (player_ids : list string) : list Match :=
  schedule_loop (combinations2 player_ids) 1 [].

Definition get_matches_for_round (schedule : list Match) (r : Z) : list Match :=
  filter (fun m => round_id m =? r) schedule.

Definition get_total_rounds (schedule : list Match) : Z :=
  match schedule with
  | [] => 0
  | m :: rest => fold_left Z.max (map round_id rest) (round_id m)
  end.

(** The match is played between [a] and [b], in either role. *)
Definition is_pairing (a b : string) (m : Match) : bool :=
  (String.eqb (player_a_id m) a && String.eqb (player_b_id m) b)
  || (String.eqb (player_a_id m) b && String.eqb (player_b_id m) a).

Definition pairing_count (a b : string) (schedule : list Match) : nat :=
  List.length (filter (is_pairing a b) schedule).

Definition players_of (m : Match) : string * string :=
  (player_a_id m, player_b_id m).

(** The same test and count on bare pairs of player ids. *)
Definition pair_matches (a b : string) (p : string * string) : bool :=
  (String.eqb (fst p) a && String.eqb (snd p) b)
  || (String.eqb (fst p) b && String.eqb (snd p) a).

Definition count_pairs (a b : string) (ps : list (string * string)) : nat :=
  List.length (filter (pair_matches a b) ps).

(** The round numbers [1, ..., total], as [range(1, total + 1)]
    enumerates them. *)
Definition round_numbers (total : Z) : list Z :=
  map (fun i => Z.of_nat i + 1) (seq 0 (Z.to_nat total)).

(** The identifier given to match number [match_num]. *)
Definition match_id_at (match_num : Z) : string :=
  "R" ++ Fmt.str ((match_num - 1) / 2 + 1) ++ "M" ++ Fmt.str match_num.

End Scheduler.

(* ------------------------------------------------------------------ *)
(** ** League state ([agents/league_manager/state.py]) *)

Record RegisteredReferee : Type := mkReferee {
  referee_id : string;
  ref_display_name : string;
  ref_endpoint : string;
  ref_auth_token : string;
  ref_version : string;
  ref_game_types : list string;
  max_concurrent_matches : Z;
  active_matches : Z
}.

Record RegisteredPlayer : Type := mkPlayer {
  player_id : string;
  pl_display_name : string;
  pl_endpoint : string;
  pl_auth_token : string;
  pl_version : string;
  pl_game_types : list string
}.

Record PlayerStanding : Type := mkStanding {
  st_player_id : string;
  st_display_name : string;
  played : Z;
  wins : Z;
  draws : Z;
  losses : Z;
  points : Z
}.

(** [PlayerStanding.to_dict(rank)] *)
Record RankedRow : Type := mkRow {
  rank : Z;
  row : PlayerStanding
}.

(** Documents written through [DataLoader.save]. *)
Inductive Document : Type :=
| StandingsDoc (schema_version league : string) (last_updated : string)
               (rounds : Z) (rows : list RankedRow)
| MatchDoc (body : json).

Record LeagueState : Type := mkLeague {
  league_id : string;
  referees : Dict.t RegisteredReferee;
  players : Dict.t RegisteredPlayer;
  auth_tokens : Dict.t string;
  standings : Dict.t PlayerStanding;
  schedule : list Match;
  current_round : Z;
  rounds_completed : Z;
  _next_referee_num : Z;
  _next_player_num : Z;
  (** [data_loader]: the files under [data_root], by relative path *)
  disk : Dict.t Document
}.

Module League.

(** [LeagueState.__init__] (on an empty data directory). *)
Definition init (league : string) : LeagueState :=
  mkLeague league [] [] [] [] [] 0 0 1 1 [].

Definition with_standings (s : LeagueState) (sd : Dict.t PlayerStanding) : LeagueState :=
  mkLeague (league_id s) (referees s) (players s) (auth_tokens s) sd
           (schedule s) (current_round s) (rounds_completed s)
           (_next_referee_num s) (_next_player_num s) (disk s).

Definition with_schedule (s : LeagueState) (sch : list Match) : LeagueState :=
  mkLeague (league_id s) (referees s) (players s) (auth_tokens s) (standings s)
           sch (current_round s) (rounds_completed s)
           (_next_referee_num s) (_next_player_num s) (disk s).

Definition with_disk (s : LeagueState) (d : Dict.t Document) : LeagueState :=
  mkLeague (league_id s) (referees s) (players s) (auth_tokens s) (standings s)
           (schedule s) (current_round s) (rounds_completed s)
           (_next_referee_num s) (_next_player_num s) d.

(** [generate_auth_token]; [hex] is the draw of [secrets.token_hex(16)]. *)
Definition generate_auth_token (hex : string) : string := "tok-" ++ hex.

(** [game_types or ["even_odd"]] *)
Definition game_types_or_default (g : option (list string)) : list string :=
  match g with
  | Some (x :: l) => x :: l
  | _ => ["even_odd"]
  end.

Definition register_referee (s : LeagueState)
           (display_name endpoint version : string)
           (game_types : option (list string)) (max_concurrent : Z)
           (hex : string) : LeagueState * RegisteredReferee :=
  let referee_id := "REF" ++ Fmt.fmt_02d (_next_referee_num s) in
  let next := _next_referee_num s + 1 in
  let auth_token := generate_auth_token hex in
  let referee := mkReferee referee_id display_name endpoint auth_token version
                           (game_types_or_default game_types) max_concurrent 0 in
  (mkLeague (league_id s)
            (Dict.set (referees s) referee_id referee)
            (players s)
            (Dict.set (auth_tokens s) auth_token referee_id)
            (standings s) (schedule s) (current_round s) (rounds_completed s)
            next (_next_player_num s) (disk s),
   referee).

Definition register_player (s : LeagueState)
           (display_name endpoint version : string)
           (game_types : option (list string))
           (hex : string) : LeagueState * RegisteredPlayer :=
  let player_id := "P" ++ Fmt.fmt_02d (_next_player_num s) in
  let next := _next_player_num s + 1 in
  let auth_token := generate_auth_token hex in
  let player := mkPlayer player_id display_name endpoint auth_token version
                         (game_types_or_default game_types) in
  (mkLeague (league_id s)
            (referees s)
            (Dict.set (players s) player_id player)
            (Dict.set (auth_tokens s) auth_token player_id)
            (Dict.set (standings s) player_id
                      (mkStanding player_id display_name 0 0 0 0 0))
            (schedule s) (current_round s) (rounds_completed s)
            (_next_referee_num s) next (disk s),
   player).

Definition validate_auth_token (s : LeagueState) (token : string) : option string :=
  Dict.get (auth_tokens s) token.

(** *** Ranking *)

(** The sort key [(-s.points, -s.wins, -s.draws)]. *)
Definition sort_key (s : PlayerStanding) : Z * Z * Z :=
  (- points s, - wins s, - draws s).

(** Python's tuple comparison [k1 <= k2]. *)
Definition key_leb (k1 k2 : Z * Z * Z) : bool :=
  let '(a1, b1, c1) := k1 in
  let '(a2, b2, c2) := k2 in
  (a1 <? a2) || ((a1 =? a2) && ((b1 <? b2) || ((b1 =? b2) && (c1 <=? c2)))).

(** [sorted(xs, key=sort_key)]. [sorted] is stable, and a stable sort
    has exactly one possible output, so any stable algorithm computes
    it; this is the stable insertion sort. *)
Fixpoint insert_by_key (x : PlayerStanding) (l : list PlayerStanding)
  : list PlayerStanding :=
  match l with
  | [] => [x]
  | y :: ys =>
      if key_leb (sort_key x) (sort_key y) then x :: y :: ys
      else y :: insert_by_key x ys
  end.

Definition sorted_by_key (l : list PlayerStanding) : list PlayerStanding :=
  fold_right insert_by_key [] l.

(** [[s.to_dict(rank + 1) for rank, s in enumerate(l)]], with the
    enumeration index starting at [rank0]. *)
Fixpoint enumerate_rows (rank0 : Z) (l : list PlayerStanding) : list RankedRow :=
  match l with
  | [] => []
  | s :: rest => mkRow (rank0 + 1) s :: enumerate_rows (rank0 + 1) rest
  end.

Definition get_ranked_standings (s : LeagueState) : list RankedRow :=
  enumerate_rows 0 (sorted_by_key (Dict.values (standings s))).

(** *** Persistence *)

Definition standings_path (league : string) : string :=
  "leagues/" ++ league ++ "/standings.json".

Definition match_path (league mid : string) : string :=
  "matches/" ++ league ++ "/" ++ mid ++ ".json".

(** [_save_standings]; [now] is [utc_timestamp()]. The write itself is
    taken to succeed. *)
Definition _save_standings (s : LeagueState) (now : string) : LeagueState :=
  with_disk s
    (Dict.set (disk s) (standings_path (league_id s))
       (StandingsDoc "1.0.0" (league_id s) now (rounds_completed s)
                     (get_ranked_standings s))).

Definition save_match_result (s : LeagueState) (mid : string) (body : json)
  : LeagueState :=
  with_disk s (Dict.set (disk s) (match_path (league_id s) mid) (MatchDoc body)).

(** *** Standings update *)

(** In-place field updates on the standing object stored under [k].
    Objects are addressed by their key, so two names for the same key
    are the same object. *)
Definition modify (sd : Dict.t PlayerStanding) (k : string)
           (f : PlayerStanding -> PlayerStanding) : Dict.t PlayerStanding :=
  match Dict.get sd k with
  | Some v => Dict.set sd k (f v)
  | None => sd
  end.

Definition add_played (n : Z) (s : PlayerStanding) : PlayerStanding :=
  mkStanding (st_player_id s) (st_display_name s)
             (played s + n) (wins s) (draws s) (losses s) (points s).
Definition add_wins (n : Z) (s : PlayerStanding) : PlayerStanding :=
  mkStanding (st_player_id s) (st_display_name s)
             (played s) (wins s + n) (draws s) (losses s) (points s).
Definition add_draws (n : Z) (s : PlayerStanding) : PlayerStanding :=
  mkStanding (st_player_id s) (st_display_name s)
             (played s) (wins s) (draws s + n) (losses s) (points s).
Definition add_losses (n : Z) (s : PlayerStanding) : PlayerStanding :=
  mkStanding (st_player_id s) (st_display_name s)
             (played s) (wins s) (draws s) (losses s + n) (points s).
Definition add_points (n : Z) (s : PlayerStanding) : PlayerStanding :=
  mkStanding (st_player_id s) (st_display_name s)
             (played s) (wins s) (draws s) (losses s) (points s + n).

(** The statements of [update_standings_for_match] between the guard
    and the save, in source order. *)
Definition apply_result (sd : Dict.t PlayerStanding) (a b : string) (w : json)
  : Dict.t PlayerStanding :=
  let sd := modify sd a (add_played 1) in
  let sd := modify sd b (add_played 1) in
  if Json.is_none w then
    let sd := modify sd a (add_draws 1) in
    let sd := modify sd b (add_draws 1) in
    let sd := modify sd a (add_points 1) in
    modify sd b (add_points 1)
  else if Json.eq_str w a then
    let sd := modify sd a (add_wins 1) in
    let sd := modify sd a (add_points 3) in
    modify sd b (add_losses 1)
  else
    let sd := modify sd b (add_wins 1) in
    let sd := modify sd b (add_points 3) in
    modify sd a (add_losses 1).

Definition update_standings_for_match (s : LeagueState)
           (a b : string) (w : json) (now : string) : LeagueState :=
  match Dict.get (standings s) a, Dict.get (standings s) b with
  | Some _, Some _ =>
      _save_standings (with_standings s (apply_result (standings s) a b w)) now
  | _, _ => s
  end.

(** *** Operation sequences on the ledger *)

Inductive Op : Type :=
| RegisterReferee (display_name endpoint version : string)
                  (game_types : option (list string)) (max_concurrent : Z)
                  (hex : string)
| RegisterPlayer (display_name endpoint version : string)
                 (game_types : option (list string)) (hex : string)
| UpdateStandings (a b : string) (w : json) (now : string).

Definition step (s : LeagueState) (o : Op) : LeagueState :=
  match o with
  | RegisterReferee d e v g m h => fst (register_referee s d e v g m h)
  | RegisterPlayer d e v g h => fst (register_player s d e v g h)
  | UpdateStandings a b w now => update_standings_for_match s a b w now
  end.

Definition run (s : LeagueState) (ops : list Op) : LeagueState :=
  fold_left step ops s.

(** Identifiers handed out by the registration calls of [ops], in call
    order, starting from [s]. *)
Fixpoint issued_player_ids (s : LeagueState) (ops : list Op) : list string :=
  match ops with
  | [] => []
  | o :: rest =>
      match o with
      | RegisterPlayer d e v g h =>
          player_id (snd (register_player s d e v g h))
            :: issued_player_ids (step s o) rest
      | _ => issued_player_ids (step s o) rest
      end
  end.

Fixpoint issued_referee_ids (s : LeagueState) (ops : list Op) : list string :=
  match ops with
  | [] => []
  | o :: rest =>
      match o with
      | RegisterReferee d e v g m h =>
          referee_id (snd (register_referee s d e v g m h))
            :: issued_referee_ids (step s o) rest
      | _ => issued_referee_ids (step s o) rest
      end
  end.

(** *** Vocabulary for the statements *)

(** [played = wins + draws + losses] *)
Definition consistent (v : PlayerStanding) : Prop :=
  played v = wins v + draws v + losses v.

Definition all_consistent (d : Dict.t PlayerStanding) : Prop :=
  forall k v, Dict.get d k = Some v -> consistent v.

(** The identifier the registry hands out at counter value [n]. *)
Definition player_id_at (n : Z) : string := "P" ++ Fmt.fmt_02d n.
Definition referee_id_at (n : Z) : string := "REF" ++ Fmt.fmt_02d n.

(** How much [(played, wins, draws, losses, points)] grew from [old] to [new]. *)
Definition delta (old new : PlayerStanding) : Z * Z * Z * Z * Z :=
  (played new - played old, wins new - wins old, draws new - draws old,
   losses new - losses old, points new - points old).

(** [x] may stand above [y]: more points, or equal points and more
    wins, or equal points and wins and at least as many draws. *)
Definition ranked_before (x y : PlayerStanding) : Prop :=
  points y < points x
  \/ (points x = points y
      /\ (wins y < wins x \/ (wins x = wins y /\ draws y <= draws x))).

(** *** Lookups *)

(** [get_player_endpoint] *)
Definition get_player_endpoint (s : LeagueState) (pid : string) : option string :=
  match Dict.get (players s) pid with
  | Some player => Some (pl_endpoint player)
  | None => None
  end.

(** [get_available_referee]: the first referee, in the order of
    [referees.values()], that is below its limit. *)
Definition get_available_referee (s : LeagueState) : option RegisteredReferee :=
  find (fun r => active_matches r <? max_concurrent_matches r)
       (Dict.values (referees s)).

(** [get_player_stats] *)
Definition get_player_stats (s : LeagueState) (pid : string) : Dict.t Z :=
  match Dict.get (standings s) pid with
  | None => [("wins", 0); ("losses", 0); ("draws", 0)]
  | Some standing =>
      [("wins", wins standing); ("losses", losses standing);
       ("draws", draws standing)]
  end.

(** *** Reading back ([DataLoader.load], [load_standings], [load_match]) *)

(** [DataLoader.load]: the stored document, or [{}] when there is no
    such file. *)
Definition load (files : Dict.t Document) (path : string) : Document :=
  match Dict.get files path with
  | Some doc => doc
  | None => MatchDoc (JObj [])
  end.

Definition load_standings (files : Dict.t Document) (league : string) : Document :=
  load files (standings_path league).

Definition load_match (files : Dict.t Document) (league mid : string) : Document :=
  load files (match_path league mid).

(** *** More vocabulary for the statements *)

(** A counter summed over the whole table. *)
Definition total (f : PlayerStanding -> Z) (d : Dict.t PlayerStanding) : Z :=
  fold_right Z.add 0 (map f (Dict.values d)).

(** The token an operation mints, if it is a registration. *)
Definition token_minted (o : Op) : option string :=
  match o with
  | RegisterReferee _ _ _ _ _ hex => Some (generate_auth_token hex)
  | RegisterPlayer _ _ _ _ hex => Some (generate_auth_token hex)
  | UpdateStandings _ _ _ _ => None
  end.

(** The identifier an operation hands out from state [s], if it is a
    registration. *)
Definition id_issued (s : LeagueState) (o : Op) : option string :=
  match o with
  | RegisterReferee d e v g m h =>
      Some (referee_id (snd (register_referee s d e v g m h)))
  | RegisterPlayer d e v g h =>
      Some (player_id (snd (register_player s d e v g h)))
  | UpdateStandings _ _ _ _ => None
  end.

(** The standing has [p] points, [w] wins and [d] draws. *)
Definition tied_at (p w d : Z) (s : PlayerStanding) : bool :=
  (points s =? p) && (wins s =? w) && (draws s =? d).

End League.

(* ------------------------------------------------------------------ *)
(** ** Even/Odd game rule ([agents/referee/game_logic.py]) *)

Module GameLogic.

(** [str.lower()] on the ASCII letters. Strings are byte sequences
    here; no non-ASCII character lowers to one of the letters of
    ["even"] or ["odd"], so the comparisons below are unaffected. *)
Definition lower_ascii (c : ascii) : ascii :=
  let n := nat_of_ascii c in
  if (65 <=? n)%nat && (n <=? 90)%nat then ascii_of_nat (n + 32) else c.

Fixpoint lower (s : string) : string :=
  match s with
  | EmptyString => EmptyString
  | String c rest => String (lower_ascii c) (lower rest)
  end.

Definition get_parity (number : Z) : string :=
  if number mod 2 =? 0 then "even" else "odd".

(** Returns [(winner, parity, reason)]. *)
Definition determine_winner (choice_a choice_b : string) (number : Z)
  : option string * string * string :=
  let parity := get_parity number in
  let a_correct := String.eqb (lower choice_a) parity in
  let b_correct := String.eqb (lower choice_b) parity in
  if a_correct && negb b_correct then
    (Some "PLAYER_A", parity,
     "Player A chose " ++ choice_a ++ ", number was " ++ Fmt.str number
       ++ " (" ++ parity ++ ")")
  else if b_correct && negb a_correct then
    (Some "PLAYER_B", parity,
     "Player B chose " ++ choice_b ++ ", number was " ++ Fmt.str number
       ++ " (" ++ parity ++ ")")
  else
    (None, parity,
     "Draw - both chose " ++ (if a_correct then "correctly" else "incorrectly")
       ++ ", number was " ++ Fmt.str number ++ " (" ++ parity ++ ")").

Definition winner_of (r : option string * string * string) : option string :=
  fst (fst r).

Definition validate_parity_choice (choice : string) : bool :=
  String.eqb (lower choice) "even" || String.eqb (lower choice) "odd".

(** The dict literal [{player_a_id: x, player_b_id: y}]. *)
Definition score_dict (a b : string) (x y : Z) : Dict.t Z :=
  Dict.set (Dict.set [] a x) b y.

Definition calculate_score (winner : option string) (a b : string) : Dict.t Z :=
  match winner with
  | None => score_dict a b 1 1
  | Some w =>
      if String.eqb w "PLAYER_A" then score_dict a b 3 0
      else score_dict a b 0 3
  end.

End GameLogic.

(* ------------------------------------------------------------------ *)
(** ** Transport client ([SHARED/league_sdk/http_client.py]) *)

Module HttpClient.

Record RetryConfig : Type := mkRetry {
  max_retries : Z;
  base_delay : Q;
  backoff_multiplier : Q;
  retryable_codes : list string
}.

Definition default_config : RetryConfig :=
  mkRetry 3 (2 # 1) (2 # 1) ["E001"; "E009"].

Record MCPClient : Type := mkClient {
  retry_config : RetryConfig;
  _request_id : Z
}.

(** [MCPClient()] *)
Definition new_client : MCPClient := mkClient default_config 0.

(** What one [requests.post] + [raise_for_status] + [json()] does.
    The texts are [str(e)] of the exception; a body is whatever JSON
    value the peer sent. [OtherError] stands for every exception the
    loop does not catch (it propagates to the caller). *)
Inductive PostOutcome : Type :=
| Responded (body : json)
| Timeout (e : string)
| ConnectionError (e : string)
| HTTPError (e : string)
| OtherError (e : string).

Inductive Event : Type :=
| Posted (attempt : nat) (endpoint : string) (body : json) (timeout : Z)
| Slept (delay : Q).

Definition _next_request_id (c : MCPClient) : MCPClient * Z :=
  (mkClient (retry_config c) (_request_id c + 1), _request_id c + 1).

(** *** Floats and [time.sleep]

    A finite float is the rational it denotes, and products and powers
    are taken exactly: rounding is left out, except where it decides
    what the code does next. A magnitude of [float_limit] or more
    is no finite float; one of [float_tiny] or less is zero. *)
Definition float_limit : Q := inject_Z (2 ^ 1024 - 2 ^ 970).

Definition float_tiny : Q := 1 # (2 ^ 1075).

Definition overflows (x : Q) : bool :=
  Qle_bool float_limit x || Qle_bool x (- float_limit).

Definition underflow (x : Q) : Q :=
  if Qle_bool (- float_tiny) x && Qle_bool x float_tiny then 0 else x.

(** [x ** n] for a float [x] and an [int] [n >= 0]: [OverflowError]
    when the power is out of range. *)
Definition float_pow (x : Q) (n : nat) : outcome Q :=
  let p := Qpower x (Z.of_nat n) in
  if overflows p then Raised "OverflowError" else Returned (underflow p).

(** [base_delay * backoff_multiplier ** attempt]. The product does
    not raise: out of range it is an infinity, which stands here as
    the product itself and which [sleep] refuses like every delay of
    that size. *)
Definition _calculate_delay (cfg : RetryConfig) (attempt : nat) : outcome Q :=
  match float_pow (backoff_multiplier cfg) attempt with
  | Returned p => Returned (underflow (base_delay cfg * p))
  | Raised e => Raised e
  end.

(** [time.sleep(delay)]: the delay is first converted to nanoseconds,
    which have to fit into 64 bits ([OverflowError]), and is then
    refused when it is negative ([ValueError]). *)
Definition sleep (delay : Q) : outcome unit :=
  let ns := (delay * inject_Z (10 ^ 9))%Q in
  if negb (Qle_bool (inject_Z (- 2 ^ 63)) ns) || Qle_bool (inject_Z (2 ^ 63)) ns
  then Raised "OverflowError"
  else if negb (Qle_bool 0 delay) then Raised "ValueError"
  else Returned tt.

(** [delay = self._calculate_delay(attempt); time.sleep(delay)]: the
    time slept. *)
Definition pause (cfg : RetryConfig) (attempt : nat) : outcome Q :=
  match _calculate_delay cfg attempt with
  | Returned delay =>
      match sleep delay with
      | Returned _ => Returned delay
      | Raised e => Raised e
      end
  | Raised e => Raised e
  end.


(** [MCPRequest(...).model_dump()] *)
Definition model_dump (method : string) (params : json) (id : Z) : json :=
  JObj [("jsonrpc", JStr "2.0"); ("method", JStr method);
        ("params", params); ("id", JInt id)].

Definition http_error (e : string) (id : Z) : json :=
  JObj [("jsonrpc", JStr "2.0");
        ("error", JObj [("code", JInt (-32000));
                        ("message", JStr ("HTTP error: " ++ e))]);
        ("id", JInt id)].

Definition transport_error (message code description : string) (id : Z) : json :=
  JObj [("jsonrpc", JStr "2.0");
        ("error", JObj [("code", JInt (-32001));
                        ("message", JStr message);
                        ("data", JObj [("error_code", JStr code);
                                       ("error_description", JStr description)])]);
        ("id", JInt id)].

(** [str(last_error)] *)
Definition str_last_error (last_error : option string) : string :=
  match last_error with Some e => e | None => "None" end.

Definition retries_exhausted (last_error : option string) (id : Z) : json :=
  transport_error ("Max retries exceeded: " ++ str_last_error last_error)
                  "E009" "CONNECTION_ERROR" id.

(** [if attempt < max_retries - 1: delay = ...; time.sleep(delay)],
    inside the [except] block: an exception of [_calculate_delay] or
    [time.sleep] leaves [call]. *)
Definition backoff (cfg : RetryConfig) (attempt : nat) : outcome (list Event) :=
  if Z.of_nat attempt <? max_retries cfg - 1
  then match pause cfg attempt with
       | Returned delay => Returned [Slept delay]
       | Raised e => Raised e
       end
  else Returned [].

(** The [for attempt in range(max_retries)] loop over the remaining
    attempt numbers; [net attempt] is what that attempt's POST does. *)
Fixpoint call_loop (cfg : RetryConfig) (net : nat -> PostOutcome)
         (endpoint : string) (body : json) (timeout id : Z)
         (attempts : list nat) (last_error : option string)
  : list Event * outcome json :=
  match attempts with
  | [] => ([], Returned (retries_exhausted last_error id))
  | attempt :: rest =>
      let posted := Posted attempt endpoint body timeout in
      match net attempt with
      | Responded r => ([posted], Returned r)
      | Timeout e =>
          match backoff cfg attempt with
          | Returned slept =>
              let '(evs, r) :=
                call_loop cfg net endpoint body timeout id rest (Some e) in
              (posted :: slept ++ evs, r)
          | Raised x => ([posted], Raised x)
          end
      | ConnectionError e =>
          match backoff cfg attempt with
          | Returned slept =>
              let '(evs, r) :=
                call_loop cfg net endpoint body timeout id rest (Some e) in
              (posted :: slept ++ evs, r)
          | Raised x => ([posted], Raised x)
          end
      | HTTPError e => ([posted], Returned (http_error e id))
      | OtherError e => ([posted], Raised e)
      end
  end.

(** [range(n)] *)
Definition range (n : Z) : list nat := seq 0 (Z.to_nat n).

Definition call (c : MCPClient) (net : nat -> PostOutcome)
           (endpoint method : string) (params : json) (timeout : Z)
  : MCPClient * list Event * outcome json :=
  let '(c', id) := _next_request_id c in
  let '(evs, r) :=
    call_loop (retry_config c) net endpoint (model_dump method params id)
              timeout id (range (max_retries (retry_config c))) None in
  (c', evs, r).

Definition call_no_retry (c : MCPClient) (net : nat -> PostOutcome)
           (endpoint method : string) (params : json) (timeout : Z)
  : MCPClient * list Event * outcome json :=
  let '(c', id) := _next_request_id c in
  let posted := Posted 0 endpoint (model_dump method params id) timeout in
  (c', [posted],
   match net 0%nat with
   | Responded r => Returned r
   | Timeout _ =>
       Returned (transport_error "Request timeout" "E001" "TIMEOUT_ERROR" id)
   | ConnectionError e =>
       Returned (transport_error ("Connection error: " ++ e)
                                 "E009" "CONNECTION_ERROR" id)
   | HTTPError e => Returned (http_error e id)
   | OtherError e => Raised e
   end).

(** The client after a call: only the request counter moves. *)
Definition next_client (c : MCPClient) : MCPClient := fst (_next_request_id c).

(** What [call] hands back; it depends on the client and on what the
    attempts do, not on the request sent. *)
Definition call_result (c : MCPClient) (net : nat -> PostOutcome) : outcome json :=
  snd (call c net "" "" JNull 0).


(** *** Observations on a run *)

Definition attempts_made (evs : list Event) : list nat :=
  flat_map (fun e => match e with Posted k _ _ _ => [k] | Slept _ => [] end) evs.

Definition sleeps (evs : list Event) : list Q :=
  flat_map (fun e => match e with Slept d => [d] | Posted _ _ _ _ => [] end) evs.

(** [response["error"]["data"]["error_code"]] *)
Definition error_code (r : json) : json :=
  Json.get (Json.get (Json.get r "error") "data") "error_code".

Definition error_description (r : json) : json :=
  Json.get (Json.get (Json.get r "error") "data") "error_description".

Definition retryable (o : PostOutcome) : bool :=
  match o with
  | Timeout _ | ConnectionError _ => true
  | _ => false
  end.

(** What the client hands back when the attempt that went [o] is its
    last one: the answer itself, the error built for an HTTP error
    status, the exception that is not caught, or, for a failure that
    would have been retried, the error built after the loop. *)
Definition final_answer (o : PostOutcome) (id : Z) : outcome json :=
  match o with
  | Responded r => Returned r
  | Timeout e | ConnectionError e =>
      Returned
        (JObj [("jsonrpc", JStr "2.0");
               ("error",
                JObj [("code", JInt (-32001));
                      ("message", JStr ("Max retries exceeded: " ++ e));
                      ("data", JObj [("error_code", JStr "E009");
                                     ("error_description",
                                      JStr "CONNECTION_ERROR")])]);
               ("id", JInt id)])
  | HTTPError e =>
      Returned
        (JObj [("jsonrpc", JStr "2.0");
               ("error", JObj [("code", JInt (-32000));
                               ("message", JStr ("HTTP error: " ++ e))]);
               ("id", JInt id)])
  | OtherError e => Raised e
  end.

(** Every POST among [evs] went to [endpoint] with exactly [body] and
    [timeout]. *)
Definition posts_carry (endpoint : string) (body : json) (timeout : Z)
           (evs : list Event) : Prop :=
  Forall (fun e => match e with
                   | Posted _ ep b t => ep = endpoint /\ b = body /\ t = timeout
                   | Slept _ => True
                   end) evs.

(** What is to hold of a run of the retry loop over the attempts
    [s, s+1, ..., s+n-1] that produced the events [evs] and result [r]. *)
Section LoopFacts.
Variables (cfg : RetryConfig) (net : nat -> PostOutcome).
Variables (ep : string) (body : json) (t id : Z).

Record loop_facts (s n : nat) (evs : list Event) (r : outcome json) : Prop := {
  made_range : forall k, In k (attempts_made evs) -> (s <= k < s + n)%nat;
  http_terminal : forall k e,
      In k (attempts_made evs) -> net k = HTTPError e ->
      r = Returned (http_error e id)
      /\ (forall j, In j (attempts_made evs) -> (j <= k)%nat)
      /\ exists pre, evs = (pre ++ [Posted k ep body t])%list;
  retry_cause : forall k,
      In (S k) (attempts_made evs) ->
      S k = s \/ (In k (attempts_made evs) /\ retryable (net k) = true);
  retry_happens : forall k,
      In k (attempts_made evs) -> retryable (net k) = true ->
      (S k < s + n)%nat ->
      match backoff cfg k with
      | Returned _ => In (S k) (attempts_made evs)
      | Raised x =>
          r = Raised x
          /\ (forall j, In j (attempts_made evs) -> (j <= k)%nat)
          /\ exists pre, evs = (pre ++ [Posted k ep body t])%list
      end
}.

End LoopFacts.

(** The events of a run that went through the attempts [s], [s+1],
    ... and slept for [delays] in between: one POST per attempt, one
    sleep between two consecutive attempts, a POST at the end. *)
Fixpoint trace_from (ep : string) (body : json) (t : Z) (s : nat)
         (delays : list Q) : list Event :=
  match delays with
  | [] => [Posted s ep body t]
  | d :: rest => Posted s ep body t :: Slept d :: trace_from ep body t (S s) rest
  end.

(** What a run of the loop over the attempts [s, ..., s+n-1], the
    last [n > 0] of the [max_retries] attempts, looks like: it slept
    for [delays], so its last attempt is number [s + len(delays)]. *)
Record loop_shape (cfg : RetryConfig) (net : nat -> PostOutcome)
       (ep : string) (body : json) (t id : Z)
       (s n : nat) (evs : list Event) (r : outcome json) (delays : list Q)
  : Prop := {
  shape_trace : evs = trace_from ep body t s delays;
  shape_bound : (List.length delays < n)%nat;
  shape_retried : forall j d,
      nth_error delays j = Some d ->
      retryable (net (s + j)%nat) = true /\ pause cfg (s + j) = Returned d;
  shape_end :
      let k := (s + List.length delays)%nat in
      (r = final_answer (net k) id
       /\ (retryable (net k) = false \/ S (List.length delays) = n))
      \/ (retryable (net k) = true /\ (S (List.length delays) < n)%nat
          /\ exists x, pause cfg k = Raised x /\ r = Raised x)
}.

End HttpClient.

(* ------------------------------------------------------------------ *)
(** ** League Manager handlers ([agents/league_manager/handlers.py]) *)

Module LeagueHandlers.

(** The three readings of [utc_timestamp()] a report can trigger. *)
Record Stamps : Type := mkStamps {
  at_standings : string;
  at_match : string;
  at_ack : string
}.

(** The mutation of the matched schedule entry. *)
Definition complete (m : Match) (result : json) : Match :=
  mkMatch (match_id m) (round_id m) (player_a_id m) (player_b_id m)
          "COMPLETED" (Json.get result "winner") result.

(** [for match in schedule: if match.match_id == match_id: ...; break]:
    the schedule with its first matching entry completed, and that entry. *)
Fixpoint find_and_complete (sch : list Match) (mid result : json)
  : option (list Match * Match) :=
  match sch with
  | [] => None
  | m :: rest =>
      if Json.eq_str mid (match_id m) then Some (complete m result :: rest, m)
      else match find_and_complete rest mid result with
           | Some (rest', hit) => Some (m :: rest', hit)
           | None => None
           end
  end.

Definition conversation_of (params : Dict.t json) : json :=
  match Dict.get params "conversation_id" with Some v => v | None => JStr "" end.

Definition match_result_ack (params : Dict.t json) (mid request_id : json)
           (now : string) : json :=
  JObj [("jsonrpc", JStr "2.0");
        ("result", JObj [("protocol", JStr "league.v2");
                         ("message_type", JStr "MATCH_RESULT_ACK");
                         ("sender", JStr "league_manager");
                         ("timestamp", JStr now);
                         ("conversation_id", conversation_of params);
                         ("match_id", mid);
                         ("status", JStr "RECORDED")]);
        ("id", request_id)].

Definition match_record (mid rid : json) (m : Match) (result : json)
           (now : string) : json :=
  JObj [("match_id", mid); ("round_id", rid);
        ("player_a_id", JStr (player_a_id m));
        ("player_b_id", JStr (player_b_id m));
        ("result", result); ("timestamp", JStr now)].

(** [result.get] needs a dict; anything else raises [AttributeError]
    while the log line is being built, before any state is touched. *)
Definition handle_report_match_result (s : LeagueState) (params : Dict.t json)
           (request_id : json) (ts : Stamps) : LeagueState * outcome json :=
  let mid := Json.get (JObj params) "match_id" in
  let result := Json.get_or_empty (JObj params) "result" in
  let rid := Json.get (JObj params) "round_id" in
  if negb (Json.is_obj result) then (s, Raised "AttributeError")
  else
    let s' :=
      match find_and_complete (schedule s) mid result with
      | Some (sch', m) =>
          let s1 := League.with_schedule s sch' in
          let s2 := League.update_standings_for_match
                      s1 (player_a_id m) (player_b_id m)
                      (Json.get result "winner") (at_standings ts) in
          League.save_match_result s2 (match_id m)
                                   (match_record mid rid m result (at_match ts))
      | None => s
      end in
    (s', Returned (match_result_ack params mid request_id (at_ack ts))).

(** [create_schedule]: the state after the assignment. *)
Definition create_schedule (s : LeagueState) : LeagueState :=
  League.with_schedule
    s (Scheduler.create_round_robin_schedule (Dict.keys (players s))).

End LeagueHandlers.

(* ------------------------------------------------------------------ *)
(** ** Referee ([agents/referee/state.py], [handlers.py]) *)

Module Referee.

Inductive MatchState : Type :=
| WAITING_FOR_PLAYERS | COLLECTING_CHOICES | FINISHED | ERROR.

Record ActiveMatch : Type := mkActive {
  match_id : string;
  round_id : Z;
  player_a_id : string;
  player_b_id : string;
  player_a_endpoint : string;
  player_b_endpoint : string;
  state : MatchState;
  player_a_joined : bool;
  player_b_joined : bool;
  player_a_choice : json;
  player_b_choice : json;
  drawn_number : option Z;
  winner : option string;
  conversation_id : string
}.

Record RefereeState : Type := mkReferee {
  referee_id : option string;
  auth_token : option string;
  league_id : option string;
  league_endpoint : string;
  display_name : string;
  version : string;
  game_types : list string;
  max_concurrent_matches : Z;
  active_matches : Dict.t ActiveMatch
}.

Definition with_active (s : RefereeState) (am : Dict.t ActiveMatch) : RefereeState :=
  mkReferee (referee_id s) (auth_token s) (league_id s) (league_endpoint s)
            (display_name s) (version s) (game_types s)
            (max_concurrent_matches s) am.

(** *** [RefereeState] methods *)

Definition create_match (s : RefereeState) (mid : string) (rid : Z)
           (a b ea eb conv : string) : RefereeState * ActiveMatch :=
  let m := mkActive mid rid a b ea eb WAITING_FOR_PLAYERS false false
                    JNull JNull None None conv in
  (with_active s (Dict.set (active_matches s) mid m), m).

Definition get_match (s : RefereeState) (mid : string) : option ActiveMatch :=
  Dict.get (active_matches s) mid.

Definition complete_match (s : RefereeState) (mid : string) : RefereeState :=
  if Dict.mem (active_matches s) mid
  then with_active s (Dict.remove (active_matches s) mid) else s.

Definition set_joined_a (m : ActiveMatch) : ActiveMatch :=
  mkActive (match_id m) (round_id m) (player_a_id m) (player_b_id m)
           (player_a_endpoint m) (player_b_endpoint m) (state m)
           true (player_b_joined m) (player_a_choice m) (player_b_choice m)
           (drawn_number m) (winner m) (conversation_id m).
Definition set_joined_b (m : ActiveMatch) : ActiveMatch :=
  mkActive (match_id m) (round_id m) (player_a_id m) (player_b_id m)
           (player_a_endpoint m) (player_b_endpoint m) (state m)
           (player_a_joined m) true (player_a_choice m) (player_b_choice m)
           (drawn_number m) (winner m) (conversation_id m).
Definition set_state (st : MatchState) (m : ActiveMatch) : ActiveMatch :=
  mkActive (match_id m) (round_id m) (player_a_id m) (player_b_id m)
           (player_a_endpoint m) (player_b_endpoint m) st
           (player_a_joined m) (player_b_joined m)
           (player_a_choice m) (player_b_choice m)
           (drawn_number m) (winner m) (conversation_id m).
Definition set_choice_a (c : json) (m : ActiveMatch) : ActiveMatch :=
  mkActive (match_id m) (round_id m) (player_a_id m) (player_b_id m)
           (player_a_endpoint m) (player_b_endpoint m) (state m)
           (player_a_joined m) (player_b_joined m) c (player_b_choice m)
           (drawn_number m) (winner m) (conversation_id m).
Definition set_choice_b (c : json) (m : ActiveMatch) : ActiveMatch :=
  mkActive (match_id m) (round_id m) (player_a_id m) (player_b_id m)
           (player_a_endpoint m) (player_b_endpoint m) (state m)
           (player_a_joined m) (player_b_joined m) (player_a_choice m) c
           (drawn_number m) (winner m) (conversation_id m).
Definition set_outcome (n : option Z) (w : option string) (m : ActiveMatch)
  : ActiveMatch :=
  mkActive (match_id m) (round_id m) (player_a_id m) (player_b_id m)
           (player_a_endpoint m) (player_b_endpoint m) (state m)
           (player_a_joined m) (player_b_joined m)
           (player_a_choice m) (player_b_choice m)
           n w (conversation_id m).

(** Field writes through a reference to the object stored under [mid]. *)
Definition store (s : RefereeState) (mid : string) (m : ActiveMatch) : RefereeState :=
  with_active s (Dict.set (active_matches s) mid m).

Definition player_joined (s : RefereeState) (mid pid : string)
  : RefereeState * bool :=
  match get_match s mid with
  | None => (s, false)
  | Some m =>
      if String.eqb pid (player_a_id m) then
        let m1 := set_joined_a m in
        let m2 := if player_a_joined m1 && player_b_joined m1
                  then set_state COLLECTING_CHOICES m1 else m1 in
        (store s mid m2, true)
      else if String.eqb pid (player_b_id m) then
        let m1 := set_joined_b m in
        let m2 := if player_a_joined m1 && player_b_joined m1
                  then set_state COLLECTING_CHOICES m1 else m1 in
        (store s mid m2, true)
      else (s, false)
  end.

Definition record_choice (s : RefereeState) (mid pid : string) (choice : json)
  : RefereeState * bool :=
  match get_match s mid with
  | None => (s, false)
  | Some m =>
      if String.eqb pid (player_a_id m) then (store s mid (set_choice_a choice m), true)
      else if String.eqb pid (player_b_id m) then (store s mid (set_choice_b choice m), true)
      else (s, false)
  end.

(** [RefereeState()] with the defaults of the dataclass. *)
Definition init : RefereeState :=
  mkReferee None None None "http://localhost:8000/mcp" "Referee" "1.0.0"
            ["even_odd"] 2 [].

Definition is_registered (s : RefereeState) : bool :=
  match referee_id s, auth_token s with
  | Some _, Some _ => true
  | _, _ => false
  end.

Definition both_choices_received (s : RefereeState) (mid : string) : bool :=
  match get_match s mid with
  | None => false
  | Some m =>
      negb (Json.is_none (player_a_choice m))
      && negb (Json.is_none (player_b_choice m))
  end.

(** *** Sequences of calls on the match table *)

Inductive Op : Type :=
| CreateMatch (mid : string) (rid : Z) (a b ea eb conv : string)
| PlayerJoined (mid pid : string)
| RecordChoice (mid pid : string) (choice : json)
| CompleteMatch (mid : string).

Definition step (s : RefereeState) (o : Op) : RefereeState :=
  match o with
  | CreateMatch mid rid a b ea eb conv => fst (create_match s mid rid a b ea eb conv)
  | PlayerJoined mid pid => fst (player_joined s mid pid)
  | RecordChoice mid pid choice => fst (record_choice s mid pid choice)
  | CompleteMatch mid => complete_match s mid
  end.

Definition run (s : RefereeState) (ops : list Op) : RefereeState :=
  fold_left step ops s.

End Referee.

Module RefereeHandlers.
Import Referee.

(** An outbound [client.call] ([retrying = true]) or
    [client.call_no_retry] ([retrying = false]). *)
Record Sent : Type := mkSent {
  retrying : bool;
  to_endpoint : string;
  rpc_method : string;
  rpc_params : json;
  rpc_timeout : Z
}.

(** Everything the handlers read from outside: what each attempt of the
    n-th transport call does, the n-th clock reading, the uuid fragment
    and the drawn number. *)
Record Env : Type := mkEnv {
  network : nat -> nat -> HttpClient.PostOutcome;
  clock : nat -> string;
  uuid8 : string;
  random_draw : Z
}.

Record World : Type := mkWorld {
  rstate : RefereeState;
  client : HttpClient.MCPClient;
  sent : list Sent;
  wire : list HttpClient.Event;
  logged : list (string * string);
  n_calls : nat;
  n_ticks : nat
}.

(** State-and-exception monad of the handler methods. *)
Definition M (A : Type) : Type := World -> World * outcome A.

Definition ret {A : Type} (a : A) : M A := fun w => (w, Returned a).

Definition raise {A : Type} (exn : string) : M A := fun w => (w, Raised exn).

Definition bind {A B : Type} (m : M A) (k : A -> M B) : M B :=
  fun w => match m w with
           | (w', Returned a) => k a w'
           | (w', Raised e) => (w', Raised e)
           end.

Notation "x <- m ;; k" := (bind m (fun x => k))
  (at level 61, m at next level, right associativity).
Notation "m ;;; k" := (bind m (fun _ => k))
  (at level 61, right associativity).

Definition get_state : M RefereeState := fun w => (w, Returned (rstate w)).

Definition put_state (s : RefereeState) : M unit :=
  fun w => (mkWorld s (client w) (sent w) (wire w) (logged w)
                    (n_calls w) (n_ticks w), Returned tt).

(** A logger call: level and event name are kept, details are not. *)
Definition log (level event : string) : M unit :=
  fun w => (mkWorld (rstate w) (client w) (sent w) (wire w)
                    (logged w ++ [(level, event)])
                    (n_calls w) (n_ticks w), Returned tt).

Section Handlers.
Variable env : Env.

Definition utc_timestamp : M string :=
  fun w => (mkWorld (rstate w) (client w) (sent w) (wire w) (logged w)
                    (n_calls w) (S (n_ticks w)),
            Returned (clock env (n_ticks w))).

(** [self.client.call(...)] / [self.client.call_no_retry(...)] *)
Definition client_call (retry : bool) (endpoint method : string)
           (params : json) (timeout : Z) : M json :=
  fun w =>
    let '(c', evs, r) :=
      (if retry then HttpClient.call else HttpClient.call_no_retry)
        (client w) (network env (n_calls w)) endpoint method params timeout in
    (mkWorld (rstate w) c'
             (sent w ++ [mkSent retry endpoint method params timeout])
             (wire w ++ evs) (logged w) (S (n_calls w)) (n_ticks w),
     r).

(** [obj.get(k)] on a value that must be a dict. *)
Definition dict_get (j : json) (k : string) : M json :=
  match j with
  | JObj _ => ret (Json.get j k)
  | _ => raise "AttributeError"
  end.

(** [sub in s] on strings. *)
Definition str_contains (s sub : string) : bool :=
  match String.index 0 sub s with Some _ => true | None => false end.

(** ["error" in response], on whatever the transport client handed
    back: a key of a dict, an element of a list, a part of a string;
    [None], a bool or a number cannot be searched. *)
Definition error_in (response : json) : M bool :=
  match response with
  | JObj d => ret (Dict.mem d "error")
  | JList l => ret (existsb (fun v => Json.eq_str v "error") l)
  | JStr s => ret (str_contains s "error")
  | _ => raise "TypeError"
  end.

(** [response["error"]], read where ["error" in response] held: a
    list or a string has no such index. *)
Definition error_of (response : json) : M json :=
  match response with
  | JObj _ => ret (Json.get response "error")
  | _ => raise "TypeError"
  end.

(** [response.get("result", {})] *)
Definition result_of (response : json) : M json :=
  match response with
  | JObj _ => ret (Json.get_or_empty response "result")
  | _ => raise "AttributeError"
  end.

Definition str_opt (o : option string) : string :=
  match o with Some s => s | None => "None" end.

Definition sender_field (s : RefereeState) : json :=
  JStr ("referee:" ++ str_opt (referee_id s)).

Definition _send_game_invitation (endpoint mid : string) (rid : Z)
           (pid opponent role conv : string) : M json :=
  s <- get_state ;;
  now <- utc_timestamp ;;
  let params := JObj [("protocol", JStr "league.v2");
                      ("message_type", JStr "GAME_INVITATION");
                      ("sender", sender_field s);
                      ("timestamp", JStr now);
                      ("conversation_id", JStr conv);
                      ("auth_token", Json.of_opt_str (auth_token s));
                      ("league_id", Json.of_opt_str (league_id s));
                      ("round_id", JInt rid);
                      ("match_id", JStr mid);
                      ("game_type", JStr "even_odd");
                      ("role_in_match", JStr role);
                      ("opponent_id", JStr opponent)] in
  log "SENT" "GAME_INVITATION" ;;;
  client_call true endpoint "handle_game_invitation" params 5.

Definition _check_join_ack (response : json) (pid mid : string) : M bool :=
  failed <- error_in response ;;
  if failed then
    error_of response ;;;
    log "WARNING" "JOIN_FAILED" ;;; ret false
  else
    result <- result_of response ;;
    accept <- dict_get result "accept" ;;
    if Json.truthy accept && Json.eq_str (Json.get result "match_id") mid then
      s <- get_state ;;
      put_state (fst (player_joined s mid pid)) ;;;
      ret true
    else ret false.

Definition _request_parity_choice (endpoint mid pid opponent : string)
           (rid : Z) (conv : string) : M json :=
  s <- get_state ;;
  now <- utc_timestamp ;;
  deadline <- utc_timestamp ;;
  let params := JObj [("protocol", JStr "league.v2");
                      ("message_type", JStr "CHOOSE_PARITY_CALL");
                      ("sender", sender_field s);
                      ("timestamp", JStr now);
                      ("conversation_id", JStr conv);
                      ("auth_token", Json.of_opt_str (auth_token s));
                      ("match_id", JStr mid);
                      ("player_id", JStr pid);
                      ("game_type", JStr "even_odd");
                      ("context",
                       JObj [("opponent_id", JStr opponent);
                             ("round_id", JInt rid);
                             ("your_standings",
                              JObj [("wins", JInt 0); ("losses", JInt 0);
                                    ("draws", JInt 0)])]);
                      ("deadline", JStr deadline)] in
  log "SENT" "CHOOSE_PARITY_CALL" ;;;
  response <- client_call true endpoint "choose_parity" params 30 ;;
  failed <- error_in response ;;
  if failed then
    error_of response ;;;
    log "WARNING" "CHOICE_FAILED" ;;; ret JNull
  else
    result <- result_of response ;;
    choice <- dict_get result "parity_choice" ;;
    (if Json.truthy choice then
       s' <- get_state ;;
       put_state (fst (record_choice s' mid pid choice))
     else ret tt) ;;;
    ret choice.

Definition _send_game_over (endpoint mid : string) (game_result : json)
           (conv : string) : M unit :=
  s <- get_state ;;
  now <- utc_timestamp ;;
  let params := JObj [("protocol", JStr "league.v2");
                      ("message_type", JStr "GAME_OVER");
                      ("sender", sender_field s);
                      ("timestamp", JStr now);
                      ("conversation_id", JStr conv);
                      ("auth_token", Json.of_opt_str (auth_token s));
                      ("match_id", JStr mid);
                      ("game_type", JStr "even_odd");
                      ("game_result", game_result)] in
  log "SENT" "GAME_OVER" ;;;
  client_call false endpoint "notify_match_result" params 5 ;;;
  ret tt.

Definition scores_json (scores : Dict.t Z) : json :=
  JObj (map (fun kv => (fst kv, JInt (snd kv))) scores).

Definition _report_match_result (mid : string) (rid : Z) (winner_id : option string)
           (scores : Dict.t Z) (game_result : json) : M unit :=
  s <- get_state ;;
  now <- utc_timestamp ;;
  let params := JObj [("protocol", JStr "league.v2");
                      ("message_type", JStr "MATCH_RESULT_REPORT");
                      ("sender", sender_field s);
                      ("timestamp", JStr now);
                      ("conversation_id", JStr ("conv-" ++ mid ++ "-report"));
                      ("auth_token", Json.of_opt_str (auth_token s));
                      ("league_id", Json.of_opt_str (league_id s));
                      ("round_id", JInt rid);
                      ("match_id", JStr mid);
                      ("game_type", JStr "even_odd");
                      ("result",
                       JObj [("winner", Json.of_opt_str winner_id);
                             ("score", scores_json scores);
                             ("details",
                              JObj [("drawn_number",
                                     Json.get game_result "drawn_number");
                                    ("choices",
                                     Json.get game_result "choices")])])] in
  log "SENT" "MATCH_RESULT_REPORT" ;;;
  s' <- get_state ;;
  client_call true (league_endpoint s') "report_match_result" params 10 ;;;
  ret tt.

(** Writes through the local [match] reference: the object is the one
    stored under its [match_id] when it is still there. *)
Definition write_match (m : ActiveMatch) (f : ActiveMatch -> ActiveMatch) : M unit :=
  s <- get_state ;;
  match get_match s (match_id m) with
  | Some cur => put_state (store s (match_id m) (f cur))
  | None => ret tt
  end.

Definition game_result_json (status : string) (winner_id : option string)
           (number : Z) (parity : string) (choices : json) (reason : string)
  : json :=
  JObj [("status", JStr status);
        ("winner_player_id", Json.of_opt_str winner_id);
        ("drawn_number", JInt number);
        ("number_parity", JStr parity);
        ("choices", choices);
        ("reason", JStr reason)].

Definition match_outcome (mid : string) (winner_id : option string)
           (game_result : json) : json :=
  JObj [("match_id", JStr mid);
        ("winner", Json.of_opt_str winner_id);
        ("result", game_result)].

Definition _handle_technical_loss (m : ActiveMatch) (winner_id reason : string)
  : M json :=
  log "WARNING" "TECHNICAL_LOSS" ;;;
  write_match m (fun x => set_state FINISHED
                            (set_outcome (drawn_number x) (Some winner_id) x)) ;;;
  let game_result :=
    game_result_json "TECHNICAL_LOSS" (Some winner_id) 0 "N/A" (JObj []) reason in
  let scores :=
    Dict.set (GameLogic.score_dict (player_a_id m) (player_b_id m) 0 0)
             winner_id 3 in
  _report_match_result (match_id m) (round_id m) (Some winner_id)
                       scores game_result ;;;
  s <- get_state ;;
  put_state (complete_match s (match_id m)) ;;;
  ret (match_outcome (match_id m) (Some winner_id) game_result).

(** [not choice or not validate_parity_choice(choice)] *)
Definition choice_rejected (choice : json) : M bool :=
  if negb (Json.truthy choice) then ret true
  else match choice with
       | JStr c => ret (negb (GameLogic.validate_parity_choice c))
       | _ => raise "AttributeError"
       end.

Definition choice_text (choice : json) : string :=
  match choice with JStr c => c | _ => "" end.

(** [run_match]. The coroutine never awaits, so one call runs to its
    end before anything else touches the referee's state. *)
Definition run_match (mid : string) (rid : Z) (a b ea eb : string) : M json :=
  let conv := "conv-" ++ mid ++ "-" ++ uuid8 env in
  s0 <- get_state ;;
  let '(s1, m) := create_match s0 mid rid a b ea eb conv in
  put_state s1 ;;;
  log "INFO" "MATCH_START" ;;;
  invite_a <- _send_game_invitation ea mid rid a b "PLAYER_A" conv ;;
  invite_b <- _send_game_invitation eb mid rid b a "PLAYER_B" conv ;;
  joined_a <- _check_join_ack invite_a a mid ;;
  if negb joined_a then _handle_technical_loss m b "Player A failed to join"
  else
  joined_b <- _check_join_ack invite_b b mid ;;
  if negb joined_b then _handle_technical_loss m a "Player B failed to join"
  else
  choice_a <- _request_parity_choice ea mid a b rid conv ;;
  choice_b <- _request_parity_choice eb mid b a rid conv ;;
  bad_a <- choice_rejected choice_a ;;
  if bad_a then _handle_technical_loss m b "Player A invalid choice"
  else
  bad_b <- choice_rejected choice_b ;;
  if bad_b then _handle_technical_loss m a "Player B invalid choice"
  else
  let number := random_draw env in
  let '(winner_role, parity, reason) :=
    GameLogic.determine_winner (choice_text choice_a) (choice_text choice_b) number in
  let '(winner_id, status) :=
    match winner_role with
    | Some r => if String.eqb r "PLAYER_A" then (Some a, "WIN")
                else if String.eqb r "PLAYER_B" then (Some b, "WIN")
                else (None, "DRAW")
    | None => (None, "DRAW")
    end in
  write_match m (fun x => set_state FINISHED (set_outcome (Some number) winner_id x)) ;;;
  log "INFO" "MATCH_RESULT" ;;;
  let game_result :=
    game_result_json status winner_id number parity
      (JObj (Dict.set (Dict.set [] a choice_a) b choice_b)) reason in
  _send_game_over ea mid game_result conv ;;;
  _send_game_over eb mid game_result conv ;;;
  let scores := GameLogic.calculate_score winner_role a b in
  _report_match_result mid rid winner_id scores game_result ;;;
  s <- get_state ;;
  put_state (complete_match s mid) ;;;
  ret (match_outcome mid winner_id game_result).

End Handlers.

(** *** Observations *)

Definition methods_sent (w : World) : list (string * string) :=
  map (fun c => (to_endpoint c, rpc_method c)) (sent w).


(** [RefereeHandlers.__init__]: a new [MCPClient()], nothing sent yet. *)
Definition fresh_world (s : RefereeState) : World :=
  mkWorld s HttpClient.new_client [] [] [] 0 0.





(** The ways an invitation fails to be acknowledged. What came back is
    a JSON object, and: it has an [error] member, as the error objects
    of the transport client have; or its [result] (an object, or
    absent) has no [accept] or a false one; or the [match_id] of the
    [result] is not this match. (Anything else that is not an
    acceptance makes [_check_join_ack] raise, see [read_error].) *)
Definition join_failed (response : json) (mid : string) : bool :=
  Json.is_obj response
  && (Json.has response "error"
      || (let result := Json.get_or_empty response "result" in
          Json.is_obj result
          && negb (Json.truthy (Json.get result "accept")
                   && Json.eq_str (Json.get result "match_id") mid))).

Definition join_accepted (response : json) (mid : string) : bool :=
  let result := Json.get_or_empty response "result" in
  negb (Json.has response "error")
  && Json.is_obj result
  && Json.truthy (Json.get result "accept")
  && Json.eq_str (Json.get result "match_id") mid.




(** The answer to a parity call carries the choice [c]. *)
Definition chose (response : json) (c : string) : bool :=
  negb (Json.has response "error")
  && Json.eq_str (Json.get (Json.get_or_empty response "result") "parity_choice") c.

(** The answer to a parity call can be read (see [readable]) and
    gives no valid choice: an error, no choice or an empty one, or a
    string other than even / odd. *)
Definition no_valid_choice (response : json) : bool :=
  Json.is_obj response
  && (Json.has response "error"
      || (let result := Json.get_or_empty response "result" in
          Json.is_obj result
          && match Json.get result "parity_choice" with
             | JStr c => negb (GameLogic.validate_parity_choice c)
             | other => negb (Json.truthy other)
             end)).

(** The answer can be read: it is a JSON object, with an [error]
    member or with a [result] that is an object (or absent). *)
Definition readable (response : json) : bool :=
  Json.is_obj response
  && (Json.has response "error" || Json.is_obj (Json.get_or_empty response "result")).

(** The exception the referee runs into on an answer that is not
    [readable]. [TypeError]: ["error" in response] on [None], a bool or
    a number, or [response["error"]] on a list or string that holds
    ["error"]. [AttributeError]: [.get] on a list, on a string, or on
    the [result] of an object when that is no object. *)
Definition read_error (response : json) : string :=
  match response with
  | JObj _ => "AttributeError"
  | JList l =>
      if existsb (fun v => Json.eq_str v "error") l
      then "TypeError" else "AttributeError"
  | JStr s => if str_contains s "error" then "TypeError" else "AttributeError"
  | _ => "TypeError"
  end.

(** [s'] differs from [s] at most in what its active matches hold: the
    referee's identity and endpoints are the same, and the same match
    ids are active. *)
Definition same_referee (s s' : RefereeState) : Prop :=
  referee_id s' = referee_id s
  /\ auth_token s' = auth_token s
  /\ league_id s' = league_id s
  /\ league_endpoint s' = league_endpoint s
  /\ Dict.keys (active_matches s') = Dict.keys (active_matches s).

(** The kind of an outbound call: retrying or not, where to, which
    method. *)
Definition call_kind (c : Sent) : bool * string * string :=
  (retrying c, to_endpoint c, rpc_method c).

(** [res], the run of [run_match] from [w], was a whole game on the
    choices [ca] and [cb]: seven calls of the transport client (the two
    invitations, the two parity calls, the two game-over notices, which
    alone go through [call_no_retry], and the report); the same game
    result in the outcome handed back and in both notices, with the
    drawn number, its parity and both choices; the winner that
    [determine_winner] names, with status WIN and score 3 against 0, or
    no winner, status DRAW and score 1 each; and the match no longer
    active at the end. *)
Definition played_to_the_end (env : Env) (w : World)
           (res : World * outcome json)
           (mid a b ea eb ca cb : string) : Prop :=
  let number := random_draw env in
  let role := GameLogic.winner_of (GameLogic.determine_winner ca cb number) in
  exists inv_a inv_b ask_a ask_b over_a over_b report out,
    snd res = Returned out
    /\ sent (fst res)
       = (sent w ++ [inv_a; inv_b; ask_a; ask_b; over_a; over_b; report])%list
    /\ map call_kind [inv_a; inv_b; ask_a; ask_b; over_a; over_b; report]
       = [(true, ea, "handle_game_invitation");
          (true, eb, "handle_game_invitation");
          (true, ea, "choose_parity");
          (true, eb, "choose_parity");
          (false, ea, "notify_match_result");
          (false, eb, "notify_match_result");
          (true, Referee.league_endpoint (rstate w), "report_match_result")]
    /\ Json.get out "match_id" = JStr mid
    /\ Json.get (rpc_params report) "match_id" = JStr mid
    /\ Json.get (rpc_params over_a) "game_result" = Json.get out "result"
    /\ Json.get (rpc_params over_b) "game_result" = Json.get out "result"
    /\ Json.get (Json.get out "result") "drawn_number" = JInt number
    /\ Json.get (Json.get out "result") "number_parity"
       = JStr (GameLogic.get_parity number)
    /\ Json.get (Json.get out "result") "choices"
       = JObj [(a, JStr ca); (b, JStr cb)]
    /\ Json.get (Json.get out "result") "winner_player_id" = Json.get out "winner"
    /\ Json.get (Json.get (rpc_params report) "result") "winner"
       = Json.get out "winner"
    /\ (let score p :=
          Json.get (Json.get (Json.get (rpc_params report) "result") "score") p in
        let status := Json.get (Json.get out "result") "status" in
        match role with
        | Some r =>
            status = JStr "WIN"
            /\ if String.eqb r "PLAYER_A"
               then Json.get out "winner" = JStr a
                    /\ score a = JInt 3 /\ score b = JInt 0
               else Json.get out "winner" = JStr b
                    /\ score a = JInt 0 /\ score b = JInt 3
        | None =>
            status = JStr "DRAW" /\ Json.get out "winner" = JNull
            /\ score a = JInt 1 /\ score b = JInt 1
        end)
    /\ Referee.get_match (rstate (fst res)) mid = None.


(** The answer to a parity call carries a choice that is neither
    empty nor text: a number other than 0, [true], a non-empty list or
    object. *)
Definition chose_no_text (response : json) : bool :=
  negb (Json.has response "error")
  && (let choice := Json.get (Json.get_or_empty response "result") "parity_choice" in
      Json.truthy choice
      && match choice with JStr _ => false | _ => true end).

(** [res], the run of [run_match] from [w], broke off with the
    exception [exn] after calls of the kinds [kinds]: nothing else was
    sent, no report in particular, and the match is still active. *)
Definition broke_off (w : World) (res : World * outcome json) (mid : string)
           (exn : string) (kinds : list (bool * string * string)) : Prop :=
  exists calls m,
    snd res = Raised exn
    /\ sent (fst res) = (sent w ++ calls)%list
    /\ map call_kind calls = kinds
    /\ Referee.get_match (rstate (fst res)) mid = Some m.

End RefereeHandlers.

(* ------------------------------------------------------------------ *)
(** ** Player ([agents/player/state.py], [strategy.py], [handlers.py]) *)

Module Player.

Record GameRecord : Type := mkGame {
  match_id : string;
  opponent_id : string;
  my_choice : string;
  opponent_choice : option string;
  drawn_number : Z;
  result : string;
  points_earned : Z
}.

(** [current_match_id] and [current_opponent] hold what the last
    invitation carried, whatever JSON value that was. *)
Record PlayerState : Type := mkPlayerState {
  display_name : string;
  version : string;
  game_types : list string;
  strategy : string;
  player_id : option string;
  auth_token : option string;
  league_id : option string;
  league_endpoint : string;
  port : Z;
  wins : Z;
  losses : Z;
  draws : Z;
  points : Z;
  history : list GameRecord;
  current_match_id : json;
  current_opponent : json
}.

(** [PlayerState(display_name=..., strategy=..., port=...)] *)
Definition new_state (display_name strategy : string) (port : Z) : PlayerState :=
  mkPlayerState display_name "1.0.0" ["even_odd"] strategy None None None
                "http://localhost:8000/mcp" port 0 0 0 0 [] JNull JNull.

Definition is_registered (s : PlayerState) : bool :=
  match player_id s, auth_token s with
  | Some _, Some _ => true
  | _, _ => false
  end.

(** [x == y] on [str | None]. *)
Definition opt_eqb (x y : option string) : bool :=
  match x, y with
  | Some a, Some b => String.eqb a b
  | None, None => true
  | _, _ => false
  end.

Definition record_game (s : PlayerState)
           (match_id opponent_id my_choice : string)
           (opponent_choice : option string) (drawn_number : Z)
           (winner_id : option string) : PlayerState :=
  let '(result, pts, w, l, d) :=
    if opt_eqb winner_id (player_id s)
    then ("WIN", 3, wins s + 1, losses s, draws s)
    else match winner_id with
         | None => ("DRAW", 1, wins s, losses s, draws s + 1)
         | Some _ => ("LOSS", 0, wins s, losses s + 1, draws s)
         end in
  mkPlayerState (display_name s) (version s) (game_types s) (strategy s)
                (player_id s) (auth_token s) (league_id s)
                (league_endpoint s) (port s)
                w l d (points s + pts)
                (history s ++ [mkGame match_id opponent_id my_choice
                                      opponent_choice drawn_number result pts])
                (current_match_id s) (current_opponent s).

Definition get_stats (s : PlayerState) : Dict.t Z :=
  [("wins", wins s); ("losses", losses s); ("draws", draws s);
   ("points", points s); ("games_played", Z.of_nat (List.length (history s)))].

Definition get_opponent_history (s : PlayerState) (opponent : string)
  : list GameRecord :=
  filter (fun g => String.eqb (opponent_id g) opponent) (history s).

(** *** Strategies *)

(** The strategy objects; only [AlternatingStrategy] has a field that
    changes. *)
Inductive Strategy : Type :=
| RandomStrategy
| AlwaysEvenStrategy
| AlwaysOddStrategy
| AlternatingStrategy (last_choice : string)
| BiasedStrategy (even_probability : Q)
| CounterStrategy.

(** What the random module yields during one call: whether
    [random.choice(["even", "odd"])] takes the first element, and the
    value of [random.random()]. *)
Record Draws : Type := mkDraws {
  takes_first : bool;
  uniform : Q
}.

Definition random_choice (rnd : Draws) : string :=
  if takes_first rnd then "even" else "odd".

(** [sum(1 for g in history if g.opponent_choice == c)] *)
Definition count_choice (c : string) (games : list GameRecord) : Z :=
  Z.of_nat (List.length (filter (fun g => opt_eqb (opponent_choice g) (Some c)) games)).

(** [strategy.choose(state, context)]: the strategy object afterwards
    and the choice. Only [CounterStrategy] reads the context, with
    [context.get], which needs a dict. *)
Definition choose (st : Strategy) (state : PlayerState) (context : json)
           (rnd : Draws) : Strategy * outcome string :=
  match st with
  | RandomStrategy => (st, Returned (random_choice rnd))
  | AlwaysEvenStrategy => (st, Returned "even")
  | AlwaysOddStrategy => (st, Returned "odd")
  | AlternatingStrategy last =>
      let next := if String.eqb last "odd" then "even" else "odd" in
      (AlternatingStrategy next, Returned next)
  | BiasedStrategy p =>
      (st, Returned (if Qle_bool p (uniform rnd) then "odd" else "even"))
  | CounterStrategy =>
      match context with
      | JObj _ =>
          let opponent := Json.get context "opponent_id" in
          if negb (Json.truthy opponent) then (st, Returned (random_choice rnd))
          else
            let games := match opponent with
                         | JStr o => get_opponent_history state o
                         | _ => []
                         end in
            match games with
            | [] => (st, Returned (random_choice rnd))
            | _ =>
                let even_count := count_choice "even" games in
                let odd_count := count_choice "odd" games in
                if odd_count <? even_count then (st, Returned "even")
                else if even_count <? odd_count then (st, Returned "odd")
                else (st, Returned (random_choice rnd))
            end
      | _ => (st, Raised "AttributeError")
      end
  end.

(** The module-level registry, as it is when the module is loaded; the
    probabilities 0.7 and 0.3 stand as the rationals the literals
    denote. *)
Definition STRATEGIES : Dict.t Strategy :=
  [("random", RandomStrategy);
   ("always_even", AlwaysEvenStrategy);
   ("always_odd", AlwaysOddStrategy);
   ("alternating", AlternatingStrategy "odd");
   ("biased_even", BiasedStrategy (7 # 10));
   ("biased_odd", BiasedStrategy (3 # 10));
   ("counter", CounterStrategy)].

(** [STRATEGIES.get(name, RandomStrategy())] *)
Definition get_strategy (registry : Dict.t Strategy) (name : string) : Strategy :=
  match Dict.get registry name with
  | Some st => st
  | None => RandomStrategy
  end.

(** [make_choice]: the registry afterwards (a registered strategy
    object keeps what [choose] did to it) and the choice. *)
Definition make_choice (registry : Dict.t Strategy) (state : PlayerState)
           (context : json) (rnd : Draws) : Dict.t Strategy * outcome string :=
  let '(st', r) := choose (get_strategy registry (strategy state)) state context rnd in
  (match Dict.get registry (strategy state) with
   | Some _ => Dict.set registry (strategy state) st'
   | None => registry
   end, r).

(** *** Handlers *)

Definition str_opt (o : option string) : string :=
  match o with Some s => s | None => "None" end.

Definition conversation_of (params : Dict.t json) : json :=
  match Dict.get params "conversation_id" with Some v => v | None => JStr "" end.

Definition with_current (s : PlayerState) (mid opponent : json) : PlayerState :=
  mkPlayerState (display_name s) (version s) (game_types s) (strategy s)
                (player_id s) (auth_token s) (league_id s)
                (league_endpoint s) (port s)
                (wins s) (losses s) (draws s) (points s) (history s)
                mid opponent.

(** [handle_game_invitation]; [now] and [arrival] are the two readings
    of [utc_timestamp()]. *)
Definition handle_game_invitation (s : PlayerState) (params : Dict.t json)
           (request_id : json) (now arrival : string) : PlayerState * json :=
  let mid := Json.get (JObj params) "match_id" in
  let opponent := Json.get (JObj params) "opponent_id" in
  (with_current s mid opponent,
   JObj [("jsonrpc", JStr "2.0");
         ("result", JObj [("protocol", JStr "league.v2");
                          ("message_type", JStr "GAME_JOIN_ACK");
                          ("sender", JStr ("player:" ++ str_opt (player_id s)));
                          ("timestamp", JStr now);
                          ("conversation_id", conversation_of params);
                          ("auth_token", Json.of_opt_str (auth_token s));
                          ("match_id", mid);
                          ("player_id", Json.of_opt_str (player_id s));
                          ("arrival_timestamp", JStr arrival);
                          ("accept", JBool true)]);
         ("id", request_id)]).

(** [handle_choose_parity] *)
Definition handle_choose_parity (registry : Dict.t Strategy) (s : PlayerState)
           (params : Dict.t json) (request_id : json) (rnd : Draws) (now : string)
  : Dict.t Strategy * outcome json :=
  let mid := Json.get (JObj params) "match_id" in
  let context := Json.get_or_empty (JObj params) "context" in
  match make_choice registry s context rnd with
  | (registry', Raised e) => (registry', Raised e)
  | (registry', Returned choice) =>
      (registry',
       Returned
         (JObj [("jsonrpc", JStr "2.0");
                ("result", JObj [("protocol", JStr "league.v2");
                                 ("message_type", JStr "CHOOSE_PARITY_RESPONSE");
                                 ("sender", JStr ("player:" ++ str_opt (player_id s)));
                                 ("timestamp", JStr now);
                                 ("conversation_id", conversation_of params);
                                 ("auth_token", Json.of_opt_str (auth_token s));
                                 ("match_id", mid);
                                 ("player_id", Json.of_opt_str (player_id s));
                                 ("parity_choice", JStr choice)]);
                ("id", request_id)]))
  end.

(** *** Sequences of recorded games *)

Record Game : Type := mkPlayed {
  played_match : string;
  played_opponent : string;
  played_choice : string;
  played_opponent_choice : option string;
  played_number : Z;
  played_winner : option string
}.

Definition record (s : PlayerState) (g : Game) : PlayerState :=
  record_game s (played_match g) (played_opponent g) (played_choice g)
              (played_opponent_choice g) (played_number g) (played_winner g).

Definition record_all (s : PlayerState) (games : list Game) : PlayerState :=
  fold_left record games s.

(** The points of the recorded games, summed. *)
Definition points_recorded (s : PlayerState) : Z :=
  fold_right Z.add 0 (map points_earned (history s)).

End Player.

(* ------------------------------------------------------------------ *)
(** ** Properties as the specification words them *)

Module Specified.

(** Section 4.4 / 8 on the scheduler: [n(n-1)/2] matches, every
    unordered pair exactly once, round ids from 1, and every round
    holding [floor(n/2)] matches. *)
Definition round_robin (player_ids : list string) : Prop :=
  let sch := Scheduler.create_round_robin_schedule player_ids in
  let n := List.length player_ids in
  List.length sch = (n * (n - 1) / 2)%nat
  /\ (forall a b, In a player_ids -> In b player_ids -> a <> b ->
                  Scheduler.pairing_count a b sch = 1%nat)
  /\ (forall m, In m sch -> 1 <= round_id m)
  /\ (forall m, In m sch ->
        List.length (Scheduler.get_matches_for_round sch (round_id m))
        = (n / 2)%nat).

(** What the scheduler does about rounds: consecutive matches are
    put two to a round, whatever the number of players. [T] is the
    number of matches. *)
Definition rounds_of_two (sch : list Match) : Prop :=
  let T := Z.of_nat (List.length sch) in
  (forall i m, nth_error sch i = Some m -> round_id m = Z.of_nat i / 2 + 1)
  /\ (forall r, 1 <= r ->
        let members := List.length (Scheduler.get_matches_for_round sch r) in
        (2 * r <= T -> members = 2%nat)
        /\ (2 * r = T + 1 -> members = 1%nat)
        /\ (T + 1 < 2 * r -> members = 0%nat)).

Definition always_times_out (net : nat -> HttpClient.PostOutcome) : Prop :=
  forall k, exists e, net k = HttpClient.Timeout e.


(** Section 8 on a report for a match that is not scheduled: the
    handler acknowledges it with status RECORDED all the same, and
    leaves the league state as it was. *)
Definition unknown_report_recorded (s : LeagueState) (params : Dict.t json)
           (request_id : json) (ts : LeagueHandlers.Stamps) : Prop :=
  (forall m, In m (schedule s) ->
             Json.eq_str (Json.get (JObj params) "match_id") (match_id m) = false) ->
  let out := LeagueHandlers.handle_report_match_result s params request_id ts in
  fst out = s
  /\ exists ack,
       snd out = Returned ack
       /\ Json.has ack "error" = false
       /\ Json.get (Json.get ack "result") "status" = JStr "RECORDED".

End Specified.

(* ================================================================== *)
(** * Proofs *)

Local Open Scope list_scope.

(** ** Dictionaries *)

Module DictFacts.
Section Facts.
Context {V : Type}.
Implicit Types (d : list (string * V)) (k : string) (v : V).

Lemma get_set_eq d k v : Dict.get (Dict.set d k v) k = Some v.
Proof.
  induction d as [|[k' v'] d IH]; simpl.
  - now rewrite String.eqb_refl.
  - destruct (String.eqb k' k) eqn:E; simpl; rewrite E; auto.
Qed.

Lemma get_set_ne d k k' v : k <> k' -> Dict.get (Dict.set d k v) k' = Dict.get d k'.
Proof.
  intros Hne. induction d as [|[k0 v0] d IH]; simpl.
  - destruct (String.eqb_spec k k'); congruence.
  - destruct (String.eqb_spec k0 k) as [->|Hk]; simpl.
    + destruct (String.eqb_spec k k'); congruence.
    + now rewrite IH.
Qed.

Lemma get_none_notin d k : Dict.get d k = None <-> ~ In k (Dict.keys d).
Proof.
  induction d as [|[k0 v0] d IH]; simpl.
  - tauto.
  - destruct (String.eqb_spec k0 k) as [->|Hk].
    + split; [discriminate | intros H; exfalso; apply H; now left].
    + rewrite IH. tauto.
Qed.

(** Assigning to a new key appends it; the order of the others stays. *)
Lemma set_fresh d k v : ~ In k (Dict.keys d) -> Dict.set d k v = d ++ [(k, v)].
Proof.
  induction d as [|[k0 v0] d IH]; simpl; intros H; auto.
  destruct (String.eqb_spec k0 k) as [->|Hk].
  - exfalso; apply H; now left.
  - rewrite IH; tauto.
Qed.

(** Assigning to an existing key keeps the key sequence. *)
Lemma keys_set_present d k v v0 :
  Dict.get d k = Some v0 -> Dict.keys (Dict.set d k v) = Dict.keys d.
Proof.
  induction d as [|[k1 v1] d IH]; simpl; [discriminate|].
  destruct (String.eqb_spec k1 k) as [->|Hk]; simpl; intros H; auto.
  now rewrite IH.
Qed.

Lemma values_set_Forall (P : V -> Prop) d k v :
  Forall P (Dict.values d) -> P v -> Forall P (Dict.values (Dict.set d k v)).
Proof.
  unfold Dict.values.
  induction d as [|[k1 v1] d IH]; simpl; intros Hd Hv.
  - now constructor.
  - inversion Hd; subst.
    destruct (String.eqb k1 k); simpl; constructor; auto.
Qed.

Lemma get_In_values d k v : Dict.get d k = Some v -> In v (Dict.values d).
Proof.
  unfold Dict.values.
  induction d as [|[k1 v1] d IH]; simpl; [discriminate|].
  destruct (String.eqb k1 k); intros H.
  - left; congruence.
  - right; auto.
Qed.

End Facts.
End DictFacts.

(** ** Formatting *)

Module FmtFacts.

Lemma parse_str n : Fmt.parse (Fmt.str n) = Some n.
Proof.
  unfold Fmt.parse, Fmt.str.
  rewrite NilEmpty.isi. simpl. now rewrite DecimalZ.of_to.
Qed.

Lemma parse_fmt_02d n : Fmt.parse (Fmt.fmt_02d n) = Some n.
Proof.
  unfold Fmt.fmt_02d.
  destruct ((0 <=? n) && (n <? 10)) eqn:E; [|apply parse_str].
  apply andb_true_iff in E. destruct E as [H0 H10].
  apply Z.leb_le in H0. apply Z.ltb_lt in H10.
  assert (exists k, (k < 10)%nat /\ n = Z.of_nat k) as (k & Hk & ->)
  by (exists (Z.to_nat n); lia).
do 10 (destruct k as [|k]; [reflexivity|]). lia.
Qed.

Lemma fmt_02d_inj n m : Fmt.fmt_02d n = Fmt.fmt_02d m -> n = m.
Proof.
  intros H. apply (f_equal Fmt.parse) in H.
  rewrite !parse_fmt_02d in H. congruence.
Qed.

Lemma str_inj n m : Fmt.str n = Fmt.str m -> n = m.
Proof.
  intros H. apply (f_equal Fmt.parse) in H.
  rewrite !parse_str in H. congruence.
Qed.

End FmtFacts.

(** ** Scheduler *)

Module SchedulerFacts.
Import Scheduler.

(** *** The loop, seen through its three projections *)

Lemma loop_length pairs : forall k acc,
  List.length (schedule_loop pairs k acc)
  = (List.length acc + List.length pairs)%nat.
Proof.
  induction pairs as [|p rest IH]; intros k acc; simpl.
  - lia.
  - rewrite IH, length_app. simpl. lia.
Qed.

Lemma loop_players pairs : forall k acc,
  map players_of (schedule_loop pairs k acc) = map players_of acc ++ pairs.
Proof.
  induction pairs as [|p rest IH]; intros k acc; simpl.
  - now rewrite app_nil_r.
  - rewrite IH, map_app, <- app_assoc. simpl.
    now destruct p.
Qed.

Lemma loop_rounds pairs : forall k acc,
  map round_id (schedule_loop pairs k acc)
  = map round_id acc
    ++ map (fun i => (k + Z.of_nat i - 1) / 2 + 1) (seq 0 (List.length pairs)).
Proof.
  induction pairs as [|p rest IH]; intros k acc.
  - simpl. now rewrite app_nil_r.
  - cbn [schedule_loop List.length seq map].
    rewrite IH, map_app, <- app_assoc. f_equal. simpl. f_equal.
    + f_equal. f_equal. lia.
    + rewrite <- seq_shift, map_map. apply map_ext. intros i.
      f_equal. f_equal. lia.
Qed.

Lemma schedule_players ids :
  map players_of (create_round_robin_schedule ids) = combinations2 ids.
Proof. unfold create_round_robin_schedule. now rewrite loop_players. Qed.

Lemma schedule_rounds ids :
  map round_id (create_round_robin_schedule ids)
  = map (fun i => Z.of_nat i / 2 + 1)
        (seq 0 (List.length (combinations2 ids))).
Proof.
  unfold create_round_robin_schedule. rewrite loop_rounds.
  cbn [map app]. apply map_ext. intros i.
  replace (1 + Z.of_nat i - 1) with (Z.of_nat i) by lia. reflexivity.
Qed.

Lemma schedule_length ids :
  List.length (create_round_robin_schedule ids)
  = List.length (combinations2 ids).
Proof. unfold create_round_robin_schedule. now rewrite loop_length. Qed.

(** *** Counting the pairs *)

Lemma combinations2_double (A : Type) (l : list A) :
  (2 * List.length (combinations2 l)
   = List.length l * (List.length l - 1))%nat.
Proof.
  induction l as [|x xs IH]; simpl; auto.
  rewrite length_app, length_map. nia.
Qed.

Lemma combinations2_length (A : Type) (l : list A) :
  List.length (combinations2 l)
  = (List.length l * (List.length l - 1) / 2)%nat.
Proof.
  rewrite <- combinations2_double.
  rewrite Nat.mul_comm, Nat.div_mul; auto.
Qed.

Lemma combinations2_In (A : Type) (l : list A) x y :
  In (x, y) (combinations2 l) -> In x l /\ In y l.
Proof.
  induction l as [|z zs IH]; simpl; [tauto|].
  rewrite in_app_iff, in_map_iff.
  intros [[w [E Hw]] | H].
  - inversion E; subst. auto.
  - destruct (IH H). auto.
Qed.

Lemma count_pairs_absent a b ps :
  (forall x y, In (x, y) ps -> x <> a /\ y <> a) -> count_pairs a b ps = 0%nat.
Proof.
  unfold count_pairs.
  induction ps as [|[x y] ps IH]; simpl; intros H; auto.
  destruct (H x y (or_introl eq_refl)) as [Hx Hy].
  unfold pair_matches at 1. simpl.
  destruct (String.eqb_spec x a); [contradiction|].
  destruct (String.eqb_spec y a); [contradiction|].
  rewrite andb_false_r. simpl. apply IH. intros; apply H; now right.
Qed.

Lemma count_pairs_sym a b ps : count_pairs a b ps = count_pairs b a ps.
Proof.
  unfold count_pairs. f_equal. apply filter_ext. intros p.
  unfold pair_matches. apply orb_comm.
Qed.

(** Pairs headed by [x]: [{x, b}] occurs as often as [b] occurs in [xs]. *)
Lemma count_pairs_head x b xs :
  x <> b -> NoDup xs -> In b xs ->
  count_pairs x b (map (pair x) xs) = 1%nat.
Proof.
  unfold count_pairs. intros Hxb Hnd.
  induction Hnd as [|y ys Hy Hnd IH]; simpl; [tauto|].
  intros [-> | Hin].
  - unfold pair_matches at 1. simpl. rewrite !String.eqb_refl. simpl.
    f_equal.
    assert (filter (pair_matches x b) (map (pair x) ys) = []) as ->; auto.
    clear IH. induction ys as [|z zs IHz]; simpl; auto.
    unfold pair_matches at 1. simpl.
    destruct (String.eqb_spec z b) as [->|Hz].
    + exfalso. apply Hy. now left.
    + destruct (String.eqb_spec x b); [contradiction|]. simpl.
      rewrite andb_false_r. simpl. apply IHz.
      * intros H. apply Hy. now right.
      * now inversion Hnd.
  - unfold pair_matches at 1. simpl.
    destruct (String.eqb_spec y b) as [->|Hyb]; [contradiction|].
    destruct (String.eqb_spec x b); [contradiction|]. simpl.
    rewrite andb_false_r. simpl. auto.
Qed.

Lemma count_pairs_head_other x a b xs :
  a <> x -> b <> x -> count_pairs a b (map (pair x) xs) = 0%nat.
Proof.
  intros Ha Hb. unfold count_pairs.
  induction xs as [|y ys IH]; simpl; auto.
  unfold pair_matches at 1. simpl.
  destruct (String.eqb_spec x a); [congruence|].
  destruct (String.eqb_spec x b); [congruence|]. simpl. auto.
Qed.

Lemma count_pairs_app a b ps qs :
  count_pairs a b (ps ++ qs) = (count_pairs a b ps + count_pairs a b qs)%nat.
Proof. unfold count_pairs. now rewrite filter_app, length_app. Qed.

Lemma combinations2_once ids : NoDup ids ->
  forall a b, In a ids -> In b ids -> a <> b ->
  count_pairs a b (combinations2 ids) = 1%nat.
Proof.
  induction 1 as [|x xs Hx Hnd IH]; simpl; [tauto|].
  intros a b Ha Hb Hab. rewrite count_pairs_app.
  assert (forall c, ~ In c xs ->
            forall u v, In (u, v) (combinations2 xs) -> u <> c /\ v <> c) as Hout.
  { intros c Hc u v Huv. apply combinations2_In in Huv.
    destruct Huv. split; intros ->; contradiction. }
  destruct Ha as [<- | Ha], Hb as [<- | Hb].
  - congruence.
  - rewrite count_pairs_head; auto.
    rewrite count_pairs_absent; auto.
  - rewrite (count_pairs_sym a x (map _ _)), count_pairs_head; auto.
    rewrite count_pairs_sym, count_pairs_absent; auto.
  - rewrite count_pairs_head_other.
    + simpl. auto.
    + intros ->; contradiction.
    + intros ->; contradiction.
Qed.

Lemma combinations2_distinct (A : Type) (l : list A) x y :
  NoDup l -> In (x, y) (combinations2 l) -> x <> y.
Proof.
  induction 1 as [|z zs Hz Hnd IH]; simpl; [tauto|].
  rewrite in_app_iff, in_map_iff. intros [[w [E Hw]] | H]; auto.
  inversion E; subst. intros ->. contradiction.
Qed.

Lemma pairing_count_players a b sch :
  pairing_count a b sch = count_pairs a b (map players_of sch).
Proof.
  unfold pairing_count, count_pairs.
  induction sch as [|m sch IH]; simpl; auto.
  change (pair_matches a b (players_of m)) with (is_pairing a b m).
  destruct (is_pairing a b m); simpl; auto.
Qed.

(** *** Counting the members of a round *)

Lemma round_filter_rounds sch r :
  List.length (get_matches_for_round sch r)
  = List.length (filter (fun z => z =? r) (map round_id sch)).
Proof.
  unfold get_matches_for_round.
  induction sch as [|m sch IH]; simpl; auto.
  destruct (round_id m =? r); simpl; auto.
Qed.

Lemma half_round_bounds (T : nat) (r : Z) :
  Z.of_nat T / 2 + 1 = r <-> 2 * (r - 1) <= Z.of_nat T < 2 * r.
Proof.
  pose proof (Z.div_mod (Z.of_nat T) 2 ltac:(lia)).
  pose proof (Z.mod_pos_bound (Z.of_nat T) 2 ltac:(lia)).
  lia.
Qed.

Lemma pairs_of_two_count (T : nat) (r : Z) : 1 <= r ->
  List.length (filter (fun z => z =? r)
                      (map (fun i => Z.of_nat i / 2 + 1) (seq 0 T)))
  = Nat.min 2 (T - 2 * (Z.to_nat r - 1)).
Proof.
  intros Hr. induction T as [|T IH].
  - reflexivity.
  - rewrite seq_S, map_app, filter_app, length_app, IH.
    cbn [map filter Nat.add]. clear IH.
    destruct (Z.eqb_spec (Z.of_nat T / 2 + 1) r) as [E|E];
      rewrite half_round_bounds in E; cbn [List.length]; lia.
Qed.

End SchedulerFacts.

Module SchedulerTheorems.
Import Scheduler SchedulerFacts.

Lemma nth_error_map_seq (A : Type) (g : A -> Z) (f : nat -> Z) (l : list A) :
  forall s T i m,
    map g l = map f (seq s T) -> nth_error l i = Some m -> g m = f (s + i)%nat.
Proof.
  induction l as [|x l IH]; intros s T i m Hmap Hnth.
  - destruct i; discriminate.
  - destruct T as [|T]; [discriminate|]. simpl in Hmap.
    injection Hmap as Hx Hl. destruct i as [|i]; simpl in Hnth.
    + injection Hnth as <-. now rewrite Nat.add_0_r.
    + rewrite Nat.add_succ_r. apply (IH (S s) T i m Hl Hnth).
Qed.

Lemma schedule_rounds_of_two ids :
  Specified.rounds_of_two (create_round_robin_schedule ids).
Proof.
  unfold Specified.rounds_of_two. split.
  - intros i m Hnth.
    apply (nth_error_map_seq _ round_id (fun i => Z.of_nat i / 2 + 1)
             _ 0%nat _ i m (schedule_rounds ids) Hnth).
  - intros r Hr. cbv zeta.
    rewrite round_filter_rounds, schedule_rounds, pairs_of_two_count by assumption.
    rewrite schedule_length.
    repeat split; intros; lia.
Qed.

(** C1 (as amended): for n >= 2 distinct player ids the schedule has
    n(n-1)/2 matches, every unordered pair of distinct players occurs in
    exactly one match, every round id is at least 1, and the matches
    are grouped in enumeration order into rounds of two: match number
    k (from 1) is in round ceil(k/2), so every round holds 2 matches
    except a last round of 1 when the number of matches is odd. *)
Theorem round_robin_schedule_correct (player_ids : list string) :
  NoDup player_ids -> (2 <= List.length player_ids)%nat ->
  let sch := create_round_robin_schedule player_ids in
  let n := List.length player_ids in
  List.length sch = (n * (n - 1) / 2)%nat
  /\ (forall a b, In a player_ids -> In b player_ids -> a <> b ->
                  pairing_count a b sch = 1%nat)
  /\ (forall m, In m sch -> 1 <= round_id m)
  /\ Specified.rounds_of_two sch.
Proof.
  intros Hnd Hn sch n. subst sch n.
  split; [|split; [|split]].
  - rewrite schedule_length. apply combinations2_length.
  - intros a b Ha Hb Hab.
    rewrite pairing_count_players, schedule_players.
    now apply combinations2_once.
  - intros m Hm. apply In_nth_error in Hm. destruct Hm as [i Hi].
    rewrite (proj1 (schedule_rounds_of_two player_ids) i m Hi).
    pose proof (Z.div_pos (Z.of_nat i) 2 ltac:(lia) ltac:(lia)). lia.
  - apply schedule_rounds_of_two.
Qed.

Lemma round_robin_schedule_correct_witness :
  let ids := ["P01"; "P02"; "P03"; "P04"]%string in
  NoDup ids /\ (2 <= List.length ids)%nat
  /\ List.length (create_round_robin_schedule ids) = 6%nat
  /\ Specified.rounds_of_two (create_round_robin_schedule ids).
Proof.
  assert (Hnd : NoDup ["P01"; "P02"; "P03"; "P04"]%string).
  { repeat constructor; simpl; intuition discriminate. }
  assert (Hn : (2 <= List.length ["P01"; "P02"; "P03"; "P04"]%string)%nat).
  { simpl. lia. }
  pose proof (round_robin_schedule_correct _ Hnd Hn) as H.
  cbv zeta in *. destruct H as (Hlen & _ & _ & Hr).
  split; [exact Hnd | split; [exact Hn | split; [exact Hlen | exact Hr]]].
Defined.

(** C1 (as stated) fails for three distinct players: the first round
    holds two matches, where floor(3/2) is one. *)
Lemma round_robin_three_players_counterexample :
  NoDup ["P01"; "P02"; "P03"]%string
  /\ ~ Specified.round_robin ["P01"; "P02"; "P03"]%string.
Proof.
  split; [repeat constructor; simpl; intuition discriminate|].
  intros (_ & _ & _ & H).
  assert (Hin : In (new_match 1 ("P01", "P02")%string)
                   (create_round_robin_schedule ["P01"; "P02"; "P03"]%string)).
  { vm_compute. auto. }
  specialize (H _ Hin). vm_compute in H. discriminate H.
Qed.

End SchedulerTheorems.

(** ** Game rule *)

Module GameLogicTheorems.
Import GameLogic.

(** C9: swapping the two choices swaps the roles of the winner and
    keeps a draw a draw; equal choices always draw. *)
Theorem determine_winner_antisymmetric (a b : string) (k : Z) :
  (winner_of (determine_winner b a k) = Some "PLAYER_B"%string
   <-> winner_of (determine_winner a b k) = Some "PLAYER_A"%string)
  /\ (winner_of (determine_winner b a k) = Some "PLAYER_A"%string
      <-> winner_of (determine_winner a b k) = Some "PLAYER_B"%string)
  /\ (winner_of (determine_winner b a k) = None
      <-> winner_of (determine_winner a b k) = None)
  /\ winner_of (determine_winner a a k) = None.
Proof.
  unfold determine_winner, winner_of.
  destruct (String.eqb (lower a) (get_parity k)),
           (String.eqb (lower b) (get_parity k)); simpl;
    repeat split; intros; congruence.
Qed.

End GameLogicTheorems.

(** ** Transport client *)

Module HttpClientFacts.
Import HttpClient.

Lemma attempts_made_app evs1 evs2 :
  attempts_made (evs1 ++ evs2) = attempts_made evs1 ++ attempts_made evs2.
Proof. unfold attempts_made. apply flat_map_app. Qed.

(** What [backoff] leaves on the trace: nothing, or one sleep. *)
Lemma backoff_cases cfg k slept :
  backoff cfg k = Returned slept ->
  slept = [] \/ exists d, slept = [Slept d] /\ pause cfg k = Returned d.
Proof.
  unfold backoff. destruct (Z.of_nat k <? max_retries cfg - 1).
  - destruct (pause cfg k) as [d|x]; intros H; inversion H. right. eauto.
  - intros H. inversion H. now left.
Qed.

Lemma attempts_made_backoff cfg k slept :
  backoff cfg k = Returned slept -> attempts_made slept = [].
Proof.
  intros H. destruct (backoff_cases _ _ _ H) as [-> | (d & -> & _)]; reflexivity.
Qed.

(** The only exceptions of a pause are those of the float power and of
    [time.sleep]. *)
Lemma pause_raises cfg k x :
  pause cfg k = Raised x -> x = "ValueError" \/ x = "OverflowError".
Proof.
  unfold pause, _calculate_delay, float_pow, sleep.
  destruct (overflows _); [intros H; inversion H; auto|].
  destruct (_ || _); [intros H; inversion H; auto|].
  destruct (negb _); intros H; inversion H; auto.
Qed.

(** A pause that is taken is not negative. *)
Lemma pause_nonneg cfg k d : pause cfg k = Returned d -> (0 <= d)%Q.
Proof.
  unfold pause. destruct (_calculate_delay cfg k) as [d'|]; [|discriminate].
  unfold sleep. destruct (_ || _); [discriminate|].
  destruct (Qle_bool 0 d') eqn:E; [|discriminate].
  intros H. inversion H. subst. now apply Qle_bool_iff.
Qed.

(** The time slept is the product of the formula, up to underflow. *)
Lemma pause_value cfg k d :
  pause cfg k = Returned d ->
  d = underflow (base_delay cfg
                 * underflow (Qpower (backoff_multiplier cfg) (Z.of_nat k)))%Q.
Proof.
  unfold pause, _calculate_delay, float_pow.
  destruct (overflows _); [discriminate|].
  destruct (sleep _); [|discriminate].
  intros H. now injection H as <-.
Qed.

(** A non-empty loop always posts its first attempt. *)
Lemma call_loop_first cfg net ep body t id s rest last evs r :
  call_loop cfg net ep body t id (s :: rest) last = (evs, r) ->
  exists tl, evs = Posted s ep body t :: tl.
Proof.
  cbn [call_loop]. destruct (net s);
    try destruct (backoff cfg s);
    try destruct (call_loop cfg net ep body t id rest (Some e)) as [evs' r'];
    intros H; injection H as <- <-; eauto.
Qed.

Section Loop.
Variables (cfg : RetryConfig) (net : nat -> PostOutcome).
Variables (ep : string) (body : json) (t id : Z).

#[local] Abbreviation loop_facts := (loop_facts cfg net ep body t id).

(** The run ends with the POST of attempt [s]. *)
Lemma loop_stop s n r :
  (forall e, net s = HTTPError e -> r = Returned (http_error e id)) ->
  (retryable (net s) = true ->
   exists x, backoff cfg s = Raised x /\ r = Raised x) ->
  loop_facts s (S n) [Posted s ep body t] r.
Proof.
  intros Hhttp Hpause. constructor; simpl.
  - intros k [<- | []]. lia.
  - intros k e [<- | []] Hk. repeat split.
    + now apply Hhttp.
    + intros j [<- | []]. lia.
    + now exists [].
  - intros k [<- | []]. now left.
  - intros k [<- | []] Hk Hlt.
    destruct (Hpause Hk) as (x & -> & ->). repeat split.
    + intros j [<- | []]. lia.
    + now exists [].
Qed.

Lemma loop_retry s n e slept evs r last :
  net s = Timeout e \/ net s = ConnectionError e ->
  backoff cfg s = Returned slept ->
  call_loop cfg net ep body t id (seq (S s) n) last = (evs, r) ->
  loop_facts (S s) n evs r ->
  loop_facts s (S n) (Posted s ep body t :: slept ++ evs) r.
Proof.
  intros Hs Hslept Hrun IH.
  assert (Hret : retryable (net s) = true) by (destruct Hs as [-> | ->]; reflexivity).
  assert (Hma : attempts_made (Posted s ep body t :: slept ++ evs)
                = s :: attempts_made evs).
  { change (Posted s ep body t :: slept ++ evs)
      with ([Posted s ep body t] ++ (slept ++ evs)).
    now rewrite !attempts_made_app, (attempts_made_backoff _ _ _ Hslept). }
  assert (Hpre : forall k pre, evs = pre ++ [Posted k ep body t] ->
                 exists pre', Posted s ep body t :: slept ++ evs
                              = pre' ++ [Posted k ep body t]).
  { intros k pre ->. exists (Posted s ep body t :: slept ++ pre).
    simpl. now rewrite app_assoc. }
  constructor; rewrite Hma.
  - intros k [<- | Hk]; [lia|]. apply (made_range _ _ _ _ _ _ _ _ _ _ IH) in Hk. lia.
  - intros k e' [<- | Hk] Hnet.
    + destruct Hs as [Hs | Hs]; rewrite Hs in Hnet; discriminate.
    + destruct (http_terminal _ _ _ _ _ _ _ _ _ _ IH k e' Hk Hnet)
        as (Hr & Hle & pre & Hevs).
      repeat split; eauto.
      intros j [<- | Hj]; auto.
      apply (made_range _ _ _ _ _ _ _ _ _ _ IH) in Hk. lia.
  - intros k [Hk | Hk]; [now left|]. right.
    destruct (retry_cause _ _ _ _ _ _ _ _ _ _ IH k Hk) as [E | [Hin Hr]].
    + injection E as ->. split; [now left | assumption].
    + split; [now right | assumption].
  - intros k [<- | Hk] Hr Hlt.
    + rewrite Hslept. right. destruct n as [|n]; [lia|].
      destruct (call_loop_first _ _ _ _ _ _ _ _ _ _ _ Hrun) as [tl ->].
      now left.
    + pose proof (retry_happens _ _ _ _ _ _ _ _ _ _ IH k Hk Hr ltac:(lia)) as H.
      destruct (backoff cfg k) as [sl | x].
      * now right.
      * destruct H as (Hx & Hle & pre & Hevs). repeat split; eauto.
        intros j [<- | Hj]; auto.
        apply (made_range _ _ _ _ _ _ _ _ _ _ IH) in Hk. lia.
Qed.

Lemma call_loop_facts n : forall s last evs r,
  call_loop cfg net ep body t id (seq s n) last = (evs, r) ->
  loop_facts s n evs r.
Proof.
  induction n as [|n IH]; intros s last evs r Hrun.
  - simpl in Hrun. injection Hrun as <- <-.
    constructor; simpl; intros; try contradiction.
  - cbn [seq call_loop] in Hrun.
    destruct (net s) as [b | e | e | e | e] eqn:Hs.
    + injection Hrun as <- <-. apply loop_stop; now rewrite Hs.
    + destruct (backoff cfg s) as [slept | x] eqn:Hb.
      * destruct (call_loop cfg net ep body t id (seq (S s) n) (Some e))
          as [evs' r'] eqn:Hrest.
        injection Hrun as <- <-. eapply loop_retry; eauto.
      * injection Hrun as <- <-. apply loop_stop; rewrite Hs; [discriminate|eauto].
    + destruct (backoff cfg s) as [slept | x] eqn:Hb.
      * destruct (call_loop cfg net ep body t id (seq (S s) n) (Some e))
          as [evs' r'] eqn:Hrest.
        injection Hrun as <- <-. eapply loop_retry; eauto.
      * injection Hrun as <- <-. apply loop_stop; rewrite Hs; [discriminate|eauto].
    + injection Hrun as <- <-. apply loop_stop; rewrite Hs; [|discriminate].
      intros e' E. now injection E as ->.
    + injection Hrun as <- <-. apply loop_stop; now rewrite Hs.
Qed.

End Loop.

(** The result of the loop does not depend on the request that is sent. *)
Lemma call_loop_result cfg net ep body t ep' body' t' id attempts : forall last,
  snd (call_loop cfg net ep body t id attempts last)
  = snd (call_loop cfg net ep' body' t' id attempts last).
Proof.
  induction attempts as [|k rest IH]; intros last; [reflexivity|].
  cbn [call_loop]. destruct (net k); try reflexivity;
    (destruct (backoff cfg k); [|reflexivity]);
    specialize (IH (Some e));
    destruct (call_loop cfg net ep body t id rest (Some e)),
             (call_loop cfg net ep' body' t' id rest (Some e)); exact IH.
Qed.






Lemma call_spec c net ep method params t :
  exists evs, call c net ep method params t = (next_client c, evs, call_result c net).
Proof.
  unfold call_result, call, next_client, _next_request_id. cbn [fst].
  pose proof (call_loop_result (retry_config c) net ep
                (model_dump method params (_request_id c + 1)) t
                ""%string (model_dump "" JNull (_request_id c + 1)) 0
                (_request_id c + 1) (range (max_retries (retry_config c))) None) as H.
  destruct (call_loop (retry_config c) net ep _ t _ _ None) as [evs r].
  destruct (call_loop (retry_config c) net ""%string _ 0 _ _ None) as [evs' r'].
  simpl in *. subst. now exists evs.
Qed.

End HttpClientFacts.

Module HttpClientTheorems.
Import HttpClient HttpClientFacts.

(** C3: in every call, an attempt answered by an HTTP 4xx/5xx is the
    last thing the client does: no later attempt, no sleep, and the
    structured error is returned at once, the JSON-RPC error object
    with code -32000, the message "HTTP error: " followed by the text
    of the exception, and the id of the request. A further attempt is
    made only after a timeout or a connection failure. After such a
    failure the client pauses, while attempts remain, and makes the
    next attempt; the one thing that keeps it from that is the pause
    itself raising ([time.sleep] refusing a negative or an oversized
    delay, or the float power overflowing), and then that exception
    leaves [call] with the failed attempt as the last one. *)
Theorem http_error_never_retried
        (c : MCPClient) (net : nat -> PostOutcome)
        (endpoint method : string) (params : json) (timeout : Z)
        (c' : MCPClient) (evs : list Event) (r : outcome json) :
  call c net endpoint method params timeout = (c', evs, r) ->
  let id := _request_id c + 1 in
  let last_event k :=
    (forall j, In j (attempts_made evs) -> (j <= k)%nat)
    /\ exists pre, evs = pre ++ [Posted k endpoint (model_dump method params id)
                                        timeout] in
  (forall k e,
      In k (attempts_made evs) -> net k = HTTPError e ->
      r = Returned (JObj [("jsonrpc", JStr "2.0");
                          ("error", JObj [("code", JInt (-32000));
                                          ("message", JStr ("HTTP error: " ++ e))]);
                          ("id", JInt id)])
      /\ last_event k)
  /\ (forall k, In (S k) (attempts_made evs) ->
                In k (attempts_made evs) /\ retryable (net k) = true)
  /\ (forall k, In k (attempts_made evs) -> retryable (net k) = true ->
                Z.of_nat (S k) < max_retries (retry_config c) ->
                match pause (retry_config c) k with
                | Returned _ => In (S k) (attempts_made evs)
                | Raised x =>
                    r = Raised x /\ last_event k
                    /\ (x = "ValueError" \/ x = "OverflowError")
                end).
Proof.
  unfold call, _next_request_id, range.
  destruct (call_loop _ _ _ _ _ _ _ _) as [evs0 r0] eqn:Hrun.
  intros H. injection H as <- <- <-. cbv zeta.
  pose proof (call_loop_facts _ _ _ _ _ _ _ _ _ _ _ Hrun) as F.
  split; [|split].
  - intros k e Hk Hnet.
    destruct (http_terminal _ _ _ _ _ _ _ _ _ _ F k e Hk Hnet) as (Hr & Hle & Hpre).
    split; [exact Hr | split; assumption].
  - intros k Hk. destruct (retry_cause _ _ _ _ _ _ _ _ _ _ F k Hk) as [E|H];
      [discriminate | exact H].
  - intros k Hk Hr Hlt.
    pose proof (retry_happens _ _ _ _ _ _ _ _ _ _ F k Hk Hr ltac:(lia)) as H.
    unfold backoff in H.
    destruct (Z.ltb_spec (Z.of_nat k) (max_retries (retry_config c) - 1)); [|lia].
    destruct (pause (retry_config c) k) as [d|x] eqn:Hp; [exact H|].
    destruct H as (Hx & Hle & Hpre).
    split; [exact Hx|]. split; [split; assumption|].
    eapply pause_raises; eauto.
Qed.

(** A timeout, then a 500: two attempts, the second one caused by the
    timeout, and the HTTP error comes back. *)
Lemma http_error_never_retried_witness :
  let net := fun k => match k with
                      | O => Timeout "timed out"
                      | _ => HTTPError "500 Server Error"
                      end in
  let run := call new_client net "http://localhost:8101/mcp"
                  "choose_parity" (JObj []) 30 in
  attempts_made (snd (fst run)) = [0; 1]%nat
  /\ snd run = Returned (JObj [("jsonrpc", JStr "2.0");
                               ("error",
                                JObj [("code", JInt (-32000));
                                      ("message",
                                       JStr "HTTP error: 500 Server Error")]);
                               ("id", JInt 1)])
  /\ retryable (net 0%nat) = true.
Proof.
  intros net run.
  destruct run as [[c' evs] r] eqn:Hcall.
  pose proof (http_error_never_retried _ _ _ _ _ _ _ _ _ Hcall) as (Hhttp & Hcause & _).
  vm_compute in Hcall. injection Hcall as <- <- <-.
  split; [reflexivity|]. split.
  - apply (Hhttp 1%nat "500 Server Error"%string); [simpl; auto | reflexivity].
  - apply (Hcause 0%nat). simpl. auto.
Defined.

(** C2: with [max_retries=3], [base_delay=2], [backoff_multiplier=2]
    and every attempt timing out, [call] posts exactly three times,
    sleeps 2s after the first and 4s after the second attempt and not
    after the third, and returns the structured "max retries exceeded"
    error (JSON-RPC code -32001). Of the two codes the statement
    allows, E001 (timeout) and the connection error, the result carries
    the connection error: E009 / CONNECTION_ERROR. *)
Theorem call_retry_boundary
        (c : MCPClient) (net : nat -> PostOutcome)
        (endpoint method : string) (params : json) (timeout : Z)
        (codes : list string) :
  retry_config c = mkRetry 3 (2 # 1) (2 # 1) codes ->
  Specified.always_times_out net ->
  let id := _request_id c + 1 in
  let body := model_dump method params id in
  let evs := [Posted 0 endpoint body timeout; Slept (2 # 1);
              Posted 1 endpoint body timeout; Slept (4 # 1);
              Posted 2 endpoint body timeout] in
  exists e,
    let r := retries_exhausted (Some e) id in
    net 2%nat = Timeout e
    /\ call c net endpoint method params timeout
       = (mkClient (retry_config c) id, evs, Returned r)
    /\ attempts_made evs = [0; 1; 2]%nat
    /\ sleeps evs = [(2 # 1)%Q; (4 # 1)%Q]
    /\ Json.has r "error" = true
    /\ Json.get (Json.get r "error") "code" = JInt (-32001)
    /\ (error_code r = JStr "E001"
        \/ (error_code r = JStr "E009"
            /\ error_description r = JStr "CONNECTION_ERROR"))
    /\ error_code r = JStr "E009".
Proof.
  intros Hcfg Hnet id body evs.
  destruct (Hnet 0%nat) as [e0 H0], (Hnet 1%nat) as [e1 H1], (Hnet 2%nat) as [e2 H2].
  exists e2. cbv zeta. split; [exact H2|]. split.
  - unfold call, _next_request_id. rewrite Hcfg.
    cbn [max_retries]. change (range 3) with [0; 1; 2]%nat.
    cbn [call_loop]. rewrite H0, H1, H2. reflexivity.
  - split; [reflexivity|]. split; [reflexivity|]. split; [reflexivity|].
    split; [reflexivity|]. split; [right; split; reflexivity | reflexivity].
Qed.

Lemma call_retry_boundary_witness :
  let net := fun _ : nat => Timeout "Read timed out" in
  exists r,
    snd (call new_client net "http://localhost:8101/mcp"
              "handle_game_invitation" (JObj []) 5) = Returned r
    /\ error_code r = JStr "E009".
Proof.
  intros net.
  assert (Hnet : Specified.always_times_out net)
    by (intros k; now exists "Read timed out"%string).
  destruct (call_retry_boundary new_client net "http://localhost:8101/mcp"
              "handle_game_invitation" (JObj []) 5 _ eq_refl Hnet)
    as (e & _ & Hcall & _ & _ & _ & _ & _ & Hcode).
  exists (retries_exhausted (Some e) (_request_id new_client + 1)).
  split; [now rewrite Hcall | exact Hcode].
Defined.

End HttpClientTheorems.

(** ** League state *)

Module LeagueFacts.
Import League DictFacts.

(** *** In-place updates *)

Lemma get_modify (d : Dict.t PlayerStanding) k f k' :
  Dict.get (modify d k f) k'
  = if String.eqb k k' then option_map f (Dict.get d k') else Dict.get d k'.
Proof.
  unfold modify. destruct (String.eqb_spec k k') as [<- | Hne].
  - destruct (Dict.get d k) eqn:E; simpl.
    + apply get_set_eq.
    + exact E.
  - destruct (Dict.get d k) eqn:E; auto using get_set_ne.
Qed.

Lemma keys_modify (d : Dict.t PlayerStanding) k f :
  Dict.keys (modify d k f) = Dict.keys d.
Proof.
  unfold modify. destruct (Dict.get d k) eqn:E; auto.
  eapply keys_set_present; eauto.
Qed.

Lemma keys_apply_result d a b w :
  Dict.keys (apply_result d a b w) = Dict.keys d.
Proof.
  unfold apply_result.
  destruct (Json.is_none w); [|destruct (Json.eq_str w a)];
    now rewrite !keys_modify.
Qed.

Lemma standings_update s a b w now :
  standings (update_standings_for_match s a b w now)
  = match Dict.get (standings s) a, Dict.get (standings s) b with
    | Some _, Some _ => apply_result (standings s) a b w
    | _, _ => standings s
    end.
Proof.
  unfold update_standings_for_match.
  destruct (Dict.get (standings s) a), (Dict.get (standings s) b); reflexivity.
Qed.

(** The guard [if not standing_a or not standing_b: return]. *)
Lemma update_without_row s a b w now :
  Dict.get (standings s) a = None \/ Dict.get (standings s) b = None ->
  update_standings_for_match s a b w now = s.
Proof.
  unfold update_standings_for_match.
  intros [H | H]; rewrite H; auto.
  now destruct (Dict.get (standings s) a).
Qed.

(** *** The invariant [played = wins + draws + losses] *)

Lemma all_consistent_set d k v :
  all_consistent d -> consistent v -> all_consistent (Dict.set d k v).
Proof.
  intros Hd Hv k' v' Hget.
  destruct (String.eqb_spec k k') as [<- | Hne].
  - rewrite get_set_eq in Hget. congruence.
  - rewrite get_set_ne in Hget by assumption. eauto.
Qed.

Ltac crunch_rows H :=
  rewrite !get_modify in H;
  repeat match type of H with
         | context [String.eqb ?x ?y] => destruct (String.eqb x y)
         end;
  repeat match type of H with
         | context [Dict.get ?d ?k] => destruct (Dict.get d k) eqn:?
         end;
  simpl in H; try discriminate H.

Lemma all_consistent_apply_result d a b w :
  all_consistent d -> all_consistent (apply_result d a b w).
Proof.
  intros Hd k v Hget. unfold apply_result in Hget.
  assert (Hk : forall v0, Dict.get d k = Some v0 -> consistent v0) by (intros; eauto).
  unfold consistent in *.
  destruct (Json.is_none w); [|destruct (Json.eq_str w a)];
    crunch_rows Hget; injection Hget as <-;
    try (specialize (Hk _ eq_refl); simpl; lia).
Qed.

Lemma step_consistent s o :
  all_consistent (standings s) -> all_consistent (standings (step s o)).
Proof.
  intros H. destruct o; simpl; auto.
  - apply all_consistent_set; auto. reflexivity.
  - rewrite standings_update.
    destruct (Dict.get (standings s) a), (Dict.get (standings s) b); auto.
    now apply all_consistent_apply_result.
Qed.

Lemma run_consistent ops : forall s,
  all_consistent (standings s) -> all_consistent (standings (run s ops)).
Proof.
  unfold run. induction ops as [|o ops IH]; intros s H; simpl; auto.
  apply IH. now apply step_consistent.
Qed.

(** *** Keys stay unique *)

Lemma keys_set_NoDup (V : Type) (d : Dict.t V) k v :
  NoDup (Dict.keys d) -> NoDup (Dict.keys (Dict.set d k v)).
Proof.
  intros Hnd. destruct (Dict.get d k) eqn:E.
  - erewrite keys_set_present; eauto.
  - apply get_none_notin in E. rewrite set_fresh by assumption.
    unfold Dict.keys in *. rewrite map_app. simpl.
    apply NoDup_app; [assumption | repeat constructor; simpl; tauto |].
    intros x Hx [<- | []]. contradiction.
Qed.

Lemma step_keys_NoDup s o :
  NoDup (Dict.keys (standings s)) -> NoDup (Dict.keys (standings (step s o))).
Proof.
  intros H. destruct o; simpl; auto.
  - now apply keys_set_NoDup.
  - rewrite standings_update.
    destruct (Dict.get (standings s) a), (Dict.get (standings s) b); auto.
    now rewrite keys_apply_result.
Qed.

Lemma run_keys_NoDup ops : forall s,
  NoDup (Dict.keys (standings s)) -> NoDup (Dict.keys (standings (run s ops))).
Proof.
  unfold run. induction ops as [|o ops IH]; intros s H; simpl; auto.
  apply IH. now apply step_keys_NoDup.
Qed.

Lemma In_values_get (V : Type) (d : Dict.t V) v :
  NoDup (Dict.keys d) -> In v (Dict.values d) -> exists k, Dict.get d k = Some v.
Proof.
  unfold Dict.keys, Dict.values.
  induction d as [|[k0 v0] d IH]; simpl; intros Hnd Hin; [contradiction|].
  inversion Hnd as [|? ? Hk0 Hnd']; subst.
  destruct Hin as [-> | Hin].
  - exists k0. now rewrite String.eqb_refl.
  - destruct (IH Hnd' Hin) as [k Hk]. exists k.
    destruct (String.eqb_spec k0 k) as [<- | Hne]; auto.
    assert (Dict.get d k0 = None) by (apply get_none_notin; exact Hk0).
    congruence.
Qed.

End LeagueFacts.

Module StandingsTheorems.
Import League DictFacts LeagueFacts.

Lemma score_dict_distinct a b x y :
  a <> b -> GameLogic.score_dict a b x y = [(a, x); (b, y)].
Proof.
  intros Hab. unfold GameLogic.score_dict. simpl.
  destruct (String.eqb_spec a b); [contradiction | reflexivity].
Qed.

Ltac settle_row Ha Hb Hab Hba :=
  rewrite !get_modify;
  rewrite ?String.eqb_refl, ?Hab, ?Hba, ?Ha, ?Hb; simpl;
  eexists; split; [reflexivity | unfold delta; simpl; repeat f_equal; lia].

(** C4: applying a completed match between two distinct players that
    both have a standings row moves (played, wins, draws, losses,
    points) by (1,0,1,0,1) for both on a draw, and by (1,1,0,0,3) for
    the winner and (1,0,0,1,0) for the loser on a decisive result; no
    other row changes. The points are the ones [calculate_score] hands
    out: 1/1, 3/0, 0/3. *)
Theorem update_standings_for_match_effect
        (s : LeagueState) (a b : string) (w : json) (now : string)
        (sa sb : PlayerStanding) :
  a <> b ->
  Dict.get (standings s) a = Some sa ->
  Dict.get (standings s) b = Some sb ->
  let s' := update_standings_for_match s a b w now in
  let moved p old d :=
    exists new, Dict.get (standings s') p = Some new /\ delta old new = d in
  (w = JNull -> moved a sa (1, 0, 1, 0, 1) /\ moved b sb (1, 0, 1, 0, 1))
  /\ (w = JStr a -> moved a sa (1, 1, 0, 0, 3) /\ moved b sb (1, 0, 0, 1, 0))
  /\ (w = JStr b -> moved b sb (1, 1, 0, 0, 3) /\ moved a sa (1, 0, 0, 1, 0))
  /\ (forall c, c <> a -> c <> b ->
                Dict.get (standings s') c = Dict.get (standings s) c)
  /\ GameLogic.calculate_score None a b = [(a, 1); (b, 1)]
  /\ GameLogic.calculate_score (Some "PLAYER_A"%string) a b = [(a, 3); (b, 0)]
  /\ GameLogic.calculate_score (Some "PLAYER_B"%string) a b = [(a, 0); (b, 3)].
Proof.
  intros Hne Ha Hb s' moved. subst s' moved. cbv beta.
  rewrite standings_update, Ha, Hb.
  assert (Hab : String.eqb a b = false) by now apply String.eqb_neq.
  assert (Hba : String.eqb b a = false) by (apply String.eqb_neq; congruence).
  split; [|split; [|split; [|split]]].
  - intros ->. unfold apply_result. simpl.
    split; settle_row Ha Hb Hab Hba.
  - intros ->. unfold apply_result. simpl. rewrite String.eqb_refl.
    split; settle_row Ha Hb Hab Hba.
  - intros ->. unfold apply_result. simpl. rewrite Hba.
    split; settle_row Ha Hb Hab Hba.
  - intros c Hca Hcb. unfold apply_result.
    assert (String.eqb a c = false) as Hac by (apply String.eqb_neq; congruence).
    assert (String.eqb b c = false) as Hbc by (apply String.eqb_neq; congruence).
    destruct (Json.is_none w); [|destruct (Json.eq_str w a)];
      rewrite !get_modify, ?Hac, ?Hbc; reflexivity.
  - unfold GameLogic.calculate_score. simpl.
    rewrite !score_dict_distinct by assumption. auto.
Qed.

Lemma update_standings_for_match_effect_witness :
  let s0 := fst (register_player (init "league_2025") "Alpha" "http://localhost:8101/mcp"
                                 "1.0.0" None "00") in
  let s1 := fst (register_player s0 "Beta" "http://localhost:8102/mcp"
                                 "1.0.0" None "01") in
  Dict.get (standings (update_standings_for_match s1 "P01" "P02" (JStr "P02") "t"))
           "P02"
  = Some (mkStanding "P02" "Beta" 1 1 0 0 3).
Proof.
  intros s0 s1.
  assert (Hne : "P01"%string <> "P02"%string) by discriminate.
  destruct (update_standings_for_match_effect
              s1 "P01" "P02" (JStr "P02") "t"
              (mkStanding "P01" "Alpha" 0 0 0 0 0)
              (mkStanding "P02" "Beta" 0 0 0 0 0)
              Hne eq_refl eq_refl) as (_ & _ & Hwin & _).
  destruct (Hwin eq_refl) as [(new & Hget & Hd) _].
  rewrite Hget. f_equal.
  vm_compute in Hget. now injection Hget as <-.
Defined.

(** C5: in every state reached from the initial one by registrations
    and standings updates, every standings row has
    played = wins + draws + losses; a new registration starts from
    all-zero counters and each update keeps the equation for every row. *)
Theorem standings_invariant (league : string) (ops : list Op) :
  let s := run (init league) ops in
  (forall pid v, Dict.get (standings s) pid = Some v -> consistent v)
  /\ (forall v, In v (Dict.values (standings s)) -> consistent v)
  /\ (forall d e ver g h,
        let (s1, p) := register_player s d e ver g h in
        Dict.get (standings s1) (player_id p)
        = Some (mkStanding (player_id p) d 0 0 0 0 0))
  /\ (forall a b w now,
        all_consistent (standings (update_standings_for_match s a b w now))).
Proof.
  intros s.
  assert (Hinv : all_consistent (standings s)).
  { apply run_consistent. intros k v H. discriminate H. }
  assert (Hnd : NoDup (Dict.keys (standings s))).
  { apply run_keys_NoDup. constructor. }
  split; [exact Hinv | split; [|split]].
  - intros v Hv. destruct (In_values_get _ _ _ Hnd Hv) as [k Hk]. eauto.
  - intros d e ver g h. simpl. apply get_set_eq.
  - intros a b w now.
    apply (step_consistent s (UpdateStandings a b w now) Hinv).
Qed.

Lemma standings_invariant_witness :
  consistent (mkStanding "P01" "Alpha" 2 1 1 0 4).
Proof.
  pose (ops := [RegisterPlayer "Alpha" "http://localhost:8101/mcp" "1.0.0" None "00";
                RegisterPlayer "Beta" "http://localhost:8102/mcp" "1.0.0" None "01";
                UpdateStandings "P01" "P02" (JStr "P01") "t1";
                UpdateStandings "P02" "P01" JNull "t2"]%string).
  destruct (standings_invariant "league_2025" ops) as [H _].
  apply (H "P01"%string). reflexivity.
Defined.

End StandingsTheorems.

(** ** Registry *)

Module RegistryFacts.
Import League DictFacts LeagueFacts.

Lemma player_id_at_inj n m : player_id_at n = player_id_at m -> n = m.
Proof.
  unfold player_id_at. simpl. intros H. injection H as H.
  now apply FmtFacts.fmt_02d_inj.
Qed.

Lemma referee_id_at_inj n m : referee_id_at n = referee_id_at m -> n = m.
Proof.
  unfold referee_id_at. simpl. intros H. injection H as H.
  now apply FmtFacts.fmt_02d_inj.
Qed.

Lemma update_frame s a b w now :
  let s' := update_standings_for_match s a b w now in
  players s' = players s /\ referees s' = referees s
  /\ _next_player_num s' = _next_player_num s
  /\ _next_referee_num s' = _next_referee_num s.
Proof.
  unfold update_standings_for_match.
  destruct (Dict.get (standings s) a), (Dict.get (standings s) b); simpl; auto.
Qed.

Lemma NoDup_map_offsets (f : Z -> string) (base : Z) (n : nat) :
  (forall x y, f x = f y -> x = y) ->
  NoDup (map (fun i => f (base + Z.of_nat i)) (seq 0 n)).
Proof.
  intros Hinj. induction n as [|n IH].
  - constructor.
  - rewrite seq_S, map_app. simpl.
    apply NoDup_app; [assumption | repeat constructor; simpl; tauto |].
    intros x Hx [<- | []].
    apply in_map_iff in Hx. destruct Hx as (i & E & Hi).
    apply Hinj in E. apply in_seq in Hi. lia.
Qed.

(** *** Players *)

Lemma issued_player_ids_spec ops : forall s,
  issued_player_ids s ops
  = map (fun i => player_id_at (_next_player_num s + Z.of_nat i))
        (seq 0 (List.length (issued_player_ids s ops))).
Proof.
  induction ops as [|o ops IH]; intros s; [reflexivity|].
  destruct o as [d e v g m h | d e v g h | a b w now].
  - cbn [issued_player_ids]. etransitivity; [apply IH|]. reflexivity.
  - cbn [issued_player_ids List.length seq map]. f_equal.
    + simpl. unfold player_id_at. now rewrite Z.add_0_r.
    + etransitivity; [apply IH|].
      rewrite <- seq_shift, map_map. apply map_ext. intros i. simpl.
      f_equal. lia.
  - cbn [issued_player_ids]. etransitivity; [apply IH|]. simpl.
    now rewrite (proj1 (proj2 (proj2 (update_frame s a b w now)))).
Qed.

Lemma next_player_run ops : forall s,
  _next_player_num (run s ops)
  = _next_player_num s + Z.of_nat (List.length (issued_player_ids s ops)).
Proof.
  unfold run. induction ops as [|o ops IH]; intros s; simpl; [lia|].
  rewrite IH.
  destruct o as [d e v g m h | d e v g h | a b w now]; simpl; try lia.
  rewrite (proj1 (proj2 (proj2 (update_frame s a b w now)))). lia.
Qed.

Lemma issued_player_ids_app ops1 : forall s ops2,
  issued_player_ids s (ops1 ++ ops2)
  = issued_player_ids s ops1 ++ issued_player_ids (run s ops1) ops2.
Proof.
  unfold run. induction ops1 as [|o ops1 IH]; intros s ops2; [reflexivity|].
  destruct o; cbn [app issued_player_ids fold_left]; rewrite IH; reflexivity.
Qed.

Lemma issued_player_ids_NoDup s ops : NoDup (issued_player_ids s ops).
Proof.
  rewrite issued_player_ids_spec.
  apply NoDup_map_offsets, player_id_at_inj.
Qed.

Lemma players_keys_issued league ops :
  Dict.keys (players (run (init league) ops))
  = issued_player_ids (init league) ops.
Proof.
  induction ops as [|o ops IH] using rev_ind; [reflexivity|].
  rewrite issued_player_ids_app.
  unfold run in *. rewrite fold_left_app. cbn [fold_left].
  set (s := fold_left step ops (init league)) in *.
  destruct o as [d e v g m h | d e v g h | a b w now].
  - simpl. now rewrite app_nil_r.
  - cbn [step register_player fst players issued_player_ids snd player_id].
    rewrite set_fresh.
    + unfold Dict.keys in *. rewrite map_app, IH. reflexivity.
    + rewrite IH. intros Hin.
      pose proof (issued_player_ids_NoDup (init league)
                    (ops ++ [RegisterPlayer d e v g h])) as Hnd.
      rewrite issued_player_ids_app in Hnd.
      cbn [issued_player_ids register_player snd player_id] in Hnd.
      apply NoDup_remove_2 in Hnd. apply Hnd. rewrite app_nil_r. exact Hin.
  - simpl. rewrite app_nil_r.
    now rewrite (proj1 (update_frame s a b w now)).
Qed.

Lemma standings_keys_issued league ops :
  Dict.keys (standings (run (init league) ops))
  = issued_player_ids (init league) ops.
Proof.
  induction ops as [|o ops IH] using rev_ind; [reflexivity|].
  rewrite issued_player_ids_app.
  unfold run in *. rewrite fold_left_app. cbn [fold_left].
  set (s := fold_left step ops (init league)) in *.
  destruct o as [d e v g m h | d e v g h | a b w now].
  - simpl. now rewrite app_nil_r.
  - cbn [step register_player fst standings issued_player_ids snd player_id].
    rewrite set_fresh.
    + unfold Dict.keys in *. rewrite map_app, IH. reflexivity.
    + rewrite IH. intros Hin.
      pose proof (issued_player_ids_NoDup (init league)
                    (ops ++ [RegisterPlayer d e v g h])) as Hnd.
      rewrite issued_player_ids_app in Hnd.
      cbn [issued_player_ids register_player snd player_id] in Hnd.
      apply NoDup_remove_2 in Hnd. apply Hnd. rewrite app_nil_r. exact Hin.
  - cbn [step issued_player_ids]. rewrite app_nil_r, standings_update.
    destruct (Dict.get (standings s) a), (Dict.get (standings s) b); auto.
    now rewrite keys_apply_result.
Qed.

(** *** Referees *)

Lemma issued_referee_ids_spec ops : forall s,
  issued_referee_ids s ops
  = map (fun i => referee_id_at (_next_referee_num s + Z.of_nat i))
        (seq 0 (List.length (issued_referee_ids s ops))).
Proof.
  induction ops as [|o ops IH]; intros s; [reflexivity|].
  destruct o as [d e v g m h | d e v g h | a b w now].
  - cbn [issued_referee_ids List.length seq map]. f_equal.
    + simpl. unfold referee_id_at. now rewrite Z.add_0_r.
    + etransitivity; [apply IH|].
      rewrite <- seq_shift, map_map. apply map_ext. intros i. simpl.
      f_equal. lia.
  - cbn [issued_referee_ids]. etransitivity; [apply IH|]. reflexivity.
  - cbn [issued_referee_ids]. etransitivity; [apply IH|]. simpl.
    now rewrite (proj2 (proj2 (proj2 (update_frame s a b w now)))).
Qed.

Lemma issued_referee_ids_app ops1 : forall s ops2,
  issued_referee_ids s (ops1 ++ ops2)
  = issued_referee_ids s ops1 ++ issued_referee_ids (run s ops1) ops2.
Proof.
  unfold run. induction ops1 as [|o ops1 IH]; intros s ops2; [reflexivity|].
  destruct o; cbn [app issued_referee_ids fold_left]; rewrite IH; reflexivity.
Qed.

Lemma issued_referee_ids_NoDup s ops : NoDup (issued_referee_ids s ops).
Proof.
  rewrite issued_referee_ids_spec.
  apply NoDup_map_offsets, referee_id_at_inj.
Qed.

Lemma referees_keys_issued league ops :
  Dict.keys (referees (run (init league) ops))
  = issued_referee_ids (init league) ops.
Proof.
  induction ops as [|o ops IH] using rev_ind; [reflexivity|].
  rewrite issued_referee_ids_app.
  unfold run in *. rewrite fold_left_app. cbn [fold_left].
  set (s := fold_left step ops (init league)) in *.
  destruct o as [d e v g m h | d e v g h | a b w now].
  - cbn [step register_referee fst referees issued_referee_ids snd referee_id].
    rewrite set_fresh.
    + unfold Dict.keys in *. rewrite map_app, IH. reflexivity.
    + rewrite IH. intros Hin.
      pose proof (issued_referee_ids_NoDup (init league)
                    (ops ++ [RegisterReferee d e v g m h])) as Hnd.
      rewrite issued_referee_ids_app in Hnd.
      cbn [issued_referee_ids register_referee snd referee_id] in Hnd.
      apply NoDup_remove_2 in Hnd. apply Hnd. rewrite app_nil_r. exact Hin.
  - simpl. now rewrite app_nil_r.
  - simpl. rewrite app_nil_r.
    now rewrite (proj1 (proj2 (update_frame s a b w now))).
Qed.

End RegistryFacts.

Module RegistryTheorems.
Import League DictFacts LeagueFacts RegistryFacts.

(** C7: along any sequence of League Manager operations from the
    initial state, the player ids handed out are pairwise distinct and
    so are the referee ids; the registry holds exactly one entry per
    registration call, in call order; a further registration gets an id
    that no earlier call of that role got, stores the identity under
    it, and (for a player) creates the standings row with played, wins,
    draws, losses and points all zero. Repeating a call with the same
    arguments yields a second, different identity. *)
Theorem registration_allocates_fresh_ids (league : string) (ops : list Op) :
  let s := run (init league) ops in
  NoDup (issued_player_ids (init league) ops)
  /\ NoDup (issued_referee_ids (init league) ops)
  /\ Dict.keys (players s) = issued_player_ids (init league) ops
  /\ Dict.keys (referees s) = issued_referee_ids (init league) ops
  /\ (forall d e v g h,
        let (s1, p) := register_player s d e v g h in
        ~ In (player_id p) (issued_player_ids (init league) ops)
        /\ Dict.get (players s1) (player_id p) = Some p
        /\ Dict.get (standings s1) (player_id p)
           = Some (mkStanding (player_id p) d 0 0 0 0 0)
        /\ player_id (snd (register_player s1 d e v g h)) <> player_id p)
  /\ (forall d e v g m h,
        let (s1, r) := register_referee s d e v g m h in
        ~ In (referee_id r) (issued_referee_ids (init league) ops)
        /\ Dict.get (referees s1) (referee_id r) = Some r
        /\ referee_id (snd (register_referee s1 d e v g m h)) <> referee_id r).
Proof.
  intros s. subst s.
  split; [apply issued_player_ids_NoDup|].
  split; [apply issued_referee_ids_NoDup|].
  split; [apply players_keys_issued|].
  split; [apply referees_keys_issued|].
  split.
  - intros d e v g h.
    pose proof (issued_player_ids_NoDup (init league)
                  (ops ++ [RegisterPlayer d e v g h])) as Hnd.
    rewrite issued_player_ids_app in Hnd.
    cbn [issued_player_ids register_player snd player_id] in Hnd.
    apply NoDup_remove_2 in Hnd. rewrite app_nil_r in Hnd.
    cbn [register_player player_id players standings].
    repeat split.
    + exact Hnd.
    + apply get_set_eq.
    + apply get_set_eq.
    + simpl. intros E. injection E as E.
      apply FmtFacts.fmt_02d_inj in E. lia.
  - intros d e v g m h.
    pose proof (issued_referee_ids_NoDup (init league)
                  (ops ++ [RegisterReferee d e v g m h])) as Hnd.
    rewrite issued_referee_ids_app in Hnd.
    cbn [issued_referee_ids register_referee snd referee_id] in Hnd.
    apply NoDup_remove_2 in Hnd. rewrite app_nil_r in Hnd.
    cbn [register_referee referee_id referees].
    repeat split.
    + exact Hnd.
    + apply get_set_eq.
    + simpl. intros E. injection E as E.
      apply FmtFacts.fmt_02d_inj in E. lia.
Qed.

End RegistryTheorems.

(** ** Ranking *)

Module RankingFacts.
Import League.

Lemma key_leb_ranked x y :
  key_leb (sort_key x) (sort_key y) = true <-> ranked_before x y.
Proof.
  unfold key_leb, sort_key, ranked_before.
  rewrite !orb_true_iff, !andb_true_iff, !orb_true_iff, !andb_true_iff.
  rewrite !Z.ltb_lt, !Z.eqb_eq, Z.leb_le. lia.
Qed.

Lemma ranked_before_total x y : ranked_before x y \/ ranked_before y x.
Proof. unfold ranked_before. lia. Qed.

Lemma ranked_before_trans x y z :
  ranked_before x y -> ranked_before y z -> ranked_before x z.
Proof. unfold ranked_before. lia. Qed.

Lemma insert_by_key_perm x l : Permutation (insert_by_key x l) (x :: l).
Proof.
  induction l as [|y ys IH]; cbn [insert_by_key]; auto.
  destruct (key_leb (sort_key x) (sort_key y)); auto.
  apply perm_trans with (y :: x :: ys); [now apply perm_skip | apply perm_swap].
Qed.

Lemma sorted_by_key_perm l : Permutation (sorted_by_key l) l.
Proof.
  induction l as [|x xs IH]; simpl; auto.
  apply perm_trans with (x :: sorted_by_key xs);
    [apply insert_by_key_perm | now apply perm_skip].
Qed.

Lemma insert_by_key_sorted x l :
  Sorted ranked_before l -> Sorted ranked_before (insert_by_key x l).
Proof.
  induction 1 as [|y ys Hs IH Hhd]; cbn [insert_by_key].
  - apply Sorted_cons; [apply Sorted_nil | apply HdRel_nil].
  - destruct (key_leb (sort_key x) (sort_key y)) eqn:E.
    + apply key_leb_ranked in E.
      apply Sorted_cons; [now apply Sorted_cons | now apply HdRel_cons].
    + assert (Hyx : ranked_before y x).
      { destruct (ranked_before_total x y) as [H | H]; auto.
        apply key_leb_ranked in H. congruence. }
      apply Sorted_cons; [exact IH|].
      destruct ys as [|z zs]; cbn [insert_by_key].
      * now apply HdRel_cons.
      * destruct (key_leb (sort_key x) (sort_key z)); apply HdRel_cons; auto.
        now inversion Hhd.
Qed.

Lemma sorted_by_key_sorted l : StronglySorted ranked_before (sorted_by_key l).
Proof.
  apply Sorted_StronglySorted.
  - intros x y z. apply ranked_before_trans.
  - induction l as [|x xs IH]; simpl.
    + constructor.
    + now apply insert_by_key_sorted.
Qed.

Lemma enumerate_rows_row l : forall r0, map row (enumerate_rows r0 l) = l.
Proof. induction l as [|x xs IH]; intros r0; simpl; congruence. Qed.

Lemma enumerate_rows_rank l : forall r0,
  map rank (enumerate_rows r0 l)
  = map (fun i => r0 + Z.of_nat i) (seq 1 (List.length l)).
Proof.
  induction l as [|x xs IH]; intros r0; [reflexivity|].
  cbn [enumerate_rows map List.length seq rank].
  assert (r0 + 1 = r0 + Z.of_nat 1) as <- by lia. f_equal.
  rewrite IH, <- (seq_shift _ 1), map_map. apply map_ext. intros i. lia.
Qed.

End RankingFacts.

Module RankingTheorems.
Import League RankingFacts.

(** C8: whatever the standings map holds, [get_ranked_standings]
    returns all of its rows, each once, ordered so that points never
    increase, rows level on points have non-increasing wins, and rows
    level on both have non-increasing draws (every row stands in that
    relation to every later row); the rank fields are 1, 2, ..., n in
    output order. *)
Theorem get_ranked_standings_ranked (s : LeagueState) :
  let out := get_ranked_standings s in
  Permutation (map row out) (Dict.values (standings s))
  /\ StronglySorted ranked_before (map row out)
  /\ map rank out = map Z.of_nat (seq 1 (List.length out)).
Proof.
  unfold get_ranked_standings. cbv zeta.
  rewrite enumerate_rows_row, enumerate_rows_rank.
  split; [apply sorted_by_key_perm | split; [apply sorted_by_key_sorted|]].
  assert (List.length (enumerate_rows 0 (sorted_by_key (Dict.values (standings s))))
          = List.length (sorted_by_key (Dict.values (standings s)))) as ->.
  { rewrite <- (enumerate_rows_row (sorted_by_key _) 0) at 2.
    now rewrite length_map. }
  apply map_ext. intros i. lia.
Qed.

End RankingTheorems.

(** ** League Manager handlers *)

Module LeagueHandlersTheorems.
Import LeagueHandlers.

Lemma find_and_complete_unknown sch mid result :
  (forall m, In m sch -> Json.eq_str mid (match_id m) = false) ->
  find_and_complete sch mid result = None.
Proof.
  induction sch as [|m sch IH]; intros H; simpl; auto.
  rewrite (H m) by now left.
  rewrite IH; auto. intros m' Hm'. apply H. now right.
Qed.

(** Matches scheduled from the registry are between two different
    registered players, each with a standings row: the situation in
    which the standings update does its work. *)
Lemma scheduled_match_participants league ops m :
  let s := League.run (League.init league) ops in
  In m (schedule (create_schedule s)) ->
  player_a_id m <> player_b_id m
  /\ (exists row, Dict.get (standings s) (player_a_id m) = Some row)
  /\ (exists row, Dict.get (standings s) (player_b_id m) = Some row).
Proof.
  intros s Hm. unfold create_schedule in Hm. cbn [League.with_schedule schedule] in Hm.
  assert (Hp : In (Scheduler.players_of m)
                  (Scheduler.combinations2 (Dict.keys (players s)))).
  { rewrite <- SchedulerFacts.schedule_players. now apply in_map. }
  assert (Hnd : NoDup (Dict.keys (players s))).
  { subst s. rewrite RegistryFacts.players_keys_issued.
    apply RegistryFacts.issued_player_ids_NoDup. }
  unfold Scheduler.players_of in Hp.
  pose proof (SchedulerFacts.combinations2_distinct _ _ _ _ Hnd Hp) as Hne.
  apply SchedulerFacts.combinations2_In in Hp. destruct Hp as [Ha Hb].
  assert (Hrow : forall k, In k (Dict.keys (players s)) ->
                           exists row, Dict.get (standings s) k = Some row).
  { intros k Hk. destruct (Dict.get (standings s) k) eqn:E; eauto.
    apply DictFacts.get_none_notin in E. exfalso. apply E.
    subst s. rewrite RegistryFacts.standings_keys_issued.
    now rewrite <- RegistryFacts.players_keys_issued. }
  auto.
Qed.

(** C10 (as amended): a report whose [match_id] names no scheduled
    match leaves the whole league state as it was (standings, every
    match of the schedule, and the files on disk), whatever else it
    holds. When its [result] is absent or a JSON object, the handler
    still answers with the MATCH_RESULT_ACK whose status is RECORDED
    and whose [match_id] is the reported one. When its [result] is
    present and not an object (null, a string, a number, a list), the
    handler raises [AttributeError], from [result.get("winner")] in its
    first log line, and answers nothing. *)
Theorem report_for_unknown_match
        (s : LeagueState) (params : Dict.t json) (request_id : json) (ts : Stamps) :
  (forall m, In m (schedule s) ->
             Json.eq_str (Json.get (JObj params) "match_id") (match_id m) = false) ->
  let out := handle_report_match_result s params request_id ts in
  fst out = s
  /\ (Dict.get params "result" = None
      \/ (exists r, Dict.get params "result" = Some (JObj r)) ->
      exists ack,
        snd out = Returned ack
        /\ Json.has ack "error" = false
        /\ Json.get (Json.get ack "result") "message_type" = JStr "MATCH_RESULT_ACK"
        /\ Json.get (Json.get ack "result") "status" = JStr "RECORDED"
        /\ Json.get (Json.get ack "result") "match_id"
           = Json.get (JObj params) "match_id")
  /\ (forall v, Dict.get params "result" = Some v -> Json.is_obj v = false ->
                snd out = Raised "AttributeError").
Proof.
  intros Hunknown out. subst out. unfold handle_report_match_result.
  rewrite find_and_complete_unknown by assumption.
  unfold Json.get_or_empty.
  destruct (Dict.get params "result") as [v|] eqn:E.
  - destruct (Json.is_obj v) eqn:Ev; cbn [negb fst snd].
    + split; [reflexivity|]. split.
      * intros _. eexists. split; [reflexivity|]. repeat split.
      * intros v' Hv' Ho. injection Hv' as <-. congruence.
    + split; [reflexivity|]. split.
      * intros [H | [r H]]; [discriminate H|].
        injection H as ->. discriminate Ev.
      * reflexivity.
  - cbn [Json.is_obj negb fst snd]. split; [reflexivity|]. split.
    + intros _. eexists. split; [reflexivity|]. repeat split.
    + intros v Hv. discriminate Hv.
Qed.

Lemma report_for_unknown_match_witness :
  let s0 := fst (League.register_player (League.init "league_2025") "Alpha"
                   "http://localhost:8101/mcp" "1.0.0" None "00") in
  let s1 := fst (League.register_player s0 "Beta"
                   "http://localhost:8102/mcp" "1.0.0" None "01") in
  let s := create_schedule s1 in
  let params := [("match_id", JStr "R9M9");
                 ("round_id", JInt 9);
                 ("conversation_id", JStr "conv-R9M9-report");
                 ("result", JObj [("winner", JStr "P01")])]%string in
  let out := handle_report_match_result s params (JInt 7) (mkStamps "t1" "t2" "t3") in
  fst out = s
  /\ exists ack,
       snd out = Returned ack
       /\ Json.get (Json.get ack "result") "status" = JStr "RECORDED".
Proof.
  intros s0 s1 s params out.
  destruct (report_for_unknown_match s params (JInt 7) (mkStamps "t1" "t2" "t3"))
    as (Hs & Hack & _).
  - intros m Hm. vm_compute in Hm.
    destruct Hm as [<- | []]. reflexivity.
  - split; [exact Hs|].
    destruct Hack as (ack & Hr & _ & _ & Hst & _).
    + right. eexists. reflexivity.
    + exists ack. split; assumption.
Defined.

(** C10 (as stated) fails for a report whose [result] is null: the
    match is not scheduled, the state is left as it was, and the
    handler raises instead of acknowledging. *)
Lemma report_with_null_result_counterexample :
  let s0 := fst (League.register_player (League.init "league_2025") "Alpha"
                   "http://localhost:8101/mcp" "1.0.0" None "00") in
  let s1 := fst (League.register_player s0 "Beta"
                   "http://localhost:8102/mcp" "1.0.0" None "01") in
  let s := create_schedule s1 in
  let params := [("match_id", JStr "R9M9");
                 ("round_id", JInt 9);
                 ("conversation_id", JStr "conv-R9M9-report");
                 ("result", JNull)]%string in
  let ts := mkStamps "t1" "t2" "t3" in
  map match_id (schedule s) = ["R1M1"%string]
  /\ handle_report_match_result s params (JInt 7) ts = (s, Raised "AttributeError")
  /\ ~ Specified.unknown_report_recorded s params (JInt 7) ts.
Proof.
  intros s0 s1 s params ts.
  split; [reflexivity|]. split; [reflexivity|].
  intros H. destruct H as (_ & ack & Hr & _).
  - intros m Hm. vm_compute in Hm. destruct Hm as [<- | []]. reflexivity.
  - vm_compute in Hr. discriminate Hr.
Qed.

End LeagueHandlersTheorems.

Module RefereeFacts.
Import Referee RefereeHandlers.

Section Runs.
Variable env : Env.

Lemma invitation_run ep mid rid pid opp role conv w r :
  HttpClient.call_result (client w) (network env (n_calls w)) = Returned r ->
  exists c,
    _send_game_invitation env ep mid rid pid opp role conv w
    = (mkWorld (rstate w) (HttpClient.next_client (client w))
               (sent w ++ [c])
               (wire w ++ snd (fst (HttpClient.call
                                      (client w) (network env (n_calls w)) ep
                                      "handle_game_invitation" (rpc_params c) 5)))
               (logged w ++ [("SENT", "GAME_INVITATION")%string])
               (S (n_calls w)) (S (n_ticks w)),
       Returned r)
    /\ c = mkSent true ep "handle_game_invitation" (rpc_params c) 5.
Proof.
  intros Hr. unfold _send_game_invitation, bind, get_state, utc_timestamp, log,
    client_call. simpl.
  match goal with
  | |- context [HttpClient.call ?c ?net ?e ?m ?p ?t] =>
      destruct (HttpClientFacts.call_spec c net e m p t) as [evs E];
      exists (mkSent true e m p t); cbn [rpc_params]; rewrite E
  end.
  rewrite Hr. split; reflexivity.
Qed.



Lemma check_join_ack_joined r pid mid w :
  join_accepted r mid = true ->
  _check_join_ack r pid mid w
  = (mkWorld (fst (player_joined (rstate w) mid pid))
             (client w) (sent w) (wire w) (logged w) (n_calls w) (n_ticks w),
     Returned true).
Proof.
  unfold join_accepted, _check_join_ack. intros H.
  apply andb_true_iff in H. destruct H as [H Hm].
  apply andb_true_iff in H. destruct H as [H Ht].
  apply andb_true_iff in H. destruct H as [He Ho].
  apply negb_true_iff in He.
  destruct r as [| | | | |d]; try discriminate Ht.
  unfold bind, error_in, result_of, ret.
  change (Dict.mem d "error") with (Json.has (JObj d) "error"). rewrite He.
  destruct (Json.get_or_empty (JObj d) "result") eqn:E; try discriminate Ho.
  unfold bind, dict_get, ret, get_state, put_state. rewrite Ht, Hm. reflexivity.
Qed.

(** Reading an answer that is not [readable] raises, before anything
    is logged or written. *)
Lemma unreadable_raises {A : Type} r (k_err : M A) (k_ok : json -> M A) w :
  readable r = false ->
  (forall v w', Json.is_obj v = false -> k_ok v w' = (w', Raised "AttributeError")) ->
  (failed <- error_in r ;;
   if failed then error_of r ;;; k_err
   else result <- result_of r ;; k_ok result) w
  = (w, Raised (read_error r)).
Proof.
  unfold readable, bind, error_in, error_of, result_of, ret, raise, read_error.
  intros H Hk.
  destruct r as [| |n|s|l|d]; cbn [Json.is_obj andb] in H; try reflexivity.
  - destruct (str_contains s "error"); reflexivity.
  - destruct (existsb _ l); reflexivity.
  - change (Dict.mem d "error") with (Json.has (JObj d) "error").
    apply orb_false_iff in H. destruct H as [He Ho]. rewrite He.
    now apply Hk.
Qed.

(** A malformed acknowledgement. *)
Lemma check_join_ack_raises r pid mid w :
  readable r = false ->
  _check_join_ack r pid mid w = (w, Raised (read_error r)).
Proof.
  intros H. unfold _check_join_ack.
  apply (unreadable_raises r _ _ w H).
  intros v w' Hv. destruct v; try discriminate Hv; reflexivity.
Qed.


End Runs.


(** What the transport client returns after exhausting its retries, or
    on an HTTP error status, counts as a failure to join. *)
Lemma transport_error_is_join_failure (last : option string) (e : string)
      (id : Z) (mid : string) :
  join_failed (HttpClient.retries_exhausted last id) mid = true
  /\ join_failed (HttpClient.http_error e id) mid = true.
Proof. split; reflexivity. Qed.

(** *** Counting invitations on the wire *)





End RefereeFacts.

Module RefereeTheorems.
Import Referee RefereeHandlers RefereeFacts.


















End RefereeTheorems.

(* ------------------------------------------------------------------ *)
(** ** Further properties of the code *)

Module MatchIdFacts.
Import Scheduler.

Lemma occurs_app c s1 s2 :
  Fmt.occurs c (s1 ++ s2)%string = Fmt.occurs c s1 || Fmt.occurs c s2.
Proof.
  induction s1 as [|c1 s1 IH]; simpl; auto.
  now rewrite IH, orb_assoc.
Qed.

(** A decimal numeral holds digits and at most a sign. *)
Lemma uint_without_M d : Fmt.occurs "M" (NilEmpty.string_of_uint d) = false.
Proof. induction d; simpl; auto. Qed.

Lemma str_without_M n : Fmt.occurs "M" (Fmt.str n) = false.
Proof.
  unfold Fmt.str. destruct (Z.to_int n); simpl; apply uint_without_M.
Qed.

(** Splitting at the first ["M"] is unambiguous. *)
Lemma split_at_M a : forall a' b b',
  Fmt.occurs "M" a = false -> Fmt.occurs "M" a' = false ->
  (a ++ String "M" b)%string = (a' ++ String "M" b')%string ->
  a = a' /\ b = b'.
Proof.
  induction a as [|c a IH]; intros [|c' a'] b b' Ha Ha' E; simpl in *.
  - injection E as <-. auto.
  - injection E as <- _. simpl in Ha'. discriminate.
  - injection E as -> _. simpl in Ha. discriminate.
  - injection E as <- E.
    apply orb_false_iff in Ha, Ha'.
    destruct (IH a' b b' (proj2 Ha) (proj2 Ha') E) as [-> ->]. auto.
Qed.

Lemma match_id_at_inj k k' : match_id_at k = match_id_at k' -> k = k'.
Proof.
  unfold match_id_at. intros E. injection E as E.
  apply split_at_M in E; try apply str_without_M.
  apply FmtFacts.str_inj. tauto.
Qed.

Lemma loop_ids pairs : forall k acc,
  map match_id (schedule_loop pairs k acc)
  = map match_id acc
    ++ map (fun i => match_id_at (k + Z.of_nat i)) (seq 0 (List.length pairs)).
Proof.
  induction pairs as [|p rest IH]; intros k acc.
  - simpl. now rewrite app_nil_r.
  - cbn [schedule_loop List.length seq map].
    rewrite IH, map_app, <- app_assoc. f_equal. simpl. f_equal.
    + unfold match_id_at. now rewrite Z.add_0_r.
    + rewrite <- seq_shift, map_map. apply map_ext. intros i.
      f_equal. lia.
Qed.

Lemma schedule_ids ids :
  map match_id (create_round_robin_schedule ids)
  = map (fun i => match_id_at (Z.of_nat i + 1))
        (seq 0 (List.length (combinations2 ids))).
Proof.
  unfold create_round_robin_schedule. rewrite loop_ids.
  cbn [map app]. apply map_ext. intros i. f_equal. lia.
Qed.

Lemma schedule_ids_NoDup ids :
  NoDup (map match_id (create_round_robin_schedule ids)).
Proof.
  rewrite schedule_ids.
  rewrite (map_ext _ (fun i => match_id_at (1 + Z.of_nat i)))
    by (intros; f_equal; lia).
  apply RegistryFacts.NoDup_map_offsets. exact match_id_at_inj.
Qed.

End MatchIdFacts.

Module RoundFacts.
Import Scheduler SchedulerFacts.

(** The round of the match at position [i]. *)
#[local] Abbreviation round_at := (fun i : nat => Z.of_nat i / 2 + 1).

Lemma round_at_mono i j : (i <= j)%nat -> round_at i <= round_at j.
Proof.
  intros H. apply Z.add_le_mono_r. apply Z.div_le_mono; lia.
Qed.

Lemma max_rounds n : forall s a,
  a <= round_at s ->
  fold_left Z.max (map round_at (seq s n)) a
  = if (n =? 0)%nat then a else round_at (s + n - 1)%nat.
Proof.
  induction n as [|n IH]; intros s a Ha.
  - reflexivity.
  - cbn [seq map fold_left]. rewrite IH.
    + destruct n as [|n]; cbn [Nat.eqb].
      * rewrite Nat.add_sub. cbv beta in *. lia.
      * cbv beta. do 3 f_equal. lia.
    + pose proof (round_at_mono s (S s) ltac:(lia)). cbv beta in *. lia.
Qed.

Lemma total_rounds_of (sch : list Match) (T : nat) :
  map round_id sch = map round_at (seq 0 T) ->
  get_total_rounds sch = (Z.of_nat T + 1) / 2.
Proof.
  intros H. unfold get_total_rounds.
  destruct sch as [|m rest]; destruct T as [|T]; try discriminate H.
  - reflexivity.
  - cbn [map seq] in H. injection H as Hm Hrest.
    rewrite Hm, Hrest, max_rounds by (vm_compute; discriminate).
    destruct T as [|T]; [reflexivity|].
    cbn [Nat.eqb].
    replace (Z.of_nat (S (S T)) + 1) with (Z.of_nat (1 + S T - 1) + 1 * 2) by lia.
    rewrite Z.div_add by lia. lia.
Qed.

(** *** Rounds of a schedule whose round ids never decrease *)

Lemma filter_none (A : Type) (p : A -> bool) (l : list A) :
  Forall (fun x => p x = false) l -> filter p l = [].
Proof.
  induction 1 as [|x l Hx _ IH]; simpl; [reflexivity|]. now rewrite Hx.
Qed.

Lemma filter_all (A : Type) (p : A -> bool) (l : list A) :
  Forall (fun x => p x = true) l -> filter p l = l.
Proof.
  induction 1 as [|x l Hx _ IH]; simpl; [reflexivity|]. now rewrite Hx, IH.
Qed.

Lemma rounds_below_next (sch : list Match) (r : Z) :
  StronglySorted (fun x y => round_id x <= round_id y) sch ->
  filter (fun m => round_id m <? r) sch ++ get_matches_for_round sch r
  = filter (fun m => round_id m <? r + 1) sch.
Proof.
  unfold get_matches_for_round.
  induction 1 as [|m l Hl IH Hm]; [reflexivity|].
  cbn [filter].
  destruct (Z.ltb_spec (round_id m) r) as [Hlt | Hge].
  - destruct (Z.eqb_spec (round_id m) r); [lia|].
    destruct (Z.ltb_spec (round_id m) (r + 1)); [|lia].
    cbn [app]. now rewrite IH.
  - rewrite (filter_none _ (fun x => round_id x <? r) l) in *
      by (eapply Forall_impl; [|exact Hm]; cbv beta; intros; lia).
    cbn [app] in *.
    destruct (Z.eqb_spec (round_id m) r);
      destruct (Z.ltb_spec (round_id m) (r + 1)); try lia.
    + now rewrite IH.
    + exact IH.
Qed.

Lemma rounds_up_to (sch : list Match) :
  StronglySorted (fun x y => round_id x <= round_id y) sch ->
  Forall (fun m => 1 <= round_id m) sch ->
  forall n,
    flat_map (get_matches_for_round sch)
             (map (fun i => Z.of_nat i + 1) (seq 0 n))
    = filter (fun m => round_id m <? Z.of_nat n + 1) sch.
Proof.
  intros Hs Hlow. induction n as [|n IH].
  - simpl. symmetry. apply filter_none.
    eapply Forall_impl; [|exact Hlow]. cbv beta. intros; lia.
  - rewrite seq_S, map_app, flat_map_app, IH. cbn [map flat_map Nat.add].
    rewrite app_nil_r, rounds_below_next by assumption.
    apply filter_ext. intros m. f_equal. lia.
Qed.

Lemma sorted_by_round (sch : list Match) : forall s T,
  map round_id sch = map round_at (seq s T) ->
  StronglySorted (fun x y => round_id x <= round_id y) sch.
Proof.
  induction sch as [|m sch IH]; intros s T H; [constructor|].
  destruct T as [|T]; [discriminate|]. cbn [seq map] in H.
  injection H as Hm Hrest. constructor; [eauto|].
  apply Forall_forall. intros x Hx.
  apply (in_map round_id) in Hx. rewrite Hrest in Hx.
  apply in_map_iff in Hx. destruct Hx as (i & <- & Hi).
  apply in_seq in Hi. rewrite Hm. apply round_at_mono. lia.
Qed.

Lemma schedule_total_rounds ids :
  get_total_rounds (create_round_robin_schedule ids)
  = (Z.of_nat (List.length (create_round_robin_schedule ids)) + 1) / 2.
Proof.
  rewrite schedule_length. apply total_rounds_of. apply schedule_rounds.
Qed.

Lemma schedule_round_bounds ids m :
  In m (create_round_robin_schedule ids) ->
  1 <= round_id m <= get_total_rounds (create_round_robin_schedule ids).
Proof.
  intros Hm. rewrite schedule_total_rounds.
  apply (in_map round_id) in Hm. rewrite schedule_rounds in Hm.
  apply in_map_iff in Hm. destruct Hm as (i & <- & Hi).
  apply in_seq in Hi. rewrite <- schedule_length in Hi.
  pose proof (Z.div_pos (Z.of_nat i) 2 ltac:(lia) ltac:(lia)).
  split; [lia|].
  replace (Z.of_nat (List.length (create_round_robin_schedule ids)) + 1)
    with (Z.of_nat (List.length (create_round_robin_schedule ids)) - 1 + 1 * 2)
    by lia.
  rewrite Z.div_add by lia. apply Z.add_le_mono_r. apply Z.div_le_mono; lia.
Qed.

End RoundFacts.

Module RoundTheorems.
Import Scheduler SchedulerFacts MatchIdFacts RoundFacts.

(** X1: the match identifiers of a schedule are pairwise distinct,
    whatever the list of players. *)
Theorem match_ids_distinct (player_ids : list string) :
  NoDup (map match_id (create_round_robin_schedule player_ids)).
Proof.
  apply schedule_ids_NoDup.
Qed.

(** X2: [get_total_rounds] of a schedule of T matches is ceil(T/2),
    with T = n(n-1)/2 for n players; every match lies in one of the
    rounds 1 .. [get_total_rounds]; with fewer than two players there is
    no match and the total is 0. *)
Theorem total_rounds_of_schedule (player_ids : list string) :
  let sch := create_round_robin_schedule player_ids in
  let n := List.length player_ids in
  List.length sch = (n * (n - 1) / 2)%nat
  /\ get_total_rounds sch = (Z.of_nat (List.length sch) + 1) / 2
  /\ (forall m, In m sch -> 1 <= round_id m <= get_total_rounds sch)
  /\ ((n < 2)%nat -> sch = [] /\ get_total_rounds sch = 0).
Proof.
  intros sch n. subst sch n.
  assert (Hlen : List.length (create_round_robin_schedule player_ids)
                 = (List.length player_ids * (List.length player_ids - 1) / 2)%nat).
  { rewrite schedule_length. apply combinations2_length. }
  split; [exact Hlen | split; [apply schedule_total_rounds | split]].
  - apply schedule_round_bounds.
  - intros Hn.
    assert (E : create_round_robin_schedule player_ids = []).
    { apply length_zero_iff_nil. rewrite Hlen.
      destruct player_ids as [|x [|y l]]; simpl in *; auto; lia. }
    rewrite E. auto.
Qed.

(** X3: going through the rounds 1 .. [get_total_rounds] in order and
    taking [get_matches_for_round] of each gives back the schedule,
    every match once and in schedule order; a round number outside
    that range has no match. *)
Theorem rounds_partition_schedule (player_ids : list string) :
  let sch := create_round_robin_schedule player_ids in
  flat_map (get_matches_for_round sch) (round_numbers (get_total_rounds sch)) = sch
  /\ (forall r, r < 1 \/ get_total_rounds sch < r ->
                get_matches_for_round sch r = []).
Proof.
  intros sch.
  pose proof (schedule_round_bounds player_ids) as Hin. fold sch in Hin.
  split.
  - unfold round_numbers. rewrite rounds_up_to.
    + apply filter_all. apply Forall_forall. intros m Hm.
      specialize (Hin m Hm). apply Z.ltb_lt. lia.
    + apply (sorted_by_round sch 0%nat _ (schedule_rounds player_ids)).
    + apply Forall_forall. intros m Hm. now apply Hin.
  - intros r Hr. apply filter_none. apply Forall_forall. intros m Hm.
    specialize (Hin m Hm). apply Z.eqb_neq. lia.
Qed.

End RoundTheorems.

Module LedgerFacts.
Import League DictFacts LeagueFacts.

(** *** What one update does to a row *)

(** Every row after an update is a row from before, with counters that
    grew by some [dw] wins, [dd] draws and [dl] losses, and points by
    [3 dw + dd]. *)
Lemma apply_result_row d a b w k row' :
  Dict.get (apply_result d a b w) k = Some row' ->
  exists row,
    Dict.get d k = Some row
    /\ st_player_id row' = st_player_id row
    /\ st_display_name row' = st_display_name row
    /\ 0 <= wins row' - wins row
    /\ 0 <= draws row' - draws row
    /\ 0 <= losses row' - losses row
    /\ played row' - played row
       = (wins row' - wins row) + (draws row' - draws row)
         + (losses row' - losses row)
    /\ points row' - points row
       = 3 * (wins row' - wins row) + (draws row' - draws row).
Proof.
  intros Hget. unfold apply_result in Hget.
  destruct (Json.is_none w); [|destruct (Json.eq_str w a)];
    crunch_rows Hget; injection Hget as <-;
    eexists; (split; [reflexivity|]);
    cbn [played wins draws losses points st_player_id st_display_name
         add_played add_wins add_draws add_losses add_points];
    repeat split; lia.
Qed.

(** *** Sums over the table *)

Lemma total_set_fresh f (d : Dict.t PlayerStanding) k v :
  Dict.get d k = None -> total f (Dict.set d k v) = total f d + f v.
Proof.
  unfold total, Dict.values.
  induction d as [|[k0 v0] d IH]; simpl; intros H.
  - lia.
  - destruct (String.eqb k0 k); [discriminate|]. simpl. rewrite IH by assumption. lia.
Qed.

Lemma total_set_present f (d : Dict.t PlayerStanding) k v v0 :
  Dict.get d k = Some v0 -> total f (Dict.set d k v) = total f d + (f v - f v0).
Proof.
  unfold total, Dict.values.
  induction d as [|[k1 v1] d IH]; simpl; intros H.
  - discriminate.
  - destruct (String.eqb k1 k).
    + injection H as ->. simpl. lia.
    + simpl. rewrite IH by assumption. lia.
Qed.

(** An in-place update that moves the counter [f] by the constant [c]. *)
Lemma total_modify f g c (d : Dict.t PlayerStanding) k :
  (forall v, f (g v) = f v + c) ->
  Dict.mem d k = true ->
  total f (modify d k g) = total f d + c.
Proof.
  unfold modify, Dict.mem. intros Hc Hk.
  destruct (Dict.get d k) as [v|] eqn:E; [|discriminate].
  rewrite (total_set_present f d k (g v) v E), Hc. lia.
Qed.

Lemma mem_modify (d : Dict.t PlayerStanding) k g k' :
  Dict.mem (modify d k g) k' = Dict.mem d k'.
Proof.
  unfold Dict.mem. rewrite get_modify.
  destruct (String.eqb k k'); auto. now destruct (Dict.get d k').
Qed.

Ltac sum_side :=
  first [ rewrite ?mem_modify; assumption
        | intros;
          cbn [played wins draws losses points
               add_played add_wins add_draws add_losses add_points];
          lia ].

Ltac sum_up :=
  repeat first [ rewrite (total_modify _ _ 0) by sum_side
               | rewrite (total_modify _ _ 1) by sum_side
               | rewrite (total_modify _ _ 3) by sum_side ].

(** The table's sums after one update between two players with rows. *)
Lemma totals_apply_result d a b w :
  Dict.mem d a = true -> Dict.mem d b = true ->
  let d' := apply_result d a b w in
  let decided := if Json.is_none w then 0 else 1 in
  total played d' = total played d + 2
  /\ total wins d' = total wins d + decided
  /\ total losses d' = total losses d + decided
  /\ total draws d' = total draws d + 2 * (1 - decided)
  /\ total points d' = total points d + 3 * decided + 2 * (1 - decided).
Proof.
  intros Ha Hb d' decided. subst d' decided. unfold apply_result.
  destruct (Json.is_none w); [|destruct (Json.eq_str w a)].
  all: repeat split.
  all: sum_up; lia.
Qed.

End LedgerFacts.

Module ReachableFacts.
Import League DictFacts LeagueFacts RegistryFacts.

Lemma run_snoc s ops o : run s (ops ++ [o]) = step (run s ops) o.
Proof. unfold run. now rewrite fold_left_app. Qed.

Lemma run_app s ops1 ops2 : run s (ops1 ++ ops2) = run (run s ops1) ops2.
Proof. unfold run. now rewrite fold_left_app. Qed.

(** Induction over the states reached from the initial one. *)
Lemma reachable_ind (league : string) (P : LeagueState -> Prop) :
  P (init league) ->
  (forall ops o, P (run (init league) ops) ->
                 P (step (run (init league) ops) o)) ->
  forall ops, P (run (init league) ops).
Proof.
  intros H0 Hstep ops. induction ops as [|o ops IH] using rev_ind.
  - exact H0.
  - rewrite run_snoc. now apply Hstep.
Qed.

(** The next player id is not in use yet. *)
Lemma next_player_fresh league ops :
  let s := run (init league) ops in
  ~ In (player_id_at (_next_player_num s)) (issued_player_ids (init league) ops).
Proof.
  intros s Hin.
  pose proof (issued_player_ids_NoDup
                (init league) (ops ++ [RegisterPlayer "" "" "" None ""])) as Hnd.
  rewrite issued_player_ids_app in Hnd.
  cbn [issued_player_ids register_player snd player_id] in Hnd.
  apply NoDup_remove_2 in Hnd. apply Hnd. rewrite app_nil_r. exact Hin.
Qed.

Lemma next_player_no_row league ops :
  let s := run (init league) ops in
  Dict.get (standings s) (player_id_at (_next_player_num s)) = None.
Proof.
  intros s. apply get_none_notin. subst s.
  rewrite standings_keys_issued. apply next_player_fresh.
Qed.

Lemma mem_get (V : Type) (d : Dict.t V) k :
  Dict.mem d k = true <-> exists v, Dict.get d k = Some v.
Proof.
  unfold Dict.mem. destruct (Dict.get d k); split; eauto; try discriminate.
  intros [v H]. discriminate.
Qed.

End ReachableFacts.

Module LedgerTheorems.
Import League DictFacts LeagueFacts RegistryFacts LedgerFacts ReachableFacts.

(** X4: in every state reached from the initial one, each standings
    row is filed under its own player id, its counters are not
    negative, and its points are three per win plus one per draw. *)
Theorem points_follow_results (league : string) (ops : list Op)
        (pid : string) (row : PlayerStanding) :
  Dict.get (standings (run (init league) ops)) pid = Some row ->
  st_player_id row = pid
  /\ 0 <= wins row /\ 0 <= draws row /\ 0 <= losses row
  /\ points row = 3 * wins row + draws row.
Proof.
  revert pid row. pattern (run (init league) ops). apply reachable_ind.
  - intros pid row H. discriminate H.
  - intros ops' o IH pid row H.
    destruct o as [d e v g m h | d e v g h | a b w now]; cbn [step] in H.
    + apply IH. exact H.
    + cbn [register_player fst standings] in H.
      match type of H with
      | Dict.get (Dict.set _ ?k _) _ = _ =>
          destruct (String.eqb_spec k pid) as [E | Hne]
      end.
      * rewrite <- E in H. rewrite get_set_eq in H. injection H as <-.
        cbn. repeat split; try lia. exact E.
      * rewrite get_set_ne in H by assumption. now apply IH.
    + rewrite standings_update in H.
      destruct (Dict.get (standings (run (init league) ops')) a) eqn:Ea;
        [destruct (Dict.get (standings (run (init league) ops')) b) eqn:Eb|];
        try (now apply IH).
      apply apply_result_row in H.
      destruct H as (row0 & Hrow0 & Hid & _ & Hw & Hd & Hl & _ & Hp).
      specialize (IH pid row0 Hrow0). rewrite Hid. intuition lia.
Qed.

Lemma points_follow_results_witness :
  let row := mkStanding "P01" "Alpha" 2 1 1 0 4 in
  st_player_id row = "P01"
  /\ 0 <= wins row /\ 0 <= draws row /\ 0 <= losses row
  /\ points row = 3 * wins row + draws row.
Proof.
  pose (ops := [RegisterPlayer "Alpha" "http://localhost:8101/mcp" "1.0.0" None "00";
                RegisterPlayer "Beta" "http://localhost:8102/mcp" "1.0.0" None "01";
                UpdateStandings "P01" "P02" (JStr "P01") "t1";
                UpdateStandings "P02" "P01" JNull "t2"]%string).
  apply (points_follow_results "league_2025" ops "P01"). reflexivity.
Defined.

(** X5: in every state reached from the initial one, summed over the
    whole table, wins equal losses, games played are wins plus draws
    plus losses, points are three per win plus one per draw, and draws
    and games played come in twos (each match counts for both sides). *)
Theorem table_totals_balance (league : string) (ops : list Op) :
  let table := standings (run (init league) ops) in
  total wins table = total losses table
  /\ total played table = total wins table + total draws table + total losses table
  /\ total points table = 3 * total wins table + total draws table
  /\ Z.even (total draws table) = true
  /\ Z.even (total played table) = true.
Proof.
  cbv zeta. pattern (run (init league) ops). apply reachable_ind.
  - repeat split.
  - intros ops' o IH.
    destruct o as [d e v g m h | d e v g h | a b w now]; cbn [step].
    + exact IH.
    + cbn [register_player fst standings].
      rewrite !total_set_fresh by apply next_player_no_row.
      cbn [played wins draws losses points]. rewrite !Z.add_0_r. exact IH.
    + rewrite standings_update.
      destruct (Dict.get (standings (run (init league) ops')) a) eqn:Ea;
        [destruct (Dict.get (standings (run (init league) ops')) b) eqn:Eb|];
        try exact IH.
      assert (Ha : Dict.mem (standings (run (init league) ops')) a = true)
        by (apply mem_get; eauto).
      assert (Hb : Dict.mem (standings (run (init league) ops')) b = true)
        by (apply mem_get; eauto).
      destruct (totals_apply_result _ a b w Ha Hb) as (Hp & Hw & Hl & Hd & Hpt).
      rewrite Hp, Hw, Hl, Hd, Hpt.
      destruct IH as (I1 & I2 & I3 & I4 & I5).
      split; [lia | split; [lia | split; [lia | split]]].
      * rewrite Z.even_add_mul_2. exact I4.
      * change 2 with (2 * 1) at 1. rewrite Z.even_add_mul_2. exact I5.
Qed.

End LedgerTheorems.

Module LookupFacts.
Import League DictFacts LeagueFacts RegistryFacts ReachableFacts.

(** *** Tokens *)

Lemma validate_step s o t :
  validate_auth_token (step s o) t
  = if match token_minted o with
       | Some t' => String.eqb t' t
       | None => false
       end
    then id_issued s o else validate_auth_token s t.
Proof.
  unfold validate_auth_token.
  destruct o as [d e v g m h | d e v g h | a b w now];
    cbn [step register_referee register_player fst auth_tokens token_minted
         id_issued snd referee_id player_id].
  - destruct (String.eqb_spec (generate_auth_token h) t) as [<- | Hne].
    + apply get_set_eq.
    + now apply get_set_ne.
  - destruct (String.eqb_spec (generate_auth_token h) t) as [<- | Hne].
    + apply get_set_eq.
    + now apply get_set_ne.
  - unfold update_standings_for_match.
    destruct (Dict.get (standings s) a), (Dict.get (standings s) b); reflexivity.
Qed.

Lemma validate_run_others ops : forall s t,
  (forall o, In o ops -> token_minted o <> Some t) ->
  validate_auth_token (run s ops) t = validate_auth_token s t.
Proof.
  unfold run. induction ops as [|o ops IH]; intros s t H; [reflexivity|].
  cbn [fold_left]. rewrite IH by (intros; apply H; now right).
  rewrite validate_step.
  specialize (H o (or_introl eq_refl)).
  destruct (token_minted o) as [t'|]; [|reflexivity].
  destruct (String.eqb_spec t' t); [congruence | reflexivity].
Qed.

(** *** Players *)

Lemma players_run_others ops : forall s pid,
  ~ In pid (issued_player_ids s ops) ->
  Dict.get (players (run s ops)) pid = Dict.get (players s) pid.
Proof.
  unfold run. induction ops as [|o ops IH]; intros s pid H; [reflexivity|].
  cbn [fold_left].
  destruct o as [d e v g m h | d e v g h | a b w now];
    cbn [issued_player_ids] in H.
  - now rewrite IH.
  - rewrite IH by (intros Hin; apply H; now right).
    cbn [step register_player fst players]. apply get_set_ne.
    intros E. apply H. left. exact E.
  - rewrite IH by assumption. cbn [step].
    now rewrite (proj1 (update_frame s a b w now)).
Qed.

(** *** Referees *)

Lemma referees_idle league ops :
  Forall (fun r => active_matches r = 0)
         (Dict.values (referees (run (init league) ops))).
Proof.
  pattern (run (init league) ops). apply reachable_ind.
  - constructor.
  - intros ops' o IH.
    destruct o as [d e v g m h | d e v g h | a b w now]; cbn [step].
    + cbn [register_referee fst referees].
      apply values_set_Forall; [exact IH | reflexivity].
    + exact IH.
    + now rewrite (proj1 (proj2 (update_frame _ a b w now))).
Qed.

End LookupFacts.

Module LookupTheorems.
Import League DictFacts LeagueFacts RegistryFacts ReachableFacts LookupFacts.

(** X6: [validate_auth_token] answers with the id handed out by the
    last registration that minted the token: a token that no
    registration minted is unknown; a token stays bound to its holder
    through every later operation that does not mint the same token;
    and when a later registration does draw the same token, the token
    is re-bound to the later agent. *)
Theorem auth_token_names_last_holder (league : string) (ops : list Op) (t : string) :
  let s := run (init league) ops in
  ((forall o, In o ops -> token_minted o <> Some t) ->
   validate_auth_token s t = None)
  /\ (forall ops1 o ops2,
        ops = ops1 ++ o :: ops2 ->
        token_minted o = Some t ->
        (forall o', In o' ops2 -> token_minted o' <> Some t) ->
        validate_auth_token s t = id_issued (run (init league) ops1) o
        /\ id_issued (run (init league) ops1) o <> None).
Proof.
  intros s. subst s. split.
  - intros H. now rewrite validate_run_others.
  - intros ops1 o ops2 -> Ho Hlater.
    change (ops1 ++ o :: ops2) with (ops1 ++ [o] ++ ops2).
    rewrite app_assoc, run_app, validate_run_others by assumption.
    rewrite run_snoc, validate_step, Ho, String.eqb_refl.
    split; [reflexivity|]. destruct o; try discriminate; discriminate.
Qed.

Lemma auth_token_names_last_holder_witness :
  let ops := [RegisterPlayer "Alpha" "http://localhost:8101/mcp" "1.0.0" None "aa";
              RegisterReferee "Ref" "http://localhost:8001/mcp" "1.0.0" None 2 "bb";
              RegisterPlayer "Beta" "http://localhost:8102/mcp" "1.0.0" None "aa";
              UpdateStandings "P01" "P02" JNull "t1"] in
  validate_auth_token (run (init "league_2025") ops) "tok-aa" = Some "P02"
  /\ validate_auth_token (run (init "league_2025") ops) "tok-bb" = Some "REF01"
  /\ validate_auth_token (run (init "league_2025") ops) "tok-cc" = None.
Proof.
  intros ops.
  destruct (auth_token_names_last_holder "league_2025" ops "tok-aa") as [_ Haa].
  destruct (auth_token_names_last_holder "league_2025" ops "tok-bb") as [_ Hbb].
  destruct (auth_token_names_last_holder "league_2025" ops "tok-cc") as [Hcc _].
  split; [|split].
  - apply (Haa [RegisterPlayer "Alpha" "http://localhost:8101/mcp" "1.0.0" None "aa";
                RegisterReferee "Ref" "http://localhost:8001/mcp" "1.0.0" None 2 "bb"]
               (RegisterPlayer "Beta" "http://localhost:8102/mcp" "1.0.0" None "aa")
               [UpdateStandings "P01" "P02" JNull "t1"]); try reflexivity.
    intros o' [<- | []]. discriminate.
  - apply (Hbb [RegisterPlayer "Alpha" "http://localhost:8101/mcp" "1.0.0" None "aa"]
               (RegisterReferee "Ref" "http://localhost:8001/mcp" "1.0.0" None 2 "bb")
               [RegisterPlayer "Beta" "http://localhost:8102/mcp" "1.0.0" None "aa";
                UpdateStandings "P01" "P02" JNull "t1"]); try reflexivity.
    intros o' [<- | [<- | []]]; discriminate.
  - apply Hcc. intros o [<- | [<- | [<- | [<- | []]]]]; discriminate.
Defined.

(** X7: [get_player_endpoint] finds every registered player under the
    id its registration returned, with the endpoint given then,
    whatever was registered or updated afterwards; for an id that no
    registration handed out it returns [None]. *)
Theorem player_endpoint_lookup (league : string) (ops : list Op) :
  let s := run (init league) ops in
  (forall pid, ~ In pid (issued_player_ids (init league) ops) ->
               get_player_endpoint s pid = None)
  /\ (forall ops1 d e v g h ops2,
        ops = ops1 ++ RegisterPlayer d e v g h :: ops2 ->
        let p := snd (register_player (run (init league) ops1) d e v g h) in
        get_player_endpoint s (player_id p) = Some e).
Proof.
  intros s. subst s. split.
  - intros pid Hpid. unfold get_player_endpoint.
    rewrite <- players_keys_issued in Hpid.
    apply get_none_notin in Hpid. now rewrite Hpid.
  - intros ops1 d e v g h ops2 -> p. subst p.
    pose proof (issued_player_ids_NoDup
                  (init league) (ops1 ++ RegisterPlayer d e v g h :: ops2)) as Hnd.
    rewrite issued_player_ids_app in Hnd. cbn [issued_player_ids] in Hnd.
    apply NoDup_remove_2 in Hnd.
    unfold get_player_endpoint.
    change (ops1 ++ RegisterPlayer d e v g h :: ops2)
      with (ops1 ++ [RegisterPlayer d e v g h] ++ ops2).
    rewrite app_assoc, run_app, players_run_others.
    + rewrite run_snoc. cbn [step register_player fst snd players player_id].
      now rewrite get_set_eq.
    + rewrite run_snoc. intros Hin. apply Hnd. apply in_or_app. now right.
Qed.

(** X8: no operation ever raises a referee's count of active matches
    above zero, so [get_available_referee] returns the referee
    registered first among those whose limit is positive, every time;
    it returns [None] exactly when no registered referee has a positive
    limit, in particular when none is registered. *)
Theorem available_referee_is_first_with_capacity (league : string) (ops : list Op) :
  let s := run (init league) ops in
  (forall r, get_available_referee s = Some r ->
     active_matches r = 0 /\ 0 < max_concurrent_matches r
     /\ exists before after,
          Dict.values (referees s) = before ++ r :: after
          /\ Forall (fun r' => max_concurrent_matches r' <= 0) before)
  /\ (get_available_referee s = None
      <-> Forall (fun r => max_concurrent_matches r <= 0)
                 (Dict.values (referees s)))
  /\ (issued_referee_ids (init league) ops = [] -> get_available_referee s = None).
Proof.
  intros s. subst s. unfold get_available_referee.
  pose proof (referees_idle league ops) as Hidle.
  pose proof (referees_keys_issued league ops) as Hkeys.
  revert Hidle Hkeys.
  generalize (referees (run (init league) ops)) as table.
  intros table Hidle Hkeys.
  split; [|split].
  - clear Hkeys. induction table as [|[k r0] table IH]; [discriminate|].
    cbn [Dict.values map find snd] in *. cbv beta in *. intros r Hfind.
    inversion Hidle as [|? ? H0 Hrest]; subst.
    destruct (active_matches r0 <? max_concurrent_matches r0) eqn:E.
    + injection Hfind as <-. apply Z.ltb_lt in E.
      split; [exact H0 | split; [lia|]]. exists [], (map snd table). auto.
    + apply Z.ltb_ge in E.
      destruct (IH Hrest r Hfind) as (Ha & Hm & before & after & Hv & Hb).
      split; [exact Ha | split; [exact Hm|]].
      exists (r0 :: before), after. unfold Dict.values in Hv. rewrite Hv.
      split; [reflexivity|]. constructor; [lia | exact Hb].
  - clear Hkeys.
    induction table as [|[k r0] table IH];
      cbn [Dict.values map find snd] in *; cbv beta in *.
    + split; auto.
    + inversion Hidle as [|? ? H0 Hrest]; subst. rewrite H0.
      destruct (0 <? max_concurrent_matches r0) eqn:E.
      * apply Z.ltb_lt in E. split; [discriminate|].
        intros H. inversion H; subst. lia.
      * apply Z.ltb_ge in E. rewrite (IH Hrest). split.
        -- intros H. constructor; assumption.
        -- intros H. now inversion H.
  - intros Hnone. rewrite Hnone in Hkeys.
    destruct table; [reflexivity | discriminate].
Qed.

End LookupTheorems.

Module StableRankingFacts.
Import League RankingFacts.

(** A row that is not let in front of [y] has another key than [y]. *)
Lemma passed_row_not_tied x y p w d :
  key_leb (sort_key x) (sort_key y) = false ->
  tied_at p w d x = true -> tied_at p w d y = false.
Proof.
  unfold tied_at. intros Hk Hx.
  apply andb_true_iff in Hx. destruct Hx as [Hx Hd].
  apply andb_true_iff in Hx. destruct Hx as [Hp Hw].
  apply Z.eqb_eq in Hp, Hw, Hd.
  destruct (Z.eqb_spec (points y) p), (Z.eqb_spec (wins y) w),
    (Z.eqb_spec (draws y) d); try reflexivity.
  exfalso.
  assert (Hle : key_leb (sort_key x) (sort_key y) = true); [|congruence].
  unfold key_leb, sort_key.
  apply orb_true_iff. right. apply andb_true_iff.
  split; [apply Z.eqb_eq; lia|].
  apply orb_true_iff. right. apply andb_true_iff.
  split; [apply Z.eqb_eq; lia | apply Z.leb_le; lia].
Qed.

Lemma insert_by_key_tied x l p w d :
  filter (tied_at p w d) (insert_by_key x l)
  = if tied_at p w d x then x :: filter (tied_at p w d) l
    else filter (tied_at p w d) l.
Proof.
  induction l as [|y ys IH]; cbn [insert_by_key].
  - reflexivity.
  - destruct (key_leb (sort_key x) (sort_key y)) eqn:Hk.
    + reflexivity.
    + cbn [filter]. rewrite IH.
      destruct (tied_at p w d x) eqn:Hx; [|reflexivity].
      now rewrite (passed_row_not_tied x y p w d Hk Hx).
Qed.

Lemma sorted_by_key_tied l p w d :
  filter (tied_at p w d) (sorted_by_key l) = filter (tied_at p w d) l.
Proof.
  induction l as [|x l IH]; [reflexivity|].
  cbn [sorted_by_key fold_right]. fold (sorted_by_key l).
  rewrite insert_by_key_tied, IH. reflexivity.
Qed.

End StableRankingFacts.

Module StableRankingTheorems.
Import League RankingFacts StableRankingFacts.

(** X9: the ranking is stable: players that have the same points, the
    same wins and the same draws stand in [get_ranked_standings] in the
    order in which the standings table holds them (the order of
    registration), each as often as the table holds it. *)
Theorem ranking_keeps_ties_in_table_order (s : LeagueState) (p w d : Z) :
  filter (tied_at p w d) (map row (get_ranked_standings s))
  = filter (tied_at p w d) (Dict.values (standings s)).
Proof.
  unfold get_ranked_standings.
  now rewrite enumerate_rows_row, sorted_by_key_tied.
Qed.

End StableRankingTheorems.

Module ReportFacts.
Import League LeagueHandlers DictFacts LeagueFacts LedgerFacts ReachableFacts.

(** The first entry with the reported id is the one completed. *)
Lemma find_and_complete_first pre m post result :
  (forall m', In m' pre -> match_id m' <> match_id m) ->
  find_and_complete (pre ++ m :: post) (JStr (match_id m)) result
  = Some (pre ++ complete m result :: post, m).
Proof.
  intros Hpre. induction pre as [|x pre IH]; cbn [app find_and_complete Json.eq_str].
  - now rewrite String.eqb_refl.
  - assert (Hx : String.eqb (match_id m) (match_id x) = false).
    { apply String.eqb_neq. intros E. apply (Hpre x); [now left | congruence]. }
    rewrite Hx, IH; [reflexivity|]. intros m' Hm'. apply Hpre. now right.
Qed.

(** With distinct ids, any entry is the first with its id. *)
Lemma split_at_entry (sch : list Match) m :
  NoDup (map match_id sch) -> In m sch ->
  exists pre post,
    sch = pre ++ m :: post
    /\ (forall m', In m' pre -> match_id m' <> match_id m).
Proof.
  intros Hnd Hin. apply in_split in Hin. destruct Hin as (pre & post & ->).
  exists pre, post. split; [reflexivity|].
  intros m' Hm' E. rewrite map_app in Hnd. cbn [map] in Hnd.
  apply NoDup_remove_2 in Hnd. apply Hnd. apply in_or_app. left.
  rewrite <- E. now apply in_map.
Qed.

Lemma report_state s params request_id ts pre m post r :
  schedule s = pre ++ m :: post ->
  (forall m', In m' pre -> match_id m' <> match_id m) ->
  Json.get (JObj params) "match_id" = JStr (match_id m) ->
  Json.get_or_empty (JObj params) "result" = JObj r ->
  handle_report_match_result s params request_id ts
  = (save_match_result
       (update_standings_for_match
          (with_schedule s (pre ++ complete m (JObj r) :: post))
          (player_a_id m) (player_b_id m) (Json.get (JObj r) "winner")
          (at_standings ts))
       (match_id m)
       (match_record (JStr (match_id m)) (Json.get (JObj params) "round_id")
                     m (JObj r) (at_match ts)),
     Returned (match_result_ack params (JStr (match_id m)) request_id (at_ack ts))).
Proof.
  intros Hsch Hpre Hmid Hres. unfold handle_report_match_result.
  rewrite Hres, Hmid, Hsch. cbn [Json.is_obj negb].
  now rewrite find_and_complete_first.
Qed.

Lemma update_fields s a b w now :
  let s' := update_standings_for_match s a b w now in
  schedule s' = schedule s /\ league_id s' = league_id s
  /\ auth_tokens s' = auth_tokens s.
Proof.
  unfold update_standings_for_match.
  destruct (Dict.get (standings s) a), (Dict.get (standings s) b); simpl; auto.
Qed.

Lemma standings_update_any_schedule s sch a b w now :
  standings (update_standings_for_match (with_schedule s sch) a b w now)
  = standings (update_standings_for_match s a b w now).
Proof. now rewrite !standings_update. Qed.

Lemma played_after_result d a b w row_a row_b :
  a <> b -> Dict.get d a = Some row_a -> Dict.get d b = Some row_b ->
  exists row_a' row_b',
    Dict.get (apply_result d a b w) a = Some row_a'
    /\ Dict.get (apply_result d a b w) b = Some row_b'
    /\ played row_a' = played row_a + 1
    /\ played row_b' = played row_b + 1.
Proof.
  intros Hab Ha Hb.
  assert (Eab : String.eqb a b = false) by now apply String.eqb_neq.
  assert (Eba : String.eqb b a = false) by (apply String.eqb_neq; congruence).
  unfold apply_result.
  destruct (Json.is_none w); [|destruct (Json.eq_str w a)];
    rewrite !get_modify, ?String.eqb_refl, ?Eab, ?Eba, Ha, Hb;
    cbn [option_map]; do 2 eexists; repeat split.
Qed.

End ReportFacts.

Module ReportTheorems.
Import League LeagueHandlers DictFacts LeagueFacts LedgerFacts ReachableFacts ReportFacts.

(** X10: a report that names a scheduled match (in a schedule with
    distinct match ids, as the scheduler produces them) and carries a
    result object marks that one match COMPLETED with the reported
    winner and result and leaves every other match as it was; updates
    the standings exactly as [update_standings_for_match] does for the
    match's two players and the reported winner; writes the match
    record, which [load_match] reads back; leaves the registry alone;
    and answers with the MATCH_RESULT_ACK whose status is RECORDED. *)
Theorem report_for_scheduled_match
        (s : LeagueState) (params : Dict.t json) (request_id : json) (ts : Stamps)
        (m : Match) (r : list (string * json)) :
  NoDup (map match_id (schedule s)) ->
  In m (schedule s) ->
  Json.get (JObj params) "match_id" = JStr (match_id m) ->
  Json.get_or_empty (JObj params) "result" = JObj r ->
  let out := handle_report_match_result s params request_id ts in
  let s' := fst out in
  let w := Json.get (JObj r) "winner" in
  (exists ack,
     snd out = Returned ack
     /\ Json.has ack "error" = false
     /\ Json.get (Json.get ack "result") "message_type" = JStr "MATCH_RESULT_ACK"
     /\ Json.get (Json.get ack "result") "status" = JStr "RECORDED"
     /\ Json.get (Json.get ack "result") "match_id" = JStr (match_id m))
  /\ (exists pre post,
        schedule s = pre ++ m :: post
        /\ schedule s'
           = pre ++ mkMatch (match_id m) (round_id m) (player_a_id m)
                            (player_b_id m) "COMPLETED" w (JObj r) :: post)
  /\ standings s'
     = standings (update_standings_for_match
                    s (player_a_id m) (player_b_id m) w (at_standings ts))
  /\ load_match (disk s') (league_id s') (match_id m)
     = MatchDoc (JObj [("match_id", JStr (match_id m));
                       ("round_id", Json.get (JObj params) "round_id");
                       ("player_a_id", JStr (player_a_id m));
                       ("player_b_id", JStr (player_b_id m));
                       ("result", JObj r);
                       ("timestamp", JStr (at_match ts))])
  /\ players s' = players s /\ referees s' = referees s
  /\ auth_tokens s' = auth_tokens s.
Proof.
  intros Hnd Hin Hmid Hres out s' w. subst out s' w.
  destruct (split_at_entry _ m Hnd Hin) as (pre & post & Hsch & Hpre).
  rewrite (report_state s params request_id ts pre m post r Hsch Hpre Hmid Hres).
  cbn [fst snd].
  set (s1 := with_schedule s (pre ++ complete m (JObj r) :: post)).
  set (s2 := update_standings_for_match s1 _ _ _ _).
  destruct (update_fields s1 (player_a_id m) (player_b_id m)
                          (Json.get (JObj r) "winner") (at_standings ts))
    as (Hs & Hl & Ht). fold s2 in Hs, Hl, Ht.
  destruct (RegistryFacts.update_frame s1 (player_a_id m) (player_b_id m)
                          (Json.get (JObj r) "winner") (at_standings ts))
    as (Hp & Hr & _). fold s2 in Hp, Hr.
  split; [|split; [|split; [|split; [|split; [|split]]]]].
  - eexists. split; [reflexivity|]. repeat split.
  - exists pre, post. split; [exact Hsch|].
    cbn [save_match_result with_disk schedule]. rewrite Hs. reflexivity.
  - cbn [save_match_result with_disk standings]. subst s2 s1.
    apply standings_update_any_schedule.
  - unfold load_match, load. cbn [save_match_result with_disk disk league_id].
    now rewrite get_set_eq.
  - cbn [save_match_result with_disk players]. now rewrite Hp.
  - cbn [save_match_result with_disk referees]. now rewrite Hr.
  - cbn [save_match_result with_disk auth_tokens]. now rewrite Ht.
Qed.

Lemma report_for_scheduled_match_witness :
  let s0 := fst (register_player (init "league_2025") "Alpha"
                   "http://localhost:8101/mcp" "1.0.0" None "00") in
  let s1 := fst (register_player s0 "Beta"
                   "http://localhost:8102/mcp" "1.0.0" None "01") in
  let s := create_schedule s1 in
  let params := [("match_id", JStr "R1M1");
                 ("round_id", JInt 1);
                 ("conversation_id", JStr "conv-R1M1-report");
                 ("result", JObj [("winner", JStr "P01")])] in
  let s' := fst (handle_report_match_result s params (JInt 7)
                   (mkStamps "t1" "t2" "t3")) in
  map status (schedule s') = ["COMPLETED"]
  /\ Dict.get (standings s') "P01" = Some (mkStanding "P01" "Alpha" 1 1 0 0 3)
  /\ Dict.get (standings s') "P02" = Some (mkStanding "P02" "Beta" 1 0 0 1 0).
Proof.
  intros s0 s1 s params s'.
  assert (Hnd : NoDup (map match_id (schedule s))).
  { repeat constructor. simpl. tauto. }
  assert (Hin : In (Scheduler.new_match 1 ("P01", "P02")) (schedule s)).
  { now left. }
  destruct (report_for_scheduled_match
              s params (JInt 7) (mkStamps "t1" "t2" "t3")
              (Scheduler.new_match 1 ("P01", "P02")) [("winner", JStr "P01")]
              Hnd Hin eq_refl eq_refl)
    as (_ & (pre & post & Hs & Hs') & Hst & _).
  fold s' in Hs', Hst. rewrite Hst.
  split; [|split; reflexivity].
  rewrite Hs'. destruct pre as [|x [|y pre]]; try discriminate Hs.
  injection Hs as <-. reflexivity.
Defined.

(** X11: the handler does not look at a match's status: a second
    report for a match that is already COMPLETED is processed like the
    first. The match then carries the winner and result of the second
    report, and each of its two players has one more game played than
    after the first report, two more than before. *)
Theorem repeated_report_counts_twice
        (s : LeagueState) (params1 params2 : Dict.t json)
        (id1 id2 : json) (ts1 ts2 : Stamps)
        (m : Match) (r1 r2 : list (string * json))
        (row_a row_b : PlayerStanding) :
  NoDup (map match_id (schedule s)) ->
  In m (schedule s) ->
  player_a_id m <> player_b_id m ->
  Dict.get (standings s) (player_a_id m) = Some row_a ->
  Dict.get (standings s) (player_b_id m) = Some row_b ->
  Json.get (JObj params1) "match_id" = JStr (match_id m) ->
  Json.get_or_empty (JObj params1) "result" = JObj r1 ->
  Json.get (JObj params2) "match_id" = JStr (match_id m) ->
  Json.get_or_empty (JObj params2) "result" = JObj r2 ->
  let s1 := fst (handle_report_match_result s params1 id1 ts1) in
  let s2 := fst (handle_report_match_result s1 params2 id2 ts2) in
  (exists pre post,
     schedule s = pre ++ m :: post
     /\ schedule s2
        = pre ++ mkMatch (match_id m) (round_id m) (player_a_id m)
                         (player_b_id m) "COMPLETED"
                         (Json.get (JObj r2) "winner") (JObj r2) :: post)
  /\ (exists row_a' row_b',
        Dict.get (standings s2) (player_a_id m) = Some row_a'
        /\ Dict.get (standings s2) (player_b_id m) = Some row_b'
        /\ played row_a' = played row_a + 2
        /\ played row_b' = played row_b + 2)
  /\ total played (standings s2) = total played (standings s) + 4.
Proof.
  intros Hnd Hin Hab Ha Hb Hm1 Hr1 Hm2 Hr2 s1 s2. subst s1 s2.
  destruct (split_at_entry _ m Hnd Hin) as (pre & post & Hsch & Hpre).
  rewrite (report_state s params1 id1 ts1 pre m post r1 Hsch Hpre Hm1 Hr1).
  cbn [fst].
  set (w1 := Json.get (JObj r1) "winner").
  set (w2 := Json.get (JObj r2) "winner").
  set (s1 := save_match_result _ _ _).
  assert (Hsch1 : schedule s1 = pre ++ complete m (JObj r1) :: post).
  { subst s1. cbn [save_match_result with_disk schedule].
    now rewrite (proj1 (update_fields _ _ _ _ _)). }
  assert (Hst1 : standings s1
                 = apply_result (standings s) (player_a_id m) (player_b_id m) w1).
  { subst s1. cbn [save_match_result with_disk standings].
    rewrite standings_update_any_schedule, standings_update. now rewrite Ha, Hb. }
  destruct (played_after_result (standings s) _ _ w1 _ _ Hab Ha Hb)
    as (ra1 & rb1 & Ha1 & Hb1 & Hpa1 & Hpb1).
  rewrite <- Hst1 in Ha1, Hb1.
  rewrite (report_state s1 params2 id2 ts2 pre (complete m (JObj r1)) post r2
             Hsch1 Hpre Hm2 Hr2).
  cbn [fst].
  set (s2 := save_match_result _ _ _).
  assert (Hst2 : standings s2
                 = apply_result (standings s1) (player_a_id m) (player_b_id m) w2).
  { subst s2. cbn [save_match_result with_disk standings complete
                   player_a_id player_b_id].
    rewrite standings_update_any_schedule, standings_update. now rewrite Ha1, Hb1. }
  destruct (played_after_result (standings s1) _ _ w2 _ _ Hab Ha1 Hb1)
    as (ra2 & rb2 & Ha2 & Hb2 & Hpa2 & Hpb2).
  rewrite <- Hst2 in Ha2, Hb2.
  split; [|split].
  - exists pre, post. split; [exact Hsch|].
    subst s2. cbn [save_match_result with_disk schedule].
    now rewrite (proj1 (update_fields _ _ _ _ _)).
  - exists ra2, rb2. repeat split; auto; lia.
  - rewrite Hst2, Hst1.
    assert (Hma : forall (d : Dict.t PlayerStanding) row,
               Dict.get d (player_a_id m) = Some row ->
               Dict.mem d (player_a_id m) = true)
      by (intros; apply mem_get; eauto).
    assert (Hmb : forall (d : Dict.t PlayerStanding) row,
               Dict.get d (player_b_id m) = Some row ->
               Dict.mem d (player_b_id m) = true)
      by (intros; apply mem_get; eauto).
    rewrite <- Hst1.
    rewrite (proj1 (totals_apply_result (standings s1) _ _ w2
                      (Hma _ _ Ha1) (Hmb _ _ Hb1))).
    rewrite Hst1.
    rewrite (proj1 (totals_apply_result (standings s) _ _ w1
                      (Hma _ _ Ha) (Hmb _ _ Hb))).
    lia.
Qed.

Lemma repeated_report_counts_twice_witness :
  let s0 := fst (register_player (init "league_2025") "Alpha"
                   "http://localhost:8101/mcp" "1.0.0" None "00") in
  let s1 := fst (register_player s0 "Beta"
                   "http://localhost:8102/mcp" "1.0.0" None "01") in
  let s := create_schedule s1 in
  let params w := [("match_id", JStr "R1M1");
                   ("round_id", JInt 1);
                   ("result", JObj [("winner", w)])] in
  let sa := fst (handle_report_match_result s (params (JStr "P01")) (JInt 7)
                   (mkStamps "t1" "t2" "t3")) in
  let sb := fst (handle_report_match_result sa (params JNull) (JInt 8)
                   (mkStamps "t4" "t5" "t6")) in
  total played (standings sb) = 4.
Proof.
  intros s0 s1 s params sa sb.
  assert (Hnd : NoDup (map match_id (schedule s))).
  { repeat constructor. simpl. tauto. }
  assert (Hin : In (Scheduler.new_match 1 ("P01", "P02")) (schedule s)).
  { now left. }
  assert (Hab : player_a_id (Scheduler.new_match 1 ("P01", "P02"))
                <> player_b_id (Scheduler.new_match 1 ("P01", "P02"))).
  { discriminate. }
  destruct (repeated_report_counts_twice
              s (params (JStr "P01")) (params JNull) (JInt 7) (JInt 8)
              (mkStamps "t1" "t2" "t3") (mkStamps "t4" "t5" "t6")
              (Scheduler.new_match 1 ("P01", "P02"))
              [("winner", JStr "P01")] [("winner", JNull)]
              (mkStanding "P01" "Alpha" 0 0 0 0 0)
              (mkStanding "P02" "Beta" 0 0 0 0 0)
              Hnd Hin Hab eq_refl eq_refl eq_refl eq_refl eq_refl eq_refl)
    as (_ & _ & Htot).
  exact Htot.
Defined.

End ReportTheorems.

Module RetryLoopFacts.
Import HttpClient HttpClientFacts.

Lemma sleeps_app evs1 evs2 : sleeps (evs1 ++ evs2) = sleeps evs1 ++ sleeps evs2.
Proof. unfold sleeps. apply flat_map_app. Qed.

(** *** Reading a trace *)

Lemma trace_attempts ep body t delays : forall s,
  attempts_made (trace_from ep body t s delays) = seq s (S (List.length delays)).
Proof.
  induction delays as [|d delays IH]; intros s; [reflexivity|].
  cbn [trace_from attempts_made flat_map app List.length seq].
  f_equal. apply IH.
Qed.

Lemma trace_sleeps ep body t delays : forall s,
  sleeps (trace_from ep body t s delays) = delays.
Proof.
  induction delays as [|d delays IH]; intros s; [reflexivity|].
  cbn [trace_from sleeps flat_map app]. f_equal. apply IH.
Qed.

Lemma trace_posts ep body t delays : forall s,
  posts_carry ep body t (trace_from ep body t s delays).
Proof.
  unfold posts_carry.
  induction delays as [|d delays IH]; intros s; cbn [trace_from];
    repeat constructor. apply IH.
Qed.

Lemma trace_last ep body t delays : forall s,
  exists pre,
    trace_from ep body t s delays
    = pre ++ [Posted (s + List.length delays) ep body t].
Proof.
  induction delays as [|d delays IH]; intros s; cbn [trace_from List.length].
  - exists []. now rewrite Nat.add_0_r.
  - destruct (IH (S s)) as [pre ->].
    exists (Posted s ep body t :: Slept d :: pre).
    now rewrite Nat.add_succ_r.
Qed.

Section Loop.
Variables (cfg : RetryConfig) (net : nat -> PostOutcome).
Variables (ep : string) (body : json) (t id : Z).

#[local] Abbreviation loop_shape := (loop_shape cfg net ep body t id).

(** The run ends with the POST of attempt [s], its first. *)
Lemma shape_stop s n r :
  (r = final_answer (net s) id /\ (retryable (net s) = false \/ n = 0%nat))
  \/ (retryable (net s) = true /\ (0 < n)%nat
      /\ exists x, pause cfg s = Raised x /\ r = Raised x) ->
  loop_shape s (S n) [Posted s ep body t] r [].
Proof.
  intros H. constructor; cbn [List.length].
  - reflexivity.
  - lia.
  - intros j d Hj. destruct j; discriminate Hj.
  - cbv zeta. rewrite Nat.add_0_r.
    destruct H as [(Hr & H) | (Hret & Hn & H)].
    + left. split; [exact Hr|]. destruct H; [now left | right; lia].
    + right. split; [exact Hret|]. split; [lia | exact H].
Qed.

Lemma shape_retry s n d evs r delays :
  retryable (net s) = true -> pause cfg s = Returned d ->
  loop_shape (S s) n evs r delays ->
  loop_shape s (S n) (Posted s ep body t :: [Slept d] ++ evs) r (d :: delays).
Proof.
  intros Hret Hd [Htr Hb Hre Hend]. constructor; cbn [List.length].
  - rewrite Htr. reflexivity.
  - lia.
  - intros j d' Hj. destruct j as [|j].
    + injection Hj as <-. now rewrite Nat.add_0_r.
    + rewrite Nat.add_succ_r. apply (Hre j d' Hj).
  - cbv zeta in *. rewrite Nat.add_succ_r.
    destruct Hend as [(Hr & H) | (Hr & Hn & H)].
    + left. split; [exact Hr|]. destruct H; [now left | right; lia].
    + right. split; [exact Hr|]. split; [lia | exact H].
Qed.

Lemma call_loop_shape n : forall s last evs r,
  Z.of_nat (s + S n) = max_retries cfg ->
  call_loop cfg net ep body t id (seq s (S n)) last = (evs, r) ->
  exists delays, loop_shape s (S n) evs r delays.
Proof.
  induction n as [|n IH]; intros s last evs r Hmax Hrun;
    match type of Hrun with
    | context [seq s (S ?m)] =>
        change (seq s (S m)) with (s :: seq (S s) m) in Hrun
    end;
    remember (seq (S s) _) as rest eqn:Erest;
    cbn [call_loop] in Hrun;
    destruct (net s) as [b | e | e | e | e] eqn:Hs;
    try (injection Hrun as <- <-; exists []; apply shape_stop; rewrite Hs;
         left; split; [reflexivity | now left]);
    unfold backoff in Hrun;
    destruct (Z.ltb_spec (Z.of_nat s) (max_retries cfg - 1)); try lia.
  - subst rest. cbn [seq call_loop app] in Hrun.
    injection Hrun as <- <-. exists []. apply shape_stop. rewrite Hs.
    left. split; [reflexivity | now right].
  - subst rest. cbn [seq call_loop app] in Hrun.
    injection Hrun as <- <-. exists []. apply shape_stop. rewrite Hs.
    left. split; [reflexivity | now right].
  - destruct (pause cfg s) as [d | x] eqn:Hp.
    + destruct (call_loop cfg net ep body t id rest (Some e))
        as [evs' r'] eqn:Hrest.
      injection Hrun as <- <-. subst rest.
      destruct (IH (S s) (Some e) evs' r') as [delays Hsh]; [lia | exact Hrest |].
      exists (d :: delays). apply shape_retry; auto. now rewrite Hs.
    + injection Hrun as <- <-. exists []. apply shape_stop. rewrite Hs.
      right. split; [reflexivity|]. split; [lia | eauto].
  - destruct (pause cfg s) as [d | x] eqn:Hp.
    + destruct (call_loop cfg net ep body t id rest (Some e))
        as [evs' r'] eqn:Hrest.
      injection Hrun as <- <-. subst rest.
      destruct (IH (S s) (Some e) evs' r') as [delays Hsh]; [lia | exact Hrest |].
      exists (d :: delays). apply shape_retry; auto. now rewrite Hs.
    + injection Hrun as <- <-. exists []. apply shape_stop. rewrite Hs.
      right. split; [reflexivity|]. split; [lia | eauto].
Qed.

End Loop.

(** The run of [call], in these terms. *)
Lemma call_shape c net ep method params t :
  0 < max_retries (retry_config c) ->
  let id := _request_id c + 1 in
  let body := model_dump method params id in
  exists evs r delays,
    call c net ep method params t = (next_client c, evs, r)
    /\ loop_shape (retry_config c) net ep body t id
                  0 (Z.to_nat (max_retries (retry_config c))) evs r delays.
Proof.
  intros Hpos id body. unfold call, next_client, _next_request_id, range. cbn [fst].
  fold id. fold body.
  destruct (call_loop (retry_config c) net ep body t id
                      (seq 0 (Z.to_nat (max_retries (retry_config c)))) None)
    as [evs r] eqn:Hrun.
  destruct (Z.to_nat (max_retries (retry_config c))) as [|n] eqn:E; [lia|].
  apply call_loop_shape in Hrun; [|cbn [Nat.add]; lia].
  destruct Hrun as [delays Hsh]. now exists evs, r, delays.
Qed.

End RetryLoopFacts.

Module RetryLoopTheorems.
Import HttpClient HttpClientFacts RetryLoopFacts.

(** X12: the trace of any [call]. With [max_retries] not positive
    there is no event at all. Otherwise the trace is a POST, then for
    every further attempt one sleep followed by one POST, and nothing
    after the last POST; the attempts are numbered 0, 1, ... without a
    gap and are fewer than or as many as [max_retries]; every POST
    carries the same request, with the id the client's counter has
    after its increment, to the same endpoint with the same timeout;
    and the sleep after attempt [j] is the pause that
    [_calculate_delay] and [time.sleep] give for [j], which is
    [base_delay * backoff_multiplier ** j] (zero where that
    underflows) and never negative, and follows a timeout or
    connection failure of attempt [j]. *)
Theorem call_trace_shape
        (c : MCPClient) (net : nat -> PostOutcome)
        (endpoint method : string) (params : json) (timeout : Z) :
  let cfg := retry_config c in
  let body := model_dump method params (_request_id c + 1) in
  let evs := snd (fst (call c net endpoint method params timeout)) in
  (max_retries cfg <= 0 -> evs = [])
  /\ (0 < max_retries cfg ->
      exists delays,
        evs = trace_from endpoint body timeout 0 delays
        /\ Z.of_nat (List.length delays) < max_retries cfg
        /\ attempts_made evs = seq 0 (S (List.length delays))
        /\ sleeps evs = delays
        /\ posts_carry endpoint body timeout evs
        /\ (exists pre,
              evs = pre ++ [Posted (List.length delays) endpoint body timeout])
        /\ forall j d,
             nth_error delays j = Some d ->
             retryable (net j) = true
             /\ pause cfg j = Returned d /\ (0 <= d)%Q
             /\ d = underflow
                      (base_delay cfg
                       * underflow (Qpower (backoff_multiplier cfg) (Z.of_nat j)))%Q).
Proof.
  intros cfg body evs. subst cfg body evs. split.
  - intros Hmax. unfold call, _next_request_id, range.
    destruct (Z.to_nat (max_retries (retry_config c))) eqn:E; [reflexivity | lia].
  - intros Hpos.
    destruct (call_shape c net endpoint method params timeout Hpos)
      as (evs & r & delays & -> & H).
    cbn [fst snd]. exists delays. destruct H as [Htr Hb Hre Hend]. subst evs.
    split; [reflexivity|]. split; [lia|].
    split; [apply trace_attempts|]. split; [apply trace_sleeps|].
    split; [apply trace_posts|]. split; [apply (trace_last _ _ _ _ 0%nat)|].
    intros j d Hj. destruct (Hre j d Hj) as [Hr Hp]. cbn [Nat.add] in *.
    split; [exact Hr|]. split; [exact Hp|].
    split; [eapply pause_nonneg; eauto | now apply pause_value].
Qed.

(** X13: what a [call] with a positive [max_retries] hands back is
    decided by its last attempt [k]. Every attempt before [k] timed
    out or failed to connect and was followed by its pause. If attempt
    [k] did neither, or is attempt number [max_retries - 1], [call]
    hands back the peer's answer as it is, the -32000 error for an HTTP
    error status, the exception raised for anything else, or, when
    attempt [k] failed like the ones before it, the "Max retries
    exceeded" error quoting that last failure. Otherwise attempt [k]
    timed out or failed to connect with attempts left and its pause
    raised ([ValueError] for a negative delay, [OverflowError] for one
    out of range): then [call] raises that exception. Whatever
    happens, the client's request counter has moved on by one. *)
Theorem call_answers_with_last_attempt
        (c : MCPClient) (net : nat -> PostOutcome)
        (endpoint method : string) (params : json) (timeout : Z) :
  0 < max_retries (retry_config c) ->
  let cfg := retry_config c in
  let id := _request_id c + 1 in
  let out := call c net endpoint method params timeout in
  fst (fst out) = mkClient cfg id
  /\ exists k,
       Z.of_nat k < max_retries cfg
       /\ attempts_made (snd (fst out)) = seq 0 (S k)
       /\ (forall j, (j < k)%nat ->
             retryable (net j) = true /\ exists d, pause cfg j = Returned d)
       /\ ((snd out = final_answer (net k) id
            /\ (retryable (net k) = false \/ Z.of_nat k = max_retries cfg - 1))
           \/ (retryable (net k) = true /\ Z.of_nat k < max_retries cfg - 1
               /\ exists x, pause cfg k = Raised x /\ snd out = Raised x
                            /\ (x = "ValueError" \/ x = "OverflowError"))).
Proof.
  intros Hpos cfg id out. subst cfg id out.
  destruct (call_shape c net endpoint method params timeout Hpos)
    as (evs & r & delays & -> & H).
  cbn [fst snd]. split; [reflexivity|]. destruct H as [Htr Hb Hre Hend].
  exists (List.length delays).
  split; [lia|]. split; [subst evs; apply trace_attempts|]. split.
  - intros j Hj. destruct (nth_error delays j) as [d|] eqn:E.
    + destruct (Hre j d E) as [Hr Hp]. split; [exact Hr | now exists d].
    + apply nth_error_None in E. lia.
  - cbv zeta in Hend. cbn [Nat.add] in Hend.
    destruct Hend as [(Hr & H) | (Hr & Hn & x & Hp & Hx)].
    + left. split; [exact Hr|]. destruct H; [now left | right; lia].
    + right. split; [exact Hr|]. split; [lia|].
      exists x. split; [exact Hp|]. split; [exact Hx|].
      eapply pause_raises; eauto.
Qed.

(** Two runs: a timeout and then an answer, under the default
    configuration; and a timeout under a negative [base_delay], where
    the pause raises. *)
Lemma call_answers_with_last_attempt_witness :
  let net := fun k => match k with
                      | O => Timeout "Read timed out"
                      | _ => Responded (JObj [("result", JObj [])])
                      end in
  let hasty := mkClient (mkRetry 3 (-2 # 1) (2 # 1) ["E001"; "E009"]) 0 in
  snd (call new_client net "http://localhost:8000/mcp" "league_query" (JObj []) 10)
  = Returned (JObj [("result", JObj [])])
  /\ snd (call hasty net "http://localhost:8000/mcp" "league_query" (JObj []) 10)
     = Raised "ValueError".
Proof.
  intros net hasty. split.
  - destruct (call_answers_with_last_attempt
                new_client net "http://localhost:8000/mcp" "league_query" (JObj []) 10
                ltac:(reflexivity))
      as (_ & k & _ & Hat & _ & [(Hr & _) | (Hret & _)]).
    + rewrite Hr. vm_compute in Hat. injection Hat as Hat.
      destruct k as [|[|k]]; try discriminate Hat. reflexivity.
    + vm_compute in Hat. injection Hat as Hat.
      destruct k as [|[|k]]; try discriminate Hat. discriminate Hret.
  - destruct (call_answers_with_last_attempt
                hasty net "http://localhost:8000/mcp" "league_query" (JObj []) 10
                ltac:(reflexivity))
      as (_ & k & _ & Hat & _ & [(_ & [Hret | Hk]) | (_ & _ & x & Hp & Hr & _)]).
    + vm_compute in Hat. injection Hat as Hat.
      destruct k as [|k]; [discriminate Hret | discriminate Hat].
    + vm_compute in Hat. injection Hat as Hat.
      destruct k as [|k]; [discriminate Hk | discriminate Hat].
    + vm_compute in Hat. injection Hat as Hat.
      destruct k as [|k]; [|discriminate Hat].
      rewrite Hr. vm_compute in Hp. congruence.
Defined.




End RetryLoopTheorems.

Module GameRuleFacts.
Import GameLogic.

Lemma get_parity_cases k : get_parity k = "even" \/ get_parity k = "odd".
Proof. unfold get_parity. destruct (k mod 2 =? 0); auto. Qed.

Lemma valid_choice_cases c :
  validate_parity_choice c = true <-> lower c = "even" \/ lower c = "odd".
Proof.
  unfold validate_parity_choice. rewrite orb_true_iff, !String.eqb_eq. tauto.
Qed.

End GameRuleFacts.

Module GameRuleTheorems.
Import GameLogic GameRuleFacts.

(** X16: when both choices are valid, the game is a draw exactly when
    the two players chose the same parity (whatever the number), and
    otherwise it has a winner: the one player whose choice, letter case
    aside, is the parity of the drawn number. A choice that is not
    valid never wins. The parity handed back is that of the number. *)
Theorem valid_choices_decide_the_game (choice_a choice_b : string) (number : Z) :
  let r := determine_winner choice_a choice_b number in
  snd (fst r) = get_parity number
  /\ (winner_of r = Some "PLAYER_A" -> validate_parity_choice choice_a = true)
  /\ (winner_of r = Some "PLAYER_B" -> validate_parity_choice choice_b = true)
  /\ (validate_parity_choice choice_a = true ->
      validate_parity_choice choice_b = true ->
      (winner_of r = None <-> lower choice_a = lower choice_b)
      /\ (winner_of r = Some "PLAYER_A"
          <-> lower choice_a = get_parity number
              /\ lower choice_a <> lower choice_b)
      /\ (winner_of r = Some "PLAYER_B"
          <-> lower choice_b = get_parity number
              /\ lower choice_a <> lower choice_b)).
Proof.
  intros r. subst r. unfold determine_winner, winner_of.
  destruct (String.eqb_spec (lower choice_a) (get_parity number)) as [Ea | Ea];
    destruct (String.eqb_spec (lower choice_b) (get_parity number)) as [Eb | Eb];
    cbn [andb negb fst snd].
  all: split; [reflexivity|].
  all: split; [intros H; try discriminate H; apply valid_choice_cases;
               rewrite ?Ea; apply get_parity_cases|].
  all: split; [intros H; try discriminate H; apply valid_choice_cases;
               rewrite ?Eb; apply get_parity_cases|].
  all: intros Va Vb; apply valid_choice_cases in Va, Vb.
  all: destruct (get_parity_cases number) as [Ep | Ep]; rewrite Ep in *.
  all: repeat split; try discriminate; try congruence; try tauto.
  all: try (intros [_ H]; congruence).
  all: try (intros [H _]; congruence).
  all: try (intros _; destruct Va, Vb; congruence).
Qed.

End GameRuleTheorems.

Module MatchTableFacts.
Import Referee DictFacts.

(** *** Deleting a key *)

Section Remove.
Context {V : Type}.
Implicit Types d : Dict.t V.

Lemma get_remove_ne d k k' : k <> k' -> Dict.get (Dict.remove d k) k' = Dict.get d k'.
Proof.
  intros Hne. induction d as [|[k0 v0] d IH]; simpl; auto.
  destruct (String.eqb_spec k0 k) as [-> | H0].
  - apply String.eqb_neq in Hne. now rewrite Hne.
  - simpl. now rewrite IH.
Qed.

Lemma keys_remove_subset d k x :
  In x (Dict.keys (Dict.remove d k)) -> In x (Dict.keys d).
Proof.
  unfold Dict.keys. induction d as [|[k0 v0] d IH]; simpl; auto.
  destruct (String.eqb k0 k); simpl; tauto.
Qed.

Lemma keys_remove_NoDup d k :
  NoDup (Dict.keys d) -> NoDup (Dict.keys (Dict.remove d k)).
Proof.
  unfold Dict.keys. induction d as [|[k0 v0] d IH]; simpl; auto.
  intros Hnd. inversion Hnd as [|? ? Hk0 Hnd']; subst.
  destruct (String.eqb k0 k); simpl; auto.
  constructor; auto. intros Hin. apply Hk0.
  now apply (keys_remove_subset d k).
Qed.

Lemma get_remove_eq d k :
  NoDup (Dict.keys d) -> Dict.get (Dict.remove d k) k = None.
Proof.
  unfold Dict.keys. induction d as [|[k0 v0] d IH]; simpl; auto.
  intros Hnd. inversion Hnd as [|? ? Hk0 Hnd']; subst.
  destruct (String.eqb_spec k0 k) as [-> | H0].
  - now apply get_none_notin.
  - simpl. apply String.eqb_neq in H0. rewrite H0. auto.
Qed.

End Remove.

(** *** The table's operations, one key at a time *)

Lemma get_store s mid m mid' :
  get_match (store s mid m) mid'
  = if String.eqb mid mid' then Some m else get_match s mid'.
Proof.
  unfold get_match, store. cbn [with_active active_matches].
  destruct (String.eqb_spec mid mid') as [<- | Hne].
  - apply get_set_eq.
  - now apply get_set_ne.
Qed.

Lemma keys_store s mid m m0 :
  get_match s mid = Some m0 ->
  Dict.keys (active_matches (store s mid m)) = Dict.keys (active_matches s).
Proof.
  intros H. unfold store. cbn [with_active active_matches].
  eapply keys_set_present. exact H.
Qed.

Lemma completed_gone s mid :
  NoDup (Dict.keys (active_matches s)) ->
  get_match (complete_match s mid) mid = None.
Proof.
  intros Hnd. unfold complete_match, get_match.
  destruct (Dict.mem (active_matches s) mid) eqn:E.
  - cbn [with_active active_matches]. now apply get_remove_eq.
  - unfold Dict.mem in E. now destruct (Dict.get (active_matches s) mid).
Qed.

End MatchTableFacts.

Module MatchTableTheorems.
Import Referee DictFacts MatchTableFacts.

#[local] Abbreviation kept_well mid m :=
  (match_id m = mid
   /\ (state m = WAITING_FOR_PLAYERS \/ state m = COLLECTING_CHOICES)
   /\ (state m = COLLECTING_CHOICES
       <-> player_a_joined m = true /\ player_b_joined m = true)
   /\ (player_a_id m = player_b_id m ->
       player_b_joined m = false /\ player_b_choice m = JNull)).

Lemma step_keeps_table s o :
  (NoDup (Dict.keys (active_matches s))
   /\ forall mid m, get_match s mid = Some m -> kept_well mid m) ->
  NoDup (Dict.keys (active_matches (step s o)))
  /\ forall mid m, get_match (step s o) mid = Some m -> kept_well mid m.
Proof.
  intros [Hnd Hinv].
  destruct o as [mid0 rid a b ea eb conv | mid0 pid | mid0 pid choice | mid0];
    cbn [step].
  - (* create_match *)
    unfold create_match. cbn [fst]. fold (store s mid0
      (mkActive mid0 rid a b ea eb WAITING_FOR_PLAYERS false false
                JNull JNull None None conv)).
    split.
    + unfold store. cbn [with_active active_matches].
      now apply LeagueFacts.keys_set_NoDup.
    + intros mid m. rewrite get_store.
      destruct (String.eqb_spec mid0 mid) as [<- | Hne]; [|auto].
      intros E. injection E as <-. cbn.
      repeat split; auto; try discriminate. intros [H _]. discriminate.
  - (* player_joined *)
    unfold player_joined.
    destruct (get_match s mid0) as [m0|] eqn:E0; [|auto].
    destruct (Hinv mid0 m0 E0) as (Hid & Hst & Hco & Hsame).
    destruct (String.eqb_spec pid (player_a_id m0)) as [Ea | Ea];
      [|destruct (String.eqb_spec pid (player_b_id m0)) as [Eb | Eb]];
      cbn [fst]; [| |auto].
    + split; [now rewrite (keys_store _ _ _ _ E0)|].
      intros mid m. rewrite get_store.
      destruct (String.eqb_spec mid0 mid) as [<- | Hne]; [|auto].
      intros E. injection E as <-.
      cbn [set_joined_a player_a_joined player_b_joined andb].
      destruct (player_b_joined m0) eqn:Hb;
        cbn [set_state set_joined_a match_id state player_a_joined
             player_b_joined player_a_id player_b_id player_b_choice];
        rewrite ?Hb;
        (split; [exact Hid | split; [|split]]).
      * now right.
      * tauto.
      * intros E. destruct (Hsame E). congruence.
      * exact Hst.
      * split; [|intros [_ H]; discriminate H].
        intros E. apply Hco in E. destruct E. congruence.
      * exact Hsame.
    + split; [now rewrite (keys_store _ _ _ _ E0)|].
      intros mid m. rewrite get_store.
      destruct (String.eqb_spec mid0 mid) as [<- | Hne]; [|auto].
      intros E. injection E as <-.
      cbn [set_joined_b player_a_joined player_b_joined andb].
      rewrite andb_true_r.
      destruct (player_a_joined m0) eqn:Ha;
        cbn [set_state set_joined_b match_id state player_a_joined
             player_b_joined player_a_id player_b_id player_b_choice];
        rewrite ?Ha;
        (split; [exact Hid | split; [|split]]).
      * now right.
      * tauto.
      * intros E. congruence.
      * exact Hst.
      * split; [|intros [H _]; discriminate H].
        intros E. apply Hco in E. destruct E. congruence.
      * intros E. congruence.
  - (* record_choice *)
    unfold record_choice.
    destruct (get_match s mid0) as [m0|] eqn:E0; [|auto].
    destruct (Hinv mid0 m0 E0) as (Hid & Hst & Hco & Hsame).
    destruct (String.eqb_spec pid (player_a_id m0)) as [Ea | Ea];
      [|destruct (String.eqb_spec pid (player_b_id m0)) as [Eb | Eb]];
      cbn [fst]; [| |auto].
    + split; [now rewrite (keys_store _ _ _ _ E0)|].
      intros mid m. rewrite get_store.
      destruct (String.eqb_spec mid0 mid) as [<- | Hne]; [|auto].
      intros E. injection E as <-. cbn. auto.
    + split; [now rewrite (keys_store _ _ _ _ E0)|].
      intros mid m. rewrite get_store.
      destruct (String.eqb_spec mid0 mid) as [<- | Hne]; [|auto].
      intros E. injection E as <-.
      cbn [set_choice_b match_id state player_a_joined player_b_joined
           player_a_id player_b_id player_b_choice].
      split; [exact Hid | split; [exact Hst | split; [exact Hco|]]].
      intros E. congruence.
  - (* complete_match *)
    unfold complete_match. destruct (Dict.mem (active_matches s) mid0); [|auto].
    cbn [with_active active_matches]. split.
    + now apply keys_remove_NoDup.
    + intros mid m. unfold get_match. cbn [with_active active_matches].
      destruct (String.eqb_spec mid0 mid) as [<- | Hne].
      * now rewrite get_remove_eq.
      * rewrite get_remove_ne by assumption. apply Hinv.
Qed.

Lemma table_kept (ops : list Op) :
  NoDup (Dict.keys (active_matches (run init ops)))
  /\ forall mid m, get_match (run init ops) mid = Some m -> kept_well mid m.
Proof.
  unfold run. induction ops as [|o ops IH] using rev_ind.
  - split; [constructor | discriminate].
  - rewrite fold_left_app. cbn [fold_left]. now apply step_keeps_table.
Qed.

Lemma table_keys_NoDup (ops : list Op) :
  NoDup (Dict.keys (active_matches (run init ops))).
Proof. apply table_kept. Qed.

(** X17: whatever sequence of [create_match], [player_joined],
    [record_choice] and [complete_match] calls a referee state has gone
    through, every active match is filed under its own id, is in state
    WAITING_FOR_PLAYERS or COLLECTING_CHOICES, and is in
    COLLECTING_CHOICES exactly when both of its players have joined. A
    match of a player against itself never records player B's arrival
    or choice, so it never leaves WAITING_FOR_PLAYERS. *)
Theorem match_table_invariants (ops : list Op) :
  let s := run init ops in
  NoDup (Dict.keys (active_matches s))
  /\ forall mid m,
       get_match s mid = Some m ->
       match_id m = mid
       /\ (state m = WAITING_FOR_PLAYERS \/ state m = COLLECTING_CHOICES)
       /\ (state m = COLLECTING_CHOICES
           <-> player_a_joined m = true /\ player_b_joined m = true)
       /\ (player_a_id m = player_b_id m ->
           player_b_joined m = false /\ player_b_choice m = JNull
           /\ state m = WAITING_FOR_PLAYERS).
Proof.
  cbv zeta. destruct (table_kept ops) as [Hnd Hinv]. split; [exact Hnd|].
  intros mid m Hm. destruct (Hinv mid m Hm) as (Hid & Hst & Hco & Hsame).
  split; [exact Hid | split; [exact Hst | split; [exact Hco|]]].
  intros E. destruct (Hsame E) as [Hb Hch].
  split; [exact Hb | split; [exact Hch|]].
  destruct Hst as [|Hc]; auto.
  apply Hco in Hc. destruct Hc. congruence.
Qed.

(** X18: the table of active matches behaves as a map from match id
    to match: after [create_match] the id leads to the new match
    (waiting for players, nobody joined, no choice, no number, no
    winner), replacing any match held under that id before; after
    [complete_match] the id leads to nothing; neither touches another
    id; and completing an id that is not active changes nothing. *)
Theorem match_table_round_trip (ops : list Op) (mid : string) :
  let s := run init ops in
  (forall rid a b ea eb conv,
     let (s', m) := create_match s mid rid a b ea eb conv in
     get_match s' mid = Some m
     /\ m = mkActive mid rid a b ea eb WAITING_FOR_PLAYERS false false
                     JNull JNull None None conv
     /\ both_choices_received s' mid = false
     /\ (forall mid', mid' <> mid -> get_match s' mid' = get_match s mid'))
  /\ get_match (complete_match s mid) mid = None
  /\ (forall mid', mid' <> mid ->
        get_match (complete_match s mid) mid' = get_match s mid')
  /\ (get_match s mid = None -> complete_match s mid = s).
Proof.
  intros s.
  assert (Hnd : NoDup (Dict.keys (active_matches s))) by apply table_keys_NoDup.
  split; [|split; [|split]].
  - intros rid a b ea eb conv. unfold create_match.
    fold (store s mid (mkActive mid rid a b ea eb WAITING_FOR_PLAYERS false false
                                JNull JNull None None conv)).
    split; [|split; [|split]].
    + rewrite get_store. now rewrite String.eqb_refl.
    + reflexivity.
    + unfold both_choices_received. rewrite get_store.
      now rewrite String.eqb_refl.
    + intros mid' Hne. rewrite get_store.
      destruct (String.eqb_spec mid mid'); congruence.
  - now apply completed_gone.
  - intros mid' Hne. unfold complete_match, get_match.
    destruct (Dict.mem (active_matches s) mid); [|reflexivity].
    cbn [with_active active_matches]. apply get_remove_ne. congruence.
  - intros Hnone. unfold complete_match, Dict.mem.
    unfold get_match in Hnone. now rewrite Hnone.
Qed.

End MatchTableTheorems.

Module MatchFlowFacts.
Import Referee RefereeHandlers RefereeFacts DictFacts MatchTableFacts.

(** *** States that differ only inside their matches *)

Lemma same_referee_refl s : same_referee s s.
Proof. repeat split. Qed.

Lemma same_referee_trans s1 s2 s3 :
  same_referee s1 s2 -> same_referee s2 s3 -> same_referee s1 s3.
Proof.
  unfold same_referee. intros (A1 & A2 & A3 & A4 & A5) (B1 & B2 & B3 & B4 & B5).
  repeat split; congruence.
Qed.

Lemma same_referee_store s mid m m0 :
  get_match s mid = Some m0 -> same_referee s (store s mid m).
Proof.
  intros H. unfold same_referee, store. cbn. repeat split.
  eapply keys_set_present. exact H.
Qed.

Lemma same_referee_player_joined s mid pid :
  same_referee s (fst (player_joined s mid pid)).
Proof.
  unfold player_joined. destruct (get_match s mid) as [m|] eqn:E.
  - destruct (String.eqb pid (player_a_id m)); [|destruct (String.eqb pid (player_b_id m))];
      cbn [fst]; eauto using same_referee_store, same_referee_refl.
  - apply same_referee_refl.
Qed.

Lemma same_referee_record_choice s mid pid c :
  same_referee s (fst (record_choice s mid pid c)).
Proof.
  unfold record_choice. destruct (get_match s mid) as [m|] eqn:E.
  - destruct (String.eqb pid (player_a_id m)); [|destruct (String.eqb pid (player_b_id m))];
      cbn [fst]; eauto using same_referee_store, same_referee_refl.
  - apply same_referee_refl.
Qed.

(** *** The helpers of [run_match], one run each *)

Section Runs.
Variable env : Env.

Lemma parity_choice_run ep mid pid opp rid conv w r :
  HttpClient.call_result (client w) (network env (n_calls w)) = Returned r ->
  readable r = true ->
  exists c st' lg,
    _request_parity_choice env ep mid pid opp rid conv w
    = (mkWorld st' (HttpClient.next_client (client w)) (sent w ++ [c])
               (wire w ++ snd (fst (HttpClient.call
                                      (client w) (network env (n_calls w)) ep
                                      "choose_parity" (rpc_params c) 30)))
               lg (S (n_calls w)) (S (S (n_ticks w))),
       Returned (if Json.has r "error" then JNull
                 else Json.get (Json.get_or_empty r "result") "parity_choice"))
    /\ c = mkSent true ep "choose_parity" (rpc_params c) 30
    /\ same_referee (rstate w) st'.
Proof.
  intros Hr Hread.
  unfold _request_parity_choice, bind, get_state, utc_timestamp, log, client_call.
  simpl.
  match goal with
  | |- context [HttpClient.call ?c ?net ?e ?m ?p ?t] =>
      destruct (HttpClientFacts.call_spec c net e m p t) as [evs E];
      exists (mkSent true e m p t); cbn [rpc_params]; rewrite E
  end.
  rewrite Hr. unfold readable in Hread.
  destruct r as [| | | | |obj]; try discriminate Hread.
  cbn [Json.is_obj andb] in Hread.
  unfold error_in, error_of, result_of, ret.
  change (Dict.mem obj "error") with (Json.has (JObj obj) "error").
  destruct (Json.has (JObj obj) "error").
  - do 2 eexists. split; [reflexivity|]. split; [reflexivity|].
    apply same_referee_refl.
  - cbn [orb] in Hread.
    destruct (Json.get_or_empty (JObj obj) "result") eqn:Eres;
      try discriminate Hread.
    unfold dict_get, ret, put_state. cbn [rstate client sent wire logged n_calls n_ticks].
    destruct (Json.truthy (Json.get (JObj d) "parity_choice")).
    + do 2 eexists. split; [reflexivity|]. split; [reflexivity|].
      apply same_referee_record_choice.
    + do 2 eexists. split; [reflexivity|]. split; [reflexivity|].
      apply same_referee_refl.
Qed.

(** A parity answer that cannot be read: the call was made, and the
    referee's state is as it was. *)
Lemma parity_choice_raises ep mid pid opp rid conv w r :
  HttpClient.call_result (client w) (network env (n_calls w)) = Returned r ->
  readable r = false ->
  exists c w',
    _request_parity_choice env ep mid pid opp rid conv w
    = (w', Raised (read_error r))
    /\ sent w' = sent w ++ [c]
    /\ rstate w' = rstate w
    /\ c = mkSent true ep "choose_parity" (rpc_params c) 30.
Proof.
  intros Hr Hread.
  unfold _request_parity_choice.
  unfold bind at 1 2 3 4 5. unfold get_state, utc_timestamp, log, client_call.
  cbn [rstate client sent wire logged n_calls n_ticks].
  match goal with
  | |- context [HttpClient.call ?c ?net ?e ?m ?p ?t] =>
      destruct (HttpClientFacts.call_spec c net e m p t) as [evs E];
      exists (mkSent true e m p t); cbn [rpc_params]; rewrite E
  end.
  rewrite Hr.
  match goal with
  | |- context [bind (error_in r) ?k ?w0] =>
      exists w0;
      let E := fresh in
      assert (E : bind (error_in r) k w0 = (w0, Raised (read_error r)));
      [|rewrite E; repeat split]
  end.
  apply (unreadable_raises r _ _ _ Hread).
  intros v w' Hv. destruct v; try discriminate Hv; reflexivity.
Qed.





End Runs.

(** *** Reading the answers *)

Lemma chose_readable r c :
  chose r c = true ->
  Json.has r "error" = false /\ readable r = true
  /\ Json.get (Json.get_or_empty r "result") "parity_choice" = JStr c.
Proof.
  unfold chose, readable. intros H.
  apply andb_true_iff in H. destruct H as [He Hc].
  apply negb_true_iff in He. rewrite He. cbn [orb].
  destruct r as [| | | | |obj]; try discriminate Hc. cbn [Json.is_obj andb].
  destruct (Json.get_or_empty (JObj obj) "result") as [| | | | |d] eqn:E;
    try discriminate Hc.
  destruct (Json.get (JObj d) "parity_choice"); try discriminate Hc.
  apply String.eqb_eq in Hc. subst. auto.
Qed.

Lemma valid_choice_accepted c w :
  GameLogic.validate_parity_choice c = true ->
  choice_rejected (JStr c) w = (w, Returned false).
Proof.
  intros Hv. unfold choice_rejected.
  assert (Hne : Json.truthy (JStr c) = true).
  { destruct c; [discriminate Hv | reflexivity]. }
  rewrite Hne. cbn [negb]. unfold ret. now rewrite Hv.
Qed.


End MatchFlowFacts.

Module MatchFlowTheorems.
Import Referee RefereeHandlers RefereeFacts DictFacts MatchTableFacts MatchFlowFacts.

Ltac settle :=
  cbv beta iota;
  cbn [rstate client sent wire logged n_calls n_ticks negb fst snd] in *.

Ltac step_invitation env H c Hc :=
  match goal with
  | |- context [_send_game_invitation env ?ep ?mid ?rid ?pid ?opp ?role ?conv ?w] =>
      let E := fresh "E" in
      destruct (invitation_run env ep mid rid pid opp role conv w _ H)
        as (c & E & Hc);
      rewrite E; clear E; settle
  end.

Ltac step_joined r H :=
  match goal with
  | |- context [_check_join_ack r ?pid ?mid ?w] =>
      rewrite (check_join_ack_joined r pid mid w H); settle
  end.

Ltac step_choice env H Hread c st lg Hc Hst :=
  match goal with
  | |- context [_request_parity_choice env ?ep ?mid ?pid ?opp ?rid ?conv ?w] =>
      let E := fresh "E" in
      destruct (parity_choice_run env ep mid pid opp rid conv w _ H Hread)
        as (c & st & lg & E & Hc & Hst);
      rewrite E; clear E; settle
  end.




Ltac kind_of H :=
  let E := fresh "E" in
  pose proof (f_equal call_kind H) as E;
  cbn [call_kind retrying to_endpoint rpc_method] in E;
  rewrite E; clear E.





End MatchFlowTheorems.

Module ForfeitTheorems.
Import Referee RefereeHandlers RefereeFacts DictFacts MatchTableFacts MatchFlowFacts.
Import MatchFlowTheorems.






End ForfeitTheorems.

Module BrokenMatchTheorems.
Import Referee RefereeHandlers RefereeFacts DictFacts MatchTableFacts MatchFlowFacts.
Import MatchFlowTheorems.

Lemma still_active st mid m0 st' :
  same_referee (with_active st (Dict.set (active_matches st) mid m0)) st' ->
  exists m, get_match st' mid = Some m.
Proof.
  intros (_ & _ & _ & _ & Hk). unfold get_match.
  destruct (Dict.get (active_matches st') mid) as [m|] eqn:E; [eauto|].
  exfalso. apply get_none_notin in E. apply E. rewrite Hk.
  cbn [with_active active_matches].
  assert (H : Dict.get (Dict.set (active_matches st) mid m0) mid <> None)
    by (rewrite get_set_eq; discriminate).
  rewrite get_none_notin in H.
  destruct (in_dec string_dec mid (Dict.keys (Dict.set (active_matches st) mid m0)));
    tauto.
Qed.

Lemma no_text_choice_raises r w :
  chose_no_text r = true ->
  Json.has r "error" = false /\ readable r = true
  /\ choice_rejected (Json.get (Json.get_or_empty r "result") "parity_choice") w
     = (w, Raised "AttributeError").
Proof.
  unfold chose_no_text, readable, choice_rejected. intros H.
  apply andb_true_iff in H. destruct H as [He H].
  apply andb_true_iff in H. destruct H as [Ht Hs].
  apply negb_true_iff in He. rewrite He, Ht. cbn [orb negb].
  split; [reflexivity|]. split.
  - destruct r as [| | | | |obj]; try discriminate Ht. cbn [Json.is_obj andb].
    destruct (Json.get_or_empty (JObj obj) "result"); try discriminate Ht.
    reflexivity.
  - destruct (Json.get (Json.get_or_empty r "result") "parity_choice");
      try discriminate Hs; reflexivity.
Qed.

Ltac step_unreadable r H :=
  match goal with
  | |- context [_check_join_ack r ?pid ?mid ?w] =>
      rewrite (check_join_ack_raises r pid mid w H); settle
  end.

Ltac step_choice_raises env H Hread c w' Hsent Hst Hc :=
  match goal with
  | |- context [_request_parity_choice env ?ep ?mid ?pid ?opp ?rid ?conv ?w] =>
      let E := fresh "E" in
      destruct (parity_choice_raises env ep mid pid opp rid conv w _ H Hread)
        as (c & w' & E & Hsent & Hst & Hc);
      rewrite E; clear E; settle
  end.

#[local] Abbreviation new_match env mid rid a b ea eb :=
  (mkActive mid rid a b ea eb WAITING_FOR_PLAYERS false false
            JNull JNull None None ("conv-" ++ mid ++ "-" ++ uuid8 env)).

(** X21: answers that the referee cannot read make [run_match] raise
    instead of declaring a technical loss. Such an answer is one that
    is no JSON object (a list, a string, a number, null), an object
    without an error member whose [result] is not an object (null,
    for one), or a parity answer whose choice is neither empty nor
    text. The exception is the [TypeError] or [AttributeError] that
    [read_error] names for the first two kinds, and [AttributeError]
    for a choice that is not text. The run stops where the answer is
    read: after the two invitations for an acknowledgement; after the
    parity call to player A for A's parity answer, so that player B is
    never asked; after both parity calls for B's parity answer and for
    a choice that is not text. Nothing is reported to the League
    Manager, and the match stays in the table of active matches. *)
Theorem unreadable_answer_breaks_match
        (env : Env) (w : World) (mid : string) (rid : Z) (a b ea eb : string)
        (ra rb : json) :
  let c k := Nat.iter k HttpClient.next_client (client w) in
  let net k := network env (n_calls w + k) in
  let res := run_match env mid rid a b ea eb w in
  let invitations := [(true, ea, "handle_game_invitation");
                      (true, eb, "handle_game_invitation")] in
  let asked_a := invitations ++ [(true, ea, "choose_parity")] in
  let asked_b := asked_a ++ [(true, eb, "choose_parity")] in
  HttpClient.call_result (c 0%nat) (net 0%nat) = Returned ra ->
  HttpClient.call_result (c 1%nat) (net 1%nat) = Returned rb ->
  (readable ra = false -> broke_off w res mid (read_error ra) invitations)
  /\ (join_accepted ra mid = true -> readable rb = false ->
      broke_off w res mid (read_error rb) invitations)
  /\ (forall rca,
        join_accepted ra mid = true -> join_accepted rb mid = true ->
        HttpClient.call_result (c 2%nat) (net 2%nat) = Returned rca ->
        (readable rca = false -> broke_off w res mid (read_error rca) asked_a)
        /\ (forall rcb,
              HttpClient.call_result (c 3%nat) (net 3%nat) = Returned rcb ->
              (readable rca = true -> readable rcb = false ->
               broke_off w res mid (read_error rcb) asked_b)
              /\ (chose_no_text rca = true -> readable rcb = true ->
                  broke_off w res mid "AttributeError" asked_b)
              /\ (forall ca,
                    chose rca ca = true ->
                    GameLogic.validate_parity_choice ca = true ->
                    chose_no_text rcb = true ->
                    broke_off w res mid "AttributeError" asked_b))).
Proof.
  intros c net res invitations asked_a asked_b H0 H1.
  subst c net res invitations asked_a asked_b.
  unfold Nat.iter in *. cbn [nat_rect] in *.
  rewrite ?Nat.add_succ_r, ?Nat.add_0_r in *.
  destruct w as [st cl snt wr lg nc nt]. cbn [client n_calls rstate] in *.
  unfold broke_off, run_match.
  cbv [bind get_state put_state log ret create_match]. settle.
  step_invitation env H0 inv_a Hinv_a.
  step_invitation env H1 inv_b Hinv_b.
  assert (Hjoined : same_referee
            (with_active st (Dict.set (active_matches st) mid
                                      (new_match env mid rid a b ea eb)))
            (fst (player_joined
                    (fst (player_joined
                            (with_active st (Dict.set (active_matches st) mid
                                               (new_match env mid rid a b ea eb)))
                            mid a)) mid b))).
  { eapply same_referee_trans; apply same_referee_player_joined. }
  split; [|split].
  - intros Ua. step_unreadable ra Ua.
    destruct (still_active st mid (new_match env mid rid a b ea eb) _
                (same_referee_refl _)) as [m Hm].
    exists [inv_a; inv_b], m.
    split; [reflexivity|]. split; [now rewrite <- !app_assoc|].
    split; [|exact Hm].
    cbn [map]. kind_of Hinv_a. kind_of Hinv_b. reflexivity.
  - intros Ja Ub. step_joined ra Ja. step_unreadable rb Ub.
    destruct (still_active st mid (new_match env mid rid a b ea eb) _
                (same_referee_player_joined _ mid a)) as [m Hm].
    exists [inv_a; inv_b], m.
    split; [reflexivity|]. split; [now rewrite <- !app_assoc|].
    split; [|exact Hm].
    cbn [map]. kind_of Hinv_a. kind_of Hinv_b. reflexivity.
  - intros rca Ja Jb H2.
    step_joined ra Ja. step_joined rb Jb.
    split; [|intros rcb H3; split; [|split]].
    + intros Ua.
      step_choice_raises env H2 Ua ask_a w_a Hsent_a Hst_a Hask_a.
      destruct (still_active st mid (new_match env mid rid a b ea eb) (rstate w_a))
        as [m Hm].
      { rewrite Hst_a. exact Hjoined. }
      exists [inv_a; inv_b; ask_a], m.
      split; [reflexivity|]. split; [rewrite Hsent_a; now rewrite <- !app_assoc|].
      split; [|exact Hm].
      cbn [map app]. kind_of Hinv_a. kind_of Hinv_b. kind_of Hask_a. reflexivity.
    + intros Ra Ub.
      step_choice env H2 Ra ask_a st_a lg_a Hask_a Hst_a.
      step_choice_raises env H3 Ub ask_b w_b Hsent_b Hst_b Hask_b.
      destruct (still_active st mid (new_match env mid rid a b ea eb) (rstate w_b))
        as [m Hm].
      { rewrite Hst_b. eapply same_referee_trans; [exact Hjoined | exact Hst_a]. }
      exists [inv_a; inv_b; ask_a; ask_b], m.
      split; [reflexivity|]. split; [rewrite Hsent_b; now rewrite <- !app_assoc|].
      split; [|exact Hm].
      cbn [map app]. kind_of Hinv_a. kind_of Hinv_b. kind_of Hask_a. kind_of Hask_b.
      reflexivity.
    + intros Na Rb.
      destruct (no_text_choice_raises rca
                  (mkWorld st cl snt wr lg nc nt) Na) as (Ea & Ra & _).
      step_choice env H2 Ra ask_a st_a lg_a Hask_a Hst_a.
      step_choice env H3 Rb ask_b st_b lg_b Hask_b Hst_b.
      rewrite Ea.
      rewrite (proj2 (proj2 (no_text_choice_raises rca _ Na))). settle.
      destruct (still_active st mid (new_match env mid rid a b ea eb) st_b)
        as [m Hm].
      { eapply same_referee_trans; [|exact Hst_b].
        eapply same_referee_trans; [exact Hjoined | exact Hst_a]. }
      exists [inv_a; inv_b; ask_a; ask_b], m.
      split; [reflexivity|]. split; [now rewrite <- !app_assoc|].
      split; [|exact Hm].
      cbn [map app]. kind_of Hinv_a. kind_of Hinv_b. kind_of Hask_a. kind_of Hask_b.
      reflexivity.
    + intros ca Ca Va Nb.
      destruct (chose_readable _ _ Ca) as (Ea & Ra & Pa).
      destruct (no_text_choice_raises rcb
                  (mkWorld st cl snt wr lg nc nt) Nb) as (Eb & Rb & _).
      step_choice env H2 Ra ask_a st_a lg_a Hask_a Hst_a.
      step_choice env H3 Rb ask_b st_b lg_b Hask_b Hst_b.
      rewrite Ea, Eb, Pa, (valid_choice_accepted ca _ Va). settle.
      rewrite (proj2 (proj2 (no_text_choice_raises rcb _ Nb))). settle.
      destruct (still_active st mid (new_match env mid rid a b ea eb) st_b)
        as [m Hm].
      { eapply same_referee_trans; [|exact Hst_b].
        eapply same_referee_trans; [exact Hjoined | exact Hst_a]. }
      exists [inv_a; inv_b; ask_a; ask_b], m.
      split; [reflexivity|]. split; [now rewrite <- !app_assoc|].
      split; [|exact Hm].
      cbn [map app]. kind_of Hinv_a. kind_of Hinv_b. kind_of Hask_a. kind_of Hask_b.
      reflexivity.
Qed.

(** Two runs that break off after the invitations: player A's
    acknowledgement has a null [result] ([AttributeError]); player A's
    acknowledgement is null itself ([TypeError]). *)
Lemma unreadable_answer_breaks_match_witness :
  let ea := "http://localhost:8101/mcp" in
  let eb := "http://localhost:8102/mcp" in
  let joined := JObj [("jsonrpc", JStr "2.0");
                      ("result", JObj [("accept", JBool true);
                                       ("match_id", JStr "R1M1")]);
                      ("id", JInt 1)] in
  let void := JObj [("jsonrpc", JStr "2.0"); ("result", JNull); ("id", JInt 1)] in
  let env first := mkEnv (fun n _ => match n with
                                     | 0%nat => HttpClient.Responded first
                                     | _ => HttpClient.Responded joined
                                     end)
                         (fun _ => "2025-01-01T00:00:00Z") "0a1b2c3d" 7 in
  let w := fresh_world (mkReferee (Some "REF01") (Some "tok-00") (Some "league_2025")
                                  "http://localhost:8000/mcp" "Referee" "1.0.0"
                                  ["even_odd"] 2 []) in
  broke_off w (run_match (env void) "R1M1" 1 "P01" "P02" ea eb w) "R1M1"
            "AttributeError"
            [(true, ea, "handle_game_invitation");
             (true, eb, "handle_game_invitation")]
  /\ broke_off w (run_match (env JNull) "R1M1" 1 "P01" "P02" ea eb w) "R1M1"
               "TypeError"
               [(true, ea, "handle_game_invitation");
                (true, eb, "handle_game_invitation")].
Proof.
  intros ea eb joined void env w. split.
  - destruct (unreadable_answer_breaks_match
                (env void) w "R1M1" 1 "P01" "P02" ea eb void joined eq_refl eq_refl)
      as [H _].
    apply H. reflexivity.
  - destruct (unreadable_answer_breaks_match
                (env JNull) w "R1M1" 1 "P01" "P02" ea eb JNull joined eq_refl eq_refl)
      as [H _].
    apply H. reflexivity.
Defined.

End BrokenMatchTheorems.

Module EndToEndFacts.
Import League LeagueHandlers DictFacts LeagueFacts ReportFacts.

(** What a result does to the rows of two different players. *)
Lemma rows_after_result d a b w row_a row_b :
  a <> b -> Dict.get d a = Some row_a -> Dict.get d b = Some row_b ->
  exists row_a' row_b',
    Dict.get (apply_result d a b w) a = Some row_a'
    /\ Dict.get (apply_result d a b w) b = Some row_b'
    /\ played row_a' = played row_a + 1
    /\ played row_b' = played row_b + 1
    /\ (w = JNull -> points row_a' = points row_a + 1
                     /\ points row_b' = points row_b + 1)
    /\ (w = JStr a -> points row_a' = points row_a + 3
                      /\ points row_b' = points row_b)
    /\ (w = JStr b -> points row_a' = points row_a
                      /\ points row_b' = points row_b + 3).
Proof.
  intros Hab Ha Hb.
  assert (Eab : String.eqb a b = false) by now apply String.eqb_neq.
  assert (Eba : String.eqb b a = false) by (apply String.eqb_neq; congruence).
  unfold apply_result.
  destruct (Json.is_none w) eqn:Hn; [|destruct (Json.eq_str w a) eqn:Hw];
    rewrite !get_modify, ?String.eqb_refl, ?Eab, ?Eba, Ha, Hb;
    cbn [option_map]; do 2 eexists;
    (split; [reflexivity|]); (split; [reflexivity|]);
    cbn [played points add_played add_wins add_draws add_losses add_points];
    (split; [lia|]); (split; [lia|]);
    (split; [|split]); intros ->; cbn [Json.is_none Json.eq_str] in *;
    rewrite ?String.eqb_refl, ?Eba in *; try discriminate; split; lia.
Qed.

(** A member that is not null belongs to an object. *)
Lemma member_of_object j k :
  Json.get j k <> JNull -> exists d, j = JObj d.
Proof. destruct j; cbn; try congruence. eauto. Qed.

Lemma get_or_empty_object (p : Dict.t json) k d :
  Json.get (JObj p) k = JObj d -> Json.get_or_empty (JObj p) k = JObj d.
Proof.
  cbn. destruct (Dict.get p k); [auto | discriminate].
Qed.

End EndToEndFacts.

Module EndToEndTheorems.
Import League LeagueHandlers DictFacts LeagueFacts ReportFacts EndToEndFacts.
Import RefereeHandlers.

(** X22: the report the referee sends after a game played to its end
    is one the League Manager's handler acts on as meant: given a
    schedule that holds the match between the same two players (both
    with a standings row), [handle_report_match_result] applied to the
    parameters of that report marks the match COMPLETED with the
    winner the referee announced, counts one more game played for each
    of the two players, and adds to each player's points exactly the
    score the report lists for that player. *)
Theorem reported_game_reaches_standings
        (env : Env) (w : World) (res : World * outcome json)
        (mid a b ea eb ca cb : string)
        (s : LeagueState) (m : Match) (request_id : json) (ts : Stamps)
        (row_a row_b : PlayerStanding) :
  a <> b ->
  played_to_the_end env w res mid a b ea eb ca cb ->
  NoDup (map match_id (schedule s)) ->
  In m (schedule s) ->
  match_id m = mid ->
  player_a_id m = a -> player_b_id m = b ->
  Dict.get (standings s) a = Some row_a ->
  Dict.get (standings s) b = Some row_b ->
  exists earlier report params out,
    snd res = Returned out
    /\ sent (fst res) = earlier ++ [report]
    /\ rpc_method report = "report_match_result"
    /\ rpc_params report = JObj params
    /\ let s' := fst (handle_report_match_result s params request_id ts) in
       let score p :=
         Json.get (Json.get (Json.get (JObj params) "result") "score") p in
       (exists m',
          In m' (schedule s') /\ match_id m' = mid
          /\ status m' = "COMPLETED"
          /\ winner m' = Json.get out "winner")
       /\ exists row_a' row_b',
            Dict.get (standings s') a = Some row_a'
            /\ Dict.get (standings s') b = Some row_b'
            /\ played row_a' = played row_a + 1
            /\ played row_b' = played row_b + 1
            /\ score a = JInt (points row_a' - points row_a)
            /\ score b = JInt (points row_b' - points row_b).
Proof.
  intros Hab Hplay Hnd Hin Hmid Hpa Hpb Ha Hb.
  destruct Hplay as (inv_a & inv_b & ask_a & ask_b & over_a & over_b & report & out
                     & Hout & Hsent & Hkinds & _ & Hrmid & _ & _ & _ & _ & _ & _
                     & Hwin & Hrole & _).
  cbv zeta in Hrole.
  destruct (member_of_object (rpc_params report) "match_id") as [params Hparams].
  { rewrite Hrmid. discriminate. }
  rewrite Hparams in *.
  assert (Hscore : Json.get (Json.get (Json.get (JObj params) "result") "score") a
                   <> JNull).
  { destruct (GameLogic.winner_of _) as [r|];
      [destruct Hrole as [_ Hrole]; destruct (String.eqb r "PLAYER_A")|];
      intuition congruence. }
  destruct (member_of_object _ _ Hscore) as [sc Hsc].
  destruct (member_of_object (Json.get (JObj params) "result") "score") as [r Hr].
  { rewrite Hsc. discriminate. }
  pose proof (get_or_empty_object params "result" r Hr) as Hres.
  rewrite Hr in *.
  destruct (split_at_entry _ m Hnd Hin) as (pre & post & Hsch & Hpre).
  rewrite <- Hmid in Hrmid.
  exists (sent w ++ [inv_a; inv_b; ask_a; ask_b; over_a; over_b]),
    report, params, out.
  split; [exact Hout|].
  split; [rewrite Hsent, <- app_assoc; reflexivity|].
  split.
  { apply (f_equal (fun l => snd (nth 6 l (true, "", "")))) in Hkinds.
    exact Hkinds. }
  split; [exact Hparams|].
  cbv zeta.
  rewrite (report_state s params request_id ts pre m post r Hsch Hpre Hrmid Hres).
  cbn [fst]. rewrite Hr, Hwin.
  split.
  - exists (complete m (JObj r)).
    cbn [save_match_result with_disk schedule].
    rewrite (proj1 (update_fields _ _ _ _ _)). cbn [with_schedule schedule].
    split; [apply in_or_app; right; now left|].
    cbn [complete match_id status winner].
    split; [exact Hmid | split; [reflexivity | exact Hwin]].
  - cbn [save_match_result with_disk standings].
    rewrite standings_update_any_schedule, standings_update.
    rewrite Hpa, Hpb, Ha, Hb.
    destruct (rows_after_result (standings s) a b (Json.get out "winner")
                                row_a row_b Hab Ha Hb)
      as (row_a' & row_b' & Ga & Gb & Pa & Pb & Hdraw & Hwa & Hwb).
    exists row_a', row_b'.
    do 4 (split; [assumption|]).
    destruct (GameLogic.winner_of _) as [role|].
    + destruct Hrole as [_ Hrole].
      destruct (String.eqb role "PLAYER_A");
        destruct Hrole as (Hw & Sa & Sb); rewrite Sa, Sb.
      * destruct (Hwa Hw) as [-> ->]. split; f_equal; lia.
      * destruct (Hwb Hw) as [-> ->]. split; f_equal; lia.
    + destruct Hrole as (_ & Hw & Sa & Sb). rewrite Sa, Sb.
      destruct (Hdraw Hw) as [-> ->]. split; f_equal; lia.
Qed.

Lemma reported_game_reaches_standings_witness :
  let ea := "http://localhost:8101/mcp" in
  let eb := "http://localhost:8102/mcp" in
  let answer body := HttpClient.Responded
                       (JObj [("jsonrpc", JStr "2.0"); ("result", JObj body);
                              ("id", JInt 1)]) in
  let env := mkEnv (fun n _ =>
                      match n with
                      | 0%nat | 1%nat =>
                          answer [("accept", JBool true); ("match_id", JStr "R1M1")]
                      | 2%nat => answer [("parity_choice", JStr "even")]
                      | 3%nat => answer [("parity_choice", JStr "ODD")]
                      | _ => answer [("status", JStr "RECORDED")]
                      end)
                   (fun _ => "2025-01-01T00:00:00Z") "0a1b2c3d" 7 in
  let w := fresh_world (Referee.mkReferee
                          (Some "REF01") (Some "tok-00") (Some "league_2025")
                          "http://localhost:8000/mcp" "Referee" "1.0.0"
                          ["even_odd"] 2 []) in
  let res := run_match env "R1M1" 1 "P01" "P02" ea eb w in
  let s0 := fst (register_player (init "league_2025") "Alpha" ea "1.0.0" None "00") in
  let s1 := fst (register_player s0 "Beta" eb "1.0.0" None "01") in
  let s := create_schedule s1 in
  exists earlier report params out,
    snd res = Returned out
    /\ sent (fst res) = earlier ++ [report]
    /\ rpc_method report = "report_match_result"
    /\ rpc_params report = JObj params
    /\ Dict.get (standings (fst (handle_report_match_result
                                   s params (JInt 7) (mkStamps "t1" "t2" "t3"))))
                "P02"
       = Some (mkStanding "P02" "Beta" 1 1 0 0 3).
Proof.
  intros ea eb answer env w res s0 s1 s.
  let v := eval vm_compute in res in
  assert (Hres : res = v) by (vm_compute; reflexivity).
  clearbody res. subst res.
  match goal with
  | |- context [snd ?r = Returned _] => set (res := r)
  end.
  assert (Hplay : played_to_the_end env w res "R1M1" "P01" "P02" ea eb "even" "ODD").
  { unfold played_to_the_end. do 8 eexists.
    split; [reflexivity|]. split; [reflexivity|]. repeat split. }
  assert (Hnd : NoDup (map match_id (schedule s))).
  { repeat constructor. simpl. tauto. }
  destruct (reported_game_reaches_standings
              env w res "R1M1" "P01" "P02" ea eb "even" "ODD"
              s (Scheduler.new_match 1 ("P01", "P02")) (JInt 7)
              (mkStamps "t1" "t2" "t3")
              (mkStanding "P01" "Alpha" 0 0 0 0 0) (mkStanding "P02" "Beta" 0 0 0 0 0)
              ltac:(discriminate) Hplay Hnd ltac:(now left)
              eq_refl eq_refl eq_refl eq_refl eq_refl)
    as (earlier & report & params & out & Hout & Hsent & Hmeth & Hpar & _).
  exists earlier, report, params, out.
  do 4 (split; [assumption|]).
  assert (Hp : JObj params = rpc_params (last (sent (fst res)) report)).
  { rewrite Hsent, last_last. now symmetry. }
  cbn in Hp. injection Hp as ->. reflexivity.
Defined.

End EndToEndTheorems.

Module RegistryScheduleFacts.
Import Scheduler SchedulerFacts.

(** A pair of [combinations] keeps the order of the list. *)
Lemma combinations2_in_order (A : Type) (l : list A) x y :
  In (x, y) (combinations2 l) ->
  exists l1 l2 l3, l = l1 ++ x :: l2 ++ y :: l3.
Proof.
  induction l as [|z zs IH]; simpl; [tauto|].
  rewrite in_app_iff, in_map_iff.
  intros [[w [E Hw]] | H].
  - inversion E; subst. apply in_split in Hw. destruct Hw as (l2 & l3 & ->).
    now exists [], l2, l3.
  - destruct (IH H) as (l1 & l2 & l3 & ->). now exists (z :: l1), l2, l3.
Qed.

Lemma loop_pending pairs : forall k acc,
  Forall (fun m => status m = "PENDING" /\ winner m = JNull /\ result m = JNull) acc ->
  Forall (fun m => status m = "PENDING" /\ winner m = JNull /\ result m = JNull)
         (schedule_loop pairs k acc).
Proof.
  induction pairs as [|p rest IH]; intros k acc H; simpl; auto.
  apply IH. apply Forall_app. split; auto.
Qed.

End RegistryScheduleFacts.

Module RegistryScheduleTheorems.
Import League LeagueHandlers Scheduler SchedulerFacts DictFacts LeagueFacts.
Import RegistryFacts MatchIdFacts RegistryScheduleFacts.

(** X23: [create_schedule], in any state reached from the initial one
    with n registered players, replaces the schedule by n(n-1)/2
    matches with distinct ids, all PENDING without winner or result;
    every two different registered players meet in exactly one match,
    the one registered earlier as player A; both players of every
    match are different registered players with a standings row; and
    the registry and the standings are left as they were. *)
Theorem schedule_from_registry (league : string) (ops : list Op) :
  let s := run (init league) ops in
  let s' := create_schedule s in
  let ids := issued_player_ids (init league) ops in
  let n := List.length ids in
  List.length (schedule s') = (n * (n - 1) / 2)%nat
  /\ NoDup (map match_id (schedule s'))
  /\ (forall m, In m (schedule s') ->
        status m = "PENDING" /\ winner m = JNull /\ result m = JNull
        /\ player_a_id m <> player_b_id m
        /\ (exists l1 l2 l3,
              ids = l1 ++ player_a_id m :: l2 ++ player_b_id m :: l3)
        /\ Dict.mem (standings s) (player_a_id m) = true
        /\ Dict.mem (standings s) (player_b_id m) = true)
  /\ (forall a b, In a ids -> In b ids -> a <> b ->
                  pairing_count a b (schedule s') = 1%nat)
  /\ players s' = players s /\ standings s' = standings s
  /\ referees s' = referees s /\ auth_tokens s' = auth_tokens s.
Proof.
  intros s s' ids n. subst s' ids n.
  unfold create_schedule. cbn [with_schedule schedule players standings
                               referees auth_tokens].
  pose proof (players_keys_issued league ops) as Hkeys. fold s in Hkeys.
  pose proof (standings_keys_issued league ops) as Hrows. fold s in Hrows.
  pose proof (issued_player_ids_NoDup (init league) ops) as Hnd.
  rewrite Hkeys.
  split; [rewrite schedule_length; apply combinations2_length|].
  split; [apply schedule_ids_NoDup|].
  split; [|split; [|auto]].
  - intros m Hm.
    assert (Hp : In (players_of m)
                    (combinations2 (issued_player_ids (init league) ops))).
    { rewrite <- schedule_players. now apply in_map. }
    unfold players_of in Hp.
    pose proof (combinations2_distinct _ _ _ _ Hnd Hp) as Hne.
    pose proof (combinations2_in_order _ _ _ _ Hp) as Hord.
    apply combinations2_In in Hp. destruct Hp as [Ha Hb].
    assert (Hfresh : Forall (fun m => status m = "PENDING" /\ winner m = JNull
                                      /\ result m = JNull)
                            (create_round_robin_schedule
                               (issued_player_ids (init league) ops))).
    { apply loop_pending. constructor. }
    rewrite Forall_forall in Hfresh.
    destruct (Hfresh m Hm) as (H1 & H2 & H3).
    assert (Hmem : forall k, In k (issued_player_ids (init league) ops) ->
                             Dict.mem (standings s) k = true).
    { intros k Hk. unfold Dict.mem.
      destruct (Dict.get (standings s) k) eqn:E; [reflexivity|].
      apply get_none_notin in E. exfalso. apply E. now rewrite Hrows. }
    repeat split; auto.
  - intros a b Ha Hb Hab.
    rewrite pairing_count_players, schedule_players.
    now apply combinations2_once.
Qed.

End RegistryScheduleTheorems.

Module PlayerFacts.
Import Player.

Lemma random_choice_cases rnd :
  random_choice rnd = "even" \/ random_choice rnd = "odd".
Proof. unfold random_choice. destruct (takes_first rnd); auto. Qed.

(** Whatever the strategy object, [choose] answers even or odd, or
    fails on a context that is not a dict. *)
Lemma choose_cases st state context rnd :
  match snd (choose st state context rnd) with
  | Returned c => c = "even" \/ c = "odd"
  | Raised e => e = "AttributeError" /\ st = CounterStrategy
                /\ Json.is_obj context = false
  end.
Proof.
  destruct st; cbn [choose snd]; auto; try apply random_choice_cases.
  - destruct (String.eqb last_choice "odd"); auto.
  - destruct (Qle_bool even_probability (uniform rnd)); auto.
  - destruct context; cbn [snd Json.is_obj]; auto.
    destruct (negb (Json.truthy (Json.get (JObj d) "opponent_id")));
      [apply random_choice_cases|].
    destruct (match Json.get (JObj d) "opponent_id" with
              | JStr o => get_opponent_history state o
              | _ => []
              end) as [|g games]; [apply random_choice_cases|].
    destruct (_ <? _); [cbn; auto|].
    destruct (_ <? _); [cbn; auto | apply random_choice_cases].
Qed.

Lemma make_choice_choose registry state context rnd :
  snd (make_choice registry state context rnd)
  = snd (choose (get_strategy registry (strategy state)) state context rnd).
Proof.
  unfold make_choice.
  now destruct (choose (get_strategy registry (strategy state)) state context rnd).
Qed.

Lemma cases_valid c :
  c = "even" \/ c = "odd" -> GameLogic.validate_parity_choice c = true.
Proof. intros [-> | ->]; reflexivity. Qed.

Lemma make_choice_cases registry state context rnd :
  match snd (make_choice registry state context rnd) with
  | Returned c => c = "even" \/ c = "odd"
  | Raised e =>
      e = "AttributeError"
      /\ Dict.get registry (strategy state) = Some CounterStrategy
      /\ Json.is_obj context = false
  end.
Proof.
  rewrite make_choice_choose.
  pose proof (choose_cases (get_strategy registry (strategy state))
                           state context rnd) as H.
  destruct (snd (choose _ state context rnd)) as [c | e]; [exact H|].
  destruct H as (He & Hst & Hc). repeat split; auto.
  unfold get_strategy in Hst.
  destruct (Dict.get registry (strategy state)); [congruence | discriminate].
Qed.

End PlayerFacts.

Module PlayerTheorems.
Import Player PlayerFacts.

(** X24: whatever strategy name a player is configured with (known or
    not), whatever the registry holds under it, whatever its history
    and the random draws, [make_choice] answers "even" or "odd", which
    the referee's [validate_parity_choice] accepts; the one exception
    is the counter strategy handed a context that is not an object,
    which raises [AttributeError]. An unknown strategy name falls back
    to the random strategy and leaves the registry alone. *)
Theorem make_choice_is_valid
        (registry : Dict.t Strategy) (state : PlayerState)
        (context : json) (rnd : Draws) :
  match snd (make_choice registry state context rnd) with
  | Returned c =>
      (c = "even" \/ c = "odd") /\ GameLogic.validate_parity_choice c = true
  | Raised e =>
      e = "AttributeError"
      /\ Dict.get registry (strategy state) = Some CounterStrategy
      /\ Json.is_obj context = false
  end
  /\ (Dict.get registry (strategy state) = None ->
      make_choice registry state context rnd
      = (registry, Returned (random_choice rnd))).
Proof.
  split.
  - pose proof (make_choice_cases registry state context rnd) as H.
    destruct (snd (make_choice registry state context rnd)) as [c | e].
    + split; [exact H | now apply cases_valid].
    + exact H.
  - intros Hnone. unfold make_choice, get_strategy. now rewrite Hnone.
Qed.

(** X25: what a player answers is what the referee waits for. The
    acknowledgement built by [handle_game_invitation] passes the
    referee's check for the match id [mid] exactly when the invitation
    carried [mid] as its [match_id]; and every answer
    [handle_choose_parity] returns carries a valid choice, so it never
    leads to a technical loss. *)
Theorem player_answers_satisfy_referee
        (registry : Dict.t Strategy) (s : PlayerState) (params : Dict.t json)
        (request_id : json) (rnd : Draws) (now arrival : string) (mid : string) :
  let ack := snd (handle_game_invitation s params request_id now arrival) in
  (RefereeHandlers.join_accepted ack mid = true
   <-> Json.get (JObj params) "match_id" = JStr mid)
  /\ (RefereeHandlers.join_failed ack mid = true
      <-> Json.get (JObj params) "match_id" <> JStr mid)
  /\ match snd (handle_choose_parity registry s params request_id rnd now) with
     | Returned answer =>
         exists c,
           RefereeHandlers.chose answer c = true
           /\ GameLogic.validate_parity_choice c = true
           /\ RefereeHandlers.no_valid_choice answer = false
     | Raised e =>
         e = "AttributeError"
         /\ Dict.get registry (strategy s) = Some CounterStrategy
         /\ Json.is_obj (Json.get_or_empty (JObj params) "context") = false
     end.
Proof.
  intros ack. subst ack. split; [|split].
  - unfold handle_game_invitation, RefereeHandlers.join_accepted. cbn.
    destruct (match Dict.get params "match_id" with
              | Some v => v | None => JNull end) as [| | |m| |]; cbn;
      try (split; [discriminate | discriminate]).
    rewrite String.eqb_eq. split; congruence.
  - unfold handle_game_invitation, RefereeHandlers.join_failed. cbn.
    destruct (match Dict.get params "match_id" with
              | Some v => v | None => JNull end) as [| | |m| |]; cbn;
      try (split; [discriminate | reflexivity]).
    rewrite negb_true_iff, String.eqb_neq. split; congruence.
  - unfold handle_choose_parity.
    pose proof (make_choice_cases registry s
                  (Json.get_or_empty (JObj params) "context") rnd) as H.
    destruct (make_choice registry s _ rnd) as [registry' [c | e]]; cbn [snd] in *.
    + exists c. destruct H as [-> | ->]; repeat split.
    + exact H.
Qed.

End PlayerTheorems.

Module PlayerTallyFacts.
Import Player.

#[local] Abbreviation won_by me := (fun g => opt_eqb (played_winner g) me).
#[local] Abbreviation drawn_for me :=
  (fun g => negb (opt_eqb (played_winner g) me)
            && match played_winner g with None => true | Some _ => false end).
#[local] Abbreviation lost_by me :=
  (fun g => negb (opt_eqb (played_winner g) me)
            && match played_winner g with None => false | Some _ => true end).
#[local] Abbreviation number p games := (Z.of_nat (List.length (filter p games))).

Lemma record_step s g :
  let s' := record s g in
  player_id s' = player_id s
  /\ wins s' = wins s + number (won_by (player_id s)) [g]
  /\ draws s' = draws s + number (drawn_for (player_id s)) [g]
  /\ losses s' = losses s + number (lost_by (player_id s)) [g]
  /\ points s' = points s + 3 * number (won_by (player_id s)) [g]
                 + number (drawn_for (player_id s)) [g]
  /\ points_recorded s' = points_recorded s + (points s' - points s)
  /\ map Player.match_id (history s')
     = map Player.match_id (history s) ++ [played_match g].
Proof.
  unfold record, record_game, points_recorded. cbn [filter].
  destruct (opt_eqb (played_winner g) (player_id s));
    [|destruct (played_winner g)];
    cbn [player_id wins draws losses points history negb andb List.length];
    rewrite !map_app; cbn [map points_earned Player.match_id];
    (repeat split; try lia);
    (rewrite fold_right_app; cbn [fold_right];
     generalize (map points_earned (history s)); intros l;
     induction l as [|x l IH]; cbn [fold_right]; lia).
Qed.

Lemma number_cons (p : Game -> bool) g games :
  number p (g :: games) = number p [g] + number p games.
Proof. cbn [filter]. destruct (p g); cbn [List.length]; lia. Qed.

Lemma record_all_tally games : forall s,
  let s' := record_all s games in
  player_id s' = player_id s
  /\ wins s' = wins s + number (won_by (player_id s)) games
  /\ draws s' = draws s + number (drawn_for (player_id s)) games
  /\ losses s' = losses s + number (lost_by (player_id s)) games
  /\ points s' = points s + 3 * number (won_by (player_id s)) games
                 + number (drawn_for (player_id s)) games
  /\ points_recorded s' = points_recorded s + (points s' - points s)
  /\ map Player.match_id (history s')
     = map Player.match_id (history s) ++ map played_match games.
Proof.
  induction games as [|g games IH]; intros s.
  - cbn. rewrite app_nil_r. repeat split; lia.
  - cbn zeta. change (record_all s (g :: games)) with (record_all (record s g) games).
    destruct (IH (record s g)) as (I1 & I2 & I3 & I4 & I5 & I6 & I7).
    destruct (record_step s g) as (S1 & S2 & S3 & S4 & S5 & S6 & S7).
    rewrite S1 in *.
    rewrite (number_cons (won_by (player_id s))),
            (number_cons (drawn_for (player_id s))),
            (number_cons (lost_by (player_id s))).
    repeat split; try lia.
    + congruence.
    + rewrite I7, S7, <- app_assoc. reflexivity.
Qed.

Lemma outcomes_split me (games : list Game) :
  number (won_by me) games + number (drawn_for me) games
  + number (lost_by me) games = Z.of_nat (List.length games).
Proof.
  induction games as [|g games IH]; [reflexivity|].
  rewrite (number_cons (won_by me)), (number_cons (drawn_for me)),
          (number_cons (lost_by me)).
  cbn [filter List.length].
  destruct (opt_eqb (played_winner g) me), (played_winner g);
    cbn [negb andb List.length]; lia.
Qed.

Lemma no_draw_unregistered (games : list Game) :
  number (drawn_for None) games = 0.
Proof.
  induction games as [|g games IH]; [reflexivity|].
  rewrite (number_cons (drawn_for None)), IH. cbn [filter].
  destruct (played_winner g); reflexivity.
Qed.

End PlayerTallyFacts.

Module PlayerTallyTheorems.
Import Player PlayerTallyFacts.

(** X26: the player's own tally stays consistent over any sequence of
    recorded games, from any state: wins, draws and losses grow by the
    numbers of games won by the player's id, drawn and won by someone
    else, which add up to the number of games; points grow by three
    per win and one per draw, and by the sum of the points written
    into the new history records; [games_played] in [get_stats] grows
    by the number of games, and the history keeps the matches in the
    order they were recorded. A player that has no id yet records a
    game without winner as a WIN worth three points, never as a draw. *)
Theorem recorded_games_tally (s : PlayerState) (games : list Game) :
  let s' := record_all s games in
  let me := player_id s in
  let won := Z.of_nat (List.length
               (filter (fun g => opt_eqb (played_winner g) me) games)) in
  let n := Z.of_nat (List.length games) in
  player_id s' = me
  /\ wins s' = wins s + won
  /\ (wins s' - wins s) + (draws s' - draws s) + (losses s' - losses s) = n
  /\ 0 <= draws s' - draws s /\ 0 <= losses s' - losses s
  /\ points s' - points s = 3 * (wins s' - wins s) + (draws s' - draws s)
  /\ points_recorded s' - points_recorded s = points s' - points s
  /\ Dict.get (get_stats s') "games_played"
     = Some (Z.of_nat (List.length (history s)) + n)
  /\ map Player.match_id (history s')
     = map Player.match_id (history s) ++ map played_match games
  /\ (me = None ->
      draws s' = draws s
      /\ points s' = points s + 3 * won
      /\ forall g, played_winner g = None ->
                   result (last (history (record s g))
                                (mkGame "" "" "" None 0 "" 0)) = "WIN").
Proof.
  cbn zeta.
  destruct (record_all_tally games s) as (I1 & I2 & I3 & I4 & I5 & I6 & I7).
  pose proof (outcomes_split (player_id s) games) as Hsplit.
  repeat split; try lia; try assumption.
  - unfold get_stats. cbn.
    f_equal. rewrite <- (length_map Player.match_id), I7, length_app, !length_map. lia.
  - rewrite H, no_draw_unregistered in I3. lia.
  - rewrite H, no_draw_unregistered in I5. rewrite H. lia.
  - intros g Hg. unfold record, record_game. rewrite H, Hg. cbn.
    now rewrite last_last.
Qed.

End PlayerTallyTheorems.
